(** * Game-state engines of the daily-activity pages

    A shallow embedding of the two client-side games of the application,
    [daily-activity/blurry-image/page.tsx] and
    [daily-activity/memory-game/page.tsx], and of the properties their
    specification states about them.

    Both pages are React function components (client components of the
    Next.js app router, so React 18).  A handler closes over the state of the
    render it was created in; its [setX] calls are applied as one batch when
    the handler returns or reaches an [await], also when it resumes after
    one; and the effects of the render a click caused have run before the
    next event is handled.  A handler is therefore a function from the
    rendered state to the next state, together with the effects it fires
    (toasts, sounds, the completion notifier).  Which handlers a user can
    reach in a state is decided by what the component renders in that state;
    [dispatch] below puts the two together. *)

(** The development goes on with the server actions of [actions.ts] that
    the pages and their siblings call: an action awaits one AI flow at most,
    and is modelled by what it does before the call and by what it makes of
    each way the call can settle. *)

From stdpp Require Import base decidable numbers list gmap sets strings.

Set Default Proof Using "Type".

(** ** JavaScript strings *)

(** A JavaScript string is a sequence of UTF-16 code units; [length] and
    indexing ([s[i]]) count code units. *)
Abbreviation jsstring := (list N).

(** The code units of a literal ([js "cat"]): used to write examples. *)
Fixpoint js (s : string) : jsstring :=
  match s with
  | EmptyString => []
  | String a r => Ascii.N_of_ascii a :: js r
  end.

(** The code unit of the space character, [' ']. *)
Definition SPACE : N := 32%N.

(** [WhiteSpace] and [LineTerminator] code points of ECMAScript, the ones
    [String.prototype.trim] strips (all of them are single code units). *)
Definition isWhiteSpace (c : N) : bool :=
  bool_decide (c ∈ [9; 10; 11; 12; 13; 32; 160; 5760; 8232; 8233; 8239; 8287; 12288; 65279]%N)
  || ((8192 <=? c)%N && (c <=? 8202)%N).

Fixpoint trimStart (s : jsstring) : jsstring :=
  match s with
  | [] => []
  | c :: r => if isWhiteSpace c then trimStart r else s
  end.

Definition trimEnd (s : jsstring) : jsstring := rev (trimStart (rev s)).

(** [s.trim()] *)
Definition trim (s : jsstring) : jsstring := trimEnd (trimStart s).

(** [!s] for a string: true exactly for the empty string. *)
Definition falsy (s : jsstring) : bool :=
  match s with [] => true | _ => false end.

(** [a === b] on strings. *)
Definition strictEq (a b : jsstring) : bool := bool_decide (a = b).

(** ASCII lower-casing, the restriction of [String.prototype.toLowerCase] to
    Basic Latin: used to instantiate the case mapping in examples. *)
Definition asciiLowerUnit (c : N) : N :=
  if ((65 <=? c)%N && (c <=? 90)%N) then (c + 32)%N else c.

Definition asciiToLowerCase (s : jsstring) : jsstring := map asciiLowerUnit s.

(** ** Collaborators *)

(** The outcome of an awaited call to an external collaborator: its value,
    or the [Error] it was rejected with (of which the pages use the
    [message] at most). *)
Inductive Promise (A : Type) : Type :=
  | Fulfilled (value : A)
  | Rejected (message : jsstring).
Arguments Fulfilled {A} value.
Arguments Rejected {A} message.

(** How an [async] handler ends: it runs to completion, or an exception
    escapes it (the promise it returned is rejected). *)
Inductive Completion (S : Type) : Type :=
  | Completes (s : S)
  | Throws (s : S).
Arguments Completes {S} s.
Arguments Throws {S} s.

(** The state and effects a handler leaves, however it ended. *)
Definition result {A : Type} (c : Completion A) : A :=
  match c with Completes r => r | Throws r => r end.

(** Effects a handler fires besides updating the component state: a toast
    (by its title), a request to speak a text, the "activity completed"
    notifier. *)
Inductive Effect : Type :=
  | Toast (title : string)
  | PlaySound (text : string)
  | CompleteActivity.

(** ** The blurry-image game ([blurry-image/page.tsx]) *)

Module Blurry.

Inductive GameState : Type := idle | loading | playing | correct | lost.

#[global] Instance GameState_eq_dec : EqDecision GameState.
Proof. solve_decision. Defined.

Inductive Difficulty : Type := Easy | Medium | Hard.

(** What [generateChallenge] resolves to. *)
Record Challenge : Type := mkChallenge {
  challenge_imageUrl : jsstring;
  challenge_word : jsstring
}.

(** The [useState] cells the round lives in.  The audio element and its
    [isSoundPending] flag are left to the [PlaySound] effect. *)
Record State : Type := mkState {
  gameState : GameState;
  imageUrl : option jsstring;
  correctWord : jsstring;
  userGuess : jsstring;
  difficulty : option Difficulty;
  attempts : nat;
  revealedIndices : gset nat;
  hintsUsed : nat
}.

(** The state of the first render. *)
Definition initialState : State :=
  mkState idle None [] [] None 0 ∅ 0.

Definition setGameState (v : GameState) (s : State) : State :=
  mkState v (imageUrl s) (correctWord s) (userGuess s) (difficulty s)
          (attempts s) (revealedIndices s) (hintsUsed s).

Definition setImageUrl (v : option jsstring) (s : State) : State :=
  mkState (gameState s) v (correctWord s) (userGuess s) (difficulty s)
          (attempts s) (revealedIndices s) (hintsUsed s).

Definition setCorrectWord (v : jsstring) (s : State) : State :=
  mkState (gameState s) (imageUrl s) v (userGuess s) (difficulty s)
          (attempts s) (revealedIndices s) (hintsUsed s).

Definition setUserGuess (v : jsstring) (s : State) : State :=
  mkState (gameState s) (imageUrl s) (correctWord s) v (difficulty s)
          (attempts s) (revealedIndices s) (hintsUsed s).

Definition setDifficulty (v : option Difficulty) (s : State) : State :=
  mkState (gameState s) (imageUrl s) (correctWord s) (userGuess s) v
          (attempts s) (revealedIndices s) (hintsUsed s).

(** [setAttempts(prev => f prev)] *)
Definition setAttempts (f : nat → nat) (s : State) : State :=
  mkState (gameState s) (imageUrl s) (correctWord s) (userGuess s) (difficulty s)
          (f (attempts s)) (revealedIndices s) (hintsUsed s).

Definition setRevealedIndices (v : gset nat) (s : State) : State :=
  mkState (gameState s) (imageUrl s) (correctWord s) (userGuess s) (difficulty s)
          (attempts s) v (hintsUsed s).

(** [setHintsUsed(prev => f prev)] *)
Definition setHintsUsed (f : nat → nat) (s : State) : State :=
  mkState (gameState s) (imageUrl s) (correctWord s) (userGuess s) (difficulty s)
          (attempts s) (revealedIndices s) (f (hintsUsed s)).

(** The number of wrong guesses that ends a round (the help dialog's
    "Você tem 3 tentativas"; the comment "3 total attempts (0, 1, 2)" in
    [handleGuessSubmit]). *)
Definition maxAttempts : nat := 3.

(** [blurLevel = Math.max(0, 24 - attempts * 8)] (truncated subtraction is
    that maximum). *)
Definition blurLevel (s : State) : nat := 24 - attempts s * 8.

Section Handlers.

(** [String.prototype.toLowerCase], the Unicode case mapping of the host. *)
Variable toLowerCase : jsstring → jsstring.

(** [startNewChallenge] up to its [await]: the round is reset and the
    spinner shown.  ([selectedDifficulty] is one of the three tiers, so the
    guard [if (!selectedDifficulty) return] never fires.) *)
Definition startNewChallenge_request (selectedDifficulty : Difficulty) (s : State) : State :=
  setHintsUsed (λ _, 0)
    (setRevealedIndices ∅
      (setAttempts (λ _, 0)
        (setUserGuess []
          (setGameState loading
            (setDifficulty (Some selectedDifficulty) s))))).

(** [startNewChallenge] from the [await] on: the [try] continues with the
    challenge, the [catch] handles a rejected call. *)
Definition startNewChallenge_settle (challenge : Promise Challenge) (s : State)
    : Completion (State * list Effect) :=
  match challenge with
  | Fulfilled c =>
      Completes (setGameState playing
                   (setCorrectWord (challenge_word c)
                     (setImageUrl (Some (challenge_imageUrl c)) s)), [])
  | Rejected _ =>
      Completes (setGameState idle s, [Toast "Falha ao carregar desafio"])
  end.

(** The whole of [startNewChallenge], given what [generateChallenge] does. *)
Definition startNewChallenge (selectedDifficulty : Difficulty)
    (challenge : Promise Challenge) (s : State) : Completion (State * list Effect) :=
  startNewChallenge_settle challenge (startNewChallenge_request selectedDifficulty s).

(** [handleGuessSubmit].  [attempts] in the test [attempts >= 2] is the value
    of the render the handler belongs to, not the one [setAttempts] has just
    scheduled. *)
Definition handleGuessSubmit (s : State) : State * list Effect :=
  if falsy (trim (userGuess s)) then (s, [])
  else
    let isCorrect :=
      strictEq (toLowerCase (trim (userGuess s))) (toLowerCase (correctWord s)) in
    if isCorrect then
      (setGameState correct s, [CompleteActivity; PlaySound "Correct, great job!"])
    else
      let s1 := setAttempts (λ prev, prev + 1) s in
      if 2 <=? attempts s then
        (setGameState lost s1,
         [Toast "Não foi dessa vez!"; PlaySound "Not quite, try another one!";
          Toast "Essa foi difícil!"])
      else (s1, [Toast "Não foi dessa vez!"]).

(** The positions [handleHint] may still reveal:
    [Array.from(Array(correctWord.length).keys())
       .filter(i => !revealedIndices.has(i) && correctWord[i] !== ' ')]. *)
Definition unrevealedPositions (s : State) : list nat :=
  filter (λ i, (i ∉ revealedIndices s) ∧ (correctWord s !! i ≠ Some SPACE))
         (seq 0 (length (correctWord s))).

(** [Math.max(1, Math.floor(n * 0.25))]; a quarter of an integer is exact in
    floating point, so the floor is the integer quotient. *)
Definition revealCount (n : nat) : nat := 1 `max` (n / 4).

(** The [for] loop of [handleHint].  [random] is the source of randomness:
    [Math.floor(Math.random() * unrevealed.length)] is some index below
    [unrevealed.length], here the next value of [random] reduced modulo that
    length, so that every sequence of draws the loop can see is covered.
    [unrevealed.splice(randomIndex, 1)[0]] removes and returns the entry at
    [randomIndex]. *)
Fixpoint revealLoop (count : nat) (random : nat → nat) (unrevealed : list nat)
    (indicesToReveal : gset nat) : gset nat :=
  match count with
  | 0 => indicesToReveal
  | S count' =>
      match unrevealed with
      | [] => indicesToReveal
      | _ :: _ =>
          let randomIndex := (random 0) `mod` (length unrevealed) in
          match unrevealed !! randomIndex with
          | Some selectedIndex =>
              revealLoop count' (λ k, random (S k)) (delete randomIndex unrevealed)
                         ({[selectedIndex]} ∪ indicesToReveal)
          | None =>
              revealLoop count' (λ k, random (S k)) unrevealed indicesToReveal
          end
      end
  end.

(** [handleHint] *)
Definition handleHint (random : nat → nat) (s : State) : State * list Effect :=
  let unrevealed := unrevealedPositions s in
  if bool_decide (length unrevealed = 0) then (s, [])
  else
    let s1 := setHintsUsed (λ prev, prev + 1) s in
    let indicesToReveal :=
      revealLoop (revealCount (length unrevealed)) random unrevealed (revealedIndices s) in
    (setRevealedIndices indicesToReveal s1, [Toast "Dica Desbloqueada!"]).

(** *** What the component renders *)

(** [renderContent]: the screen shown for a [gameState]. *)
Inductive Screen : Type := InitialState | Loader | PlayingState | GameTerminalState.

Definition renderContent (s : State) : Screen :=
  match gameState s with
  | loading => Loader
  | playing => PlayingState
  | correct | lost => GameTerminalState
  | idle => InitialState
  end.

#[global] Instance Screen_eq_dec : EqDecision Screen.
Proof. solve_decision. Defined.

(** The [disabled] attributes of [renderPlayingState]: the guess input
    ([gameState !== 'playing']), the submit button ([!userGuess]) and the hint
    button ([revealedIndices.size >= correctWord.replace(/ /g, '').length]). *)
Definition guessInputDisabled (s : State) : bool :=
  negb (bool_decide (gameState s = playing)).

Definition submitButtonDisabled (s : State) : bool := falsy (userGuess s).

Definition hintButtonDisabled (s : State) : bool :=
  bool_decide (length (filter (λ c, c ≠ SPACE) (correctWord s)) ≤ size (revealedIndices s)).

(** What can happen to the mounted component: a click on one of the three
    difficulty buttons, the pending [generateChallenge] call settling, typing
    into the guess input, submitting the form, a click on the hint button
    (with the randomness that call will draw), a click on "Jogar Novamente". *)
Inductive Event : Type :=
  | ClickDifficulty (d : Difficulty)
  | ChallengeSettles (challenge : Promise Challenge)
  | ChangeGuess (value : jsstring)
  | SubmitForm
  | ClickHint (random : nat → nat)
  | ClickPlayAgain.

(** One event on the rendered component.  A control that is not on the
    screen, or is disabled, receives no event: the state stays as it is.  A
    form whose submit button is disabled is not submitted. *)
Definition dispatch (s : State) (e : Event) : State * list Effect :=
  match e, renderContent s with
  | ClickDifficulty d, InitialState => (startNewChallenge_request d s, [])
  | ChallengeSettles challenge, Loader => result (startNewChallenge_settle challenge s)
  | ChangeGuess value, PlayingState =>
      if guessInputDisabled s then (s, []) else (setUserGuess value s, [])
  | SubmitForm, PlayingState =>
      if submitButtonDisabled s then (s, []) else handleGuessSubmit s
  | ClickHint random, PlayingState =>
      if hintButtonDisabled s then (s, []) else handleHint random s
  | ClickPlayAgain, GameTerminalState =>
      match difficulty s with
      | Some d => (startNewChallenge_request d s, [])
      | None => (s, [])
      end
  | _, _ => (s, [])
  end.

(** The state after a sequence of events. *)
Definition run (s : State) (es : list Event) : State :=
  foldl (λ s e, (dispatch s e).1) s es.

(** *** The operations of the specification *)

(** [start(word, difficulty)]: choose the difficulty, then the content source
    answers. *)
Definition start (d : Difficulty) (challenge : Promise Challenge) (s : State) : State :=
  run s [ClickDifficulty d; ChallengeSettles challenge].

(** [submitGuess(guess)]: type the guess, then submit the form. *)
Definition submitGuess (guess : jsstring) (s : State) : State * list Effect :=
  dispatch (dispatch s (ChangeGuess guess)).1 SubmitForm.

(** Guesses submitted one after the other. *)
Definition submitGuesses (guesses : list jsstring) (s : State) : State :=
  foldl (λ s guess, (submitGuess guess s).1) s guesses.

(** [requestHint()]: click the hint button. *)
Definition requestHint (random : nat → nat) (s : State) : State * list Effect :=
  dispatch s (ClickHint random).

(** A guess the round accepts as the word: not empty once trimmed, and equal
    to the word after lower-casing both. *)
Definition isCorrectGuess (word guess : jsstring) : bool :=
  negb (falsy (trim guess))
  && strictEq (toLowerCase (trim guess)) (toLowerCase word).

(** A guess the round counts as wrong: not empty once trimmed, and different
    from the word after lower-casing both. *)
Definition isIncorrectGuess (word guess : jsstring) : bool :=
  negb (falsy (trim guess))
  && negb (strictEq (toLowerCase (trim guess)) (toLowerCase word)).

(** The relation of the specification between a word and a guess, "equal to
    the word up to white space around the guess and up to the case of either
    side": the guess is white space, then the word in some casing, then
    white space.  It does not look at how the handler compares. *)
Definition equalUpToSpaceAndCase (word guess : jsstring) : Prop :=
  ∃ before g after,
    guess = before ++ g ++ after
    ∧ Forall (λ c, isWhiteSpace c = true) before
    ∧ Forall (λ c, isWhiteSpace c = true) after
    ∧ toLowerCase g = toLowerCase word.

End Handlers.

(** *** Vocabulary of the properties *)

(** While the spinner shows no attempt is counted; a round that is being
    played or was won has attempts left; a lost round has used them all. *)
Definition attemptsInv (s : State) : Prop :=
  match gameState s with
  | idle => True
  | loading => attempts s = 0
  | playing | correct => attempts s < maxAttempts
  | lost => attempts s = maxAttempts
  end.

(** The positions of a word that hold no space. *)
Definition nonSpacePositions (w : jsstring) : list nat :=
  filter (λ i, w !! i ≠ Some SPACE) (seq 0 (length w)).

(** Only positions of the word that hold no space are revealed, and none
    while a challenge is loading. *)
Definition revealedInv (s : State) : Prop :=
  (∀ i, i ∈ revealedIndices s → i ∈ nonSpacePositions (correctWord s))
  ∧ (gameState s = loading → revealedIndices s = ∅).

(** Every position of the word that holds no space is revealed. *)
Definition allRevealed (s : State) : Prop :=
  ∀ i, i < length (correctWord s) → correctWord s !! i ≠ Some SPACE →
       i ∈ revealedIndices s.

(** The state after a sequence of calls of [handleHint], one source of
    randomness per call. *)
Definition hints (randoms : list (nat → nat)) (s : State) : State :=
  foldl (λ s random, (handleHint random s).1) s randoms.

(** [ceil(n * 0.25)], the number of positions the specification has a hint
    reveal. *)
Definition ceilQuarter (n : nat) : nat := (n + 3) / 4.

(** A round for the word "dragon", as [start] leaves it. *)
Definition dragonRound : State :=
  start asciiToLowerCase Easy
    (Fulfilled (mkChallenge (js "https://example.test/dragon.png") (js "dragon")))
    initialState.

(** A round for a word with a space in it. *)
Definition iceCreamRound : State :=
  mkState playing None (js "ice cream") [] (Some Medium) 0 ∅ 0.

End Blurry.

(** ** The memory game ([memory-game/page.tsx]) *)

Module Memory.

Inductive CardType : Type := word | image.

Record GameCard : Type := mkGameCard {
  id : nat;
  type : CardType;
  content : jsstring;
  pairId : jsstring;
  isFlipped : bool;
  isMatched : bool
}.

#[global] Instance CardType_eq_dec : EqDecision CardType.
Proof. solve_decision. Defined.

#[global] Instance GameCard_eq_dec : EqDecision GameCard.
Proof. solve_decision. Defined.

(** An entry of what [generateMemoryGameCards] resolves to. *)
Record FetchedCard : Type := mkFetchedCard {
  fetched_word : jsstring;
  fetched_imageUrl : jsstring
}.

#[global] Instance FetchedCard_eq_dec : EqDecision FetchedCard.
Proof. solve_decision. Defined.

Inductive GameState : Type := loading | playing | won.

#[global] Instance GameState_eq_dec : EqDecision GameState.
Proof. solve_decision. Defined.

(** The [useState] cells of [MemoryGamePage]. *)
Record State : Type := mkState {
  cards : list GameCard;
  flippedCards : list nat;
  gameState : GameState;
  isChecking : bool
}.

#[global] Instance State_eq_dec : EqDecision State.
Proof. solve_decision. Defined.

Definition initialState : State := mkState [] [] loading false.

Definition setCards (f : list GameCard → list GameCard) (s : State) : State :=
  mkState (f (cards s)) (flippedCards s) (gameState s) (isChecking s).

Definition setFlippedCards (f : list nat → list nat) (s : State) : State :=
  mkState (cards s) (f (flippedCards s)) (gameState s) (isChecking s).

Definition setGameState (v : GameState) (s : State) : State :=
  mkState (cards s) (flippedCards s) v (isChecking s).

Definition setIsChecking (v : bool) (s : State) : State :=
  mkState (cards s) (flippedCards s) (gameState s) v.

(** [{ ...c, isFlipped: v }] and [{ ...c, isMatched: true }] *)
Definition withFlipped (v : bool) (c : GameCard) : GameCard :=
  mkGameCard (id c) (type c) (content c) (pairId c) v (isMatched c).

Definition withMatched (c : GameCard) : GameCard :=
  mkGameCard (id c) (type c) (content c) (pairId c) (isFlipped c) true.

(** [shuffleArray]: [[...array].sort(() => Math.random() - 0.5)].  The
    comparator ignores its arguments, so which arrangement comes out depends
    on the engine's sorting algorithm and on the draws; what is fixed is that
    the copy is rearranged, nothing added or dropped.  The model lets the
    source of randomness choose the arrangement: the next entry is the one at
    the drawn position among those not yet placed. *)
Fixpoint arrange {T : Type} (n : nat) (random : nat → nat) (array : list T) : list T :=
  match n with
  | 0 => []
  | S n' =>
      let k := (random 0) `mod` (length array) in
      match array !! k with
      | Some x => x :: arrange n' (λ i, random (S i)) (delete k array)
      | None => []
      end
  end.

Definition shuffleArray {T : Type} (random : nat → nat) (array : list T) : list T :=
  arrange (length array) random array.

(** The [forEach] of [startNewGame]: two cards are pushed per fetched pair,
    [index] counting the pairs. *)
Fixpoint pushCards (index : nat) (fetchedCards : list FetchedCard) : list GameCard :=
  match fetchedCards with
  | [] => []
  | card :: rest =>
      let pairId := fetched_word card in
      mkGameCard (index * 2) word (fetched_word card) pairId false false
      :: mkGameCard (index * 2 + 1) image (fetched_imageUrl card) pairId false false
      :: pushCards (S index) rest
  end.

(** [startNewGame] up to its [await]. *)
Definition startNewGame_request (s : State) : State :=
  setFlippedCards (λ _, []) (setGameState loading s).

(** [startNewGame] from the [await] on.  The [catch] falls back to
    ['playing'] ("Fallback to avoid being stuck in loading"). *)
Definition startNewGame_settle (fetched : Promise (list FetchedCard)) (random : nat → nat)
    (s : State) : Completion (State * list Effect) :=
  match fetched with
  | Fulfilled fetchedCards =>
      let gameCards := pushCards 0 fetchedCards in
      Completes (setGameState playing (setCards (λ _, shuffleArray random gameCards) s), [])
  | Rejected _ =>
      Completes (setGameState playing s, [Toast "Erro"])
  end.

Definition startNewGame (fetched : Promise (list FetchedCard)) (random : nat → nat)
    (s : State) : Completion (State * list Effect) :=
  startNewGame_settle fetched random (startNewGame_request s).

(** [cards.find(c => c.id === cardId)?.isFlipped], as the condition of an
    [if]: [undefined] (no such card) counts as false. *)
Definition foundFlipped (cardId : nat) (s : State) : bool :=
  match find (λ c, id c =? cardId) (cards s) with
  | Some c => isFlipped c
  | None => false
  end.

(** [handleCardClick] *)
Definition handleCardClick (cardId : nat) (s : State) : State :=
  if isChecking s || bool_decide (length (flippedCards s) = 2) || foundFlipped cardId s
  then s
  else
    let newCards := (λ c, if id c =? cardId then withFlipped true c else c) <$> cards s in
    setFlippedCards (λ prev, prev ++ [cardId]) (setCards (λ _, newCards) s).

(** [flippedCards.includes(c.id)] *)
Definition includes (ids : list nat) (x : nat) : bool := bool_decide (x ∈ ids).

(** How a call of [checkMatch] proceeds: it runs to its end; or it reaches
    [await new Promise(resolve => setTimeout(resolve, 1200))] and waits there,
    holding on to the [flippedCards] it closed over; or reading [.pairId] of
    [undefined] raises a [TypeError], which rejects the promise of the call. *)
Inductive Progress : Type :=
  | Finished (s : State) (fx : list Effect)
  | Sleeps (s : State) (closure : list nat)
  | Raises (s : State).

(** [checkMatch] up to its [await].  [[firstCard, secondCard] = cards.filter(...)]
    takes the first two cards whose id is selected, in the order of [cards];
    either is [undefined] when the filter finds fewer. *)
Definition checkMatch (s : State) : Progress :=
  if negb (bool_decide (length (flippedCards s) = 2)) then Finished s []
  else
    let s1 := setIsChecking true s in
    match filter (λ c, includes (flippedCards s) (id c) = true) (cards s) with
    | firstCard :: secondCard :: _ =>
        if strictEq (pairId firstCard) (pairId secondCard) then
          Finished
            (setIsChecking false
              (setFlippedCards (λ _, [])
                (setCards (fmap (λ c, if includes (flippedCards s) (id c)
                                      then withMatched c else c)) s1)))
            [PlaySound "Match!"]
        else Sleeps s1 (flippedCards s)
    | _ => Raises s1
    end.

(** [checkMatch] after the delay: the "not a match" branch and the final
    [setIsChecking(false)]. *)
Definition checkMatch_afterDelay (closure : list nat) (s : State) : State :=
  setIsChecking false
    (setFlippedCards (λ _, [])
      (setCards (fmap (λ c, if includes closure (id c) then withFlipped false c else c)) s)).

(** [allMatched = cards.length > 0 && cards.every(c => c.isMatched)] *)
Definition allMatched (s : State) : bool :=
  bool_decide (0 < length (cards s)) && forallb isMatched (cards s).

(** *** The mounted component *)

(** The component state together with what the runtime holds for it: the
    calls of [checkMatch] waiting for their timer, whether a rejection went
    unhandled, and the effects fired so far. *)
Record World : Type := mkWorld {
  ui : State;
  timers : list (list nat);
  unhandledRejection : bool;
  fired : list Effect
}.

(** The component is mounted in ['loading'], and its mount effect has called
    [startNewGame]. *)
Definition initialWorld : World := mkWorld (startNewGame_request initialState) [] false [].

(** [useEffect(() => { if (flippedCards.length === 2) checkMatch() },
    [flippedCards, checkMatch])]: runs after a render in which [flippedCards]
    or [checkMatch] changed.  [checkMatch] is rebuilt when [flippedCards],
    [cards] or [handlePlaySound] changes, and [handlePlaySound] when [toast]
    does, which the toast hook keeps the same from render to render. *)
Definition effect_checkMatch (prev next : State) : Progress :=
  if bool_decide (flippedCards prev = flippedCards next ∧ cards prev = cards next)
  then Finished next []
  else if bool_decide (length (flippedCards next) = 2) then checkMatch next
  else Finished next [].

(** [useEffect(() => { completeGame() }, [allMatched])]: runs after a render
    in which [allMatched] changed. *)
Definition effect_completeGame (prev next : State) : State * list Effect :=
  if bool_decide (allMatched prev = allMatched next) then (next, [])
  else if allMatched next then (setGameState won next, [CompleteActivity])
  else (next, []).

(** The effects after a handler took the rendered state [prev] to [next]. *)
Definition afterRender (prev next : State) (w : World) : World :=
  match effect_checkMatch prev next with
  | Finished s fx =>
      let '(s', fx') := effect_completeGame prev s in
      mkWorld s' (timers w) (unhandledRejection w) (fired w ++ fx ++ fx')
  | Sleeps s closure =>
      mkWorld s (timers w ++ [closure]) (unhandledRejection w) (fired w)
  | Raises s =>
      mkWorld s (timers w) true (fired w)
  end.

(** What can happen to the mounted component: a click on the card rendered
    for [cardId], the timer of a waiting [checkMatch] firing, the pending
    [generateMemoryGameCards] call settling (with the randomness the shuffle
    will draw), a click on "Jogar Novamente". *)
Inductive Event : Type :=
  | ClickCard (cardId : nat)
  | TimeoutElapses
  | CardsSettle (fetched : Promise (list FetchedCard)) (random : nat → nat)
  | ClickPlayAgain.

(** One event on the rendered component.  The grid is rendered when
    [gameState] is neither ['loading'] nor ['won'], with one clickable cell
    per card of [cards]; the "Jogar Novamente" button is rendered in ['won'];
    in ['loading'] there is only the spinner. *)
Definition dispatch (w : World) (e : Event) : World :=
  let s := ui w in
  match e, gameState s with
  | ClickCard cardId, playing =>
      if bool_decide (cardId ∈ id <$> cards s)
      then afterRender s (handleCardClick cardId s) w
      else w
  | TimeoutElapses, _ =>
      match timers w with
      | closure :: rest =>
          afterRender s (checkMatch_afterDelay closure s)
                      (mkWorld s rest (unhandledRejection w) (fired w))
      | [] => w
      end
  | CardsSettle fetched random, loading =>
      let '(s', fx) := result (startNewGame_settle fetched random s) in
      afterRender s s' (mkWorld s (timers w) (unhandledRejection w) (fired w ++ fx))
  | ClickPlayAgain, won =>
      afterRender s (startNewGame_request s) w
  | _, _ => w
  end.

Definition run (w : World) (es : list Event) : World := foldl dispatch w es.

(** *** Vocabulary of the properties *)

(** Every matched card is face up. *)
Definition matchedAreFlipped (s : State) : Prop :=
  ∀ c, c ∈ cards s → isMatched c = true → isFlipped c = true.

(** What holds of the board in every state the game goes through: cards
    are told apart by their ids, matched cards are face up, and the selected
    ids are at most two distinct ids of cards that are face up and not yet
    matched. *)
Record wellFormed (s : State) : Prop := mkWellFormed {
  wf_ids : NoDup (id <$> cards s);
  wf_matched : matchedAreFlipped s;
  wf_selected_NoDup : NoDup (flippedCards s);
  wf_selected : ∀ i, i ∈ flippedCards s →
      ∃ c, c ∈ cards s ∧ id c = i ∧ isFlipped c = true ∧ isMatched c = false;
  wf_at_most_two : length (flippedCards s) ≤ 2
}.

(** What holds of the component and its pending timers in every state it
    goes through: the board is well formed; no call of [checkMatch] was
    rejected; a timer is pending exactly while [isChecking] is set, for the
    two cards then selected; otherwise at most one card is selected; and
    outside ['playing'] none is. *)
Record consistent (w : World) : Prop := mkConsistent {
  c_wellFormed : wellFormed (ui w);
  c_no_rejection : unhandledRejection w = false;
  c_timers : timers w = if isChecking (ui w) then [flippedCards (ui w)] else [];
  c_checking : isChecking (ui w) = true →
               length (flippedCards (ui w)) = 2 ∧ gameState (ui w) = playing;
  c_settled : isChecking (ui w) = false → length (flippedCards (ui w)) ≤ 1;
  c_cleared : gameState (ui w) ≠ playing → flippedCards (ui w) = []
}.

(** The board after the "match" branch. *)
Definition matchedBoard (s : State) : State :=
  mkState ((λ c, if includes (flippedCards s) (id c) then withMatched c else c)
             <$> cards s)
          [] (gameState s) false.

(** Two pairs, dealt in the order they were fetched: ids 0 and 1 for "cat",
    2 and 3 for "dog". *)
Definition catDogDeal : Event :=
  CardsSettle (Fulfilled [mkFetchedCard (js "cat") (js "cat.png");
                          mkFetchedCard (js "dog") (js "dog.png")]) (λ _, 0).

End Memory.

(** ** More of the blurry-image page *)

Module BlurryRound.
Import Blurry.

(** What holds of a round in every state the page goes through: the
    attempts counted for each status, a difficulty chosen once the first
    screen is left, no more hints counted than letters revealed, and only
    letters revealed. *)
Record roundInv (s : State) : Prop := mkRoundInv {
  ri_attempts :
    match gameState s with
    | idle | loading => attempts s = 0
    | playing | correct => attempts s < maxAttempts
    | lost => attempts s = maxAttempts
    end;
  ri_difficulty : gameState s ≠ idle → is_Some (difficulty s);
  ri_hints : hintsUsed s ≤ size (revealedIndices s);
  ri_revealed : revealedInv s
}.

(** How many letters [handleHint] could still reveal. *)
Definition remaining (s : State) : nat := length (unrevealedPositions s).

(** The fresh round [startNewChallenge] sets up once the challenge arrived. *)
Definition freshRound (d : Difficulty) (c : Challenge) : State :=
  mkState playing (Some (challenge_imageUrl c)) (challenge_word c) [] (Some d) 0 ∅ 0.

(** A round for "dragon" that three wrong guesses lost. *)
Definition dragonLostRun : list Event :=
  [ClickDifficulty Easy;
   ChallengeSettles (Fulfilled (mkChallenge (js "u") (js "dragon")));
   ChangeGuess (js "bird"); SubmitForm; SubmitForm; SubmitForm].

Definition dragonLost : State := run asciiToLowerCase initialState dragonLostRun.

(** The changes of screen the page makes: from the difficulty picker to the
    spinner; from the spinner to the round or back to the picker; from the
    round to its end; from the end to the spinner. *)
Definition screenStep (a b : Screen) : bool :=
  match a, b with
  | InitialState, Loader
  | Loader, PlayingState
  | Loader, InitialState
  | PlayingState, GameTerminalState
  | GameTerminalState, Loader => true
  | _, _ => false
  end.

(** ASCII upper-casing, the restriction of [String.prototype.toUpperCase]
    to Basic Latin: used to instantiate the case mapping in examples. *)
Definition asciiUpperUnit (c : N) : N :=
  if ((97 <=? c)%N && (c <=? 122)%N) then (c - 32)%N else c.

Definition asciiToUpperCase (s : jsstring) : jsstring := map asciiUpperUnit s.

(** The texts of the cells of the row of hint letters that are not taken
    from the word: ['\u00A0'] and ['_']. *)
Definition NBSP : jsstring := [160%N].
Definition UNDERSCORE : jsstring := [95%N].

(** [correctWord.split('').map((char, index) => char === ' ' ? '\u00A0' :
    revealedIndices.has(index) ? char.toUpperCase() : '_')] of
    [renderPlayingState]: the text of each cell.  [split('')] cuts the word
    into its code units. *)
Definition hintLetters (toUpperCase : jsstring → jsstring) (s : State) : list jsstring :=
  imap (λ index char,
          if bool_decide (char = SPACE) then NBSP
          else if bool_decide (index ∈ revealedIndices s) then toUpperCase [char]
          else UNDERSCORE)
       (correctWord s).

(** A round for the word "a_b" in which three hints were taken. *)
Definition underscoreRun : list Event :=
  [ClickDifficulty Easy;
   ChallengeSettles (Fulfilled (mkChallenge (js "u") (js "a_b")));
   ClickHint (λ _, 0); ClickHint (λ _, 0); ClickHint (λ _, 0)].

End BlurryRound.

(** ** More of the memory-game page *)

Module MemoryBoard.
Import Memory.

(** What a card is, apart from its two flags. *)
Definition face (c : GameCard) : nat * CardType * jsstring * jsstring :=
  (id c, type c, content c, pairId c).

(** A card that is face up is matched or selected. *)
Definition faceUpAccounted (s : State) : Prop :=
  ∀ c, c ∈ cards s → isFlipped c = true → isMatched c = true ∨ id c ∈ flippedCards s.

(** A game that shows the trophy has every card matched. *)
Definition wonWhenAllMatched (s : State) : Prop :=
  gameState s = won → allMatched s = true.

(** What holds of the component in every state it goes through, besides
    [consistent]. *)
Record settled (w : World) : Prop := mkSettled {
  st_consistent : consistent w;
  st_faceUp : faceUpAccounted (ui w);
  st_won : wonWhenAllMatched (ui w)
}.

(** A change of cards that touches flags only, and never takes [isMatched]
    back. *)
Definition flagsOnly (g : GameCard → GameCard) : Prop :=
  ∀ c, face (g c) = face c ∧ (isMatched c = true → isMatched (g c) = true).

(** The board after the cards with ids [i] and [j] were found to be a
    pair. *)
Definition withPair (i j : nat) (cs : list GameCard) : list GameCard :=
  (λ c, if bool_decide (id c = i ∨ id c = j)
        then withMatched (withFlipped true c) else c) <$> cs.

(** The board while the cards with ids [i] and [j] are shown. *)
Definition withShown (i j : nat) (cs : list GameCard) : list GameCard :=
  (λ c, if bool_decide (id c = i ∨ id c = j) then withFlipped true c else c) <$> cs.

(** An event that is not the arrival of a new deal. *)
Definition keepsDeal (e : Event) : bool :=
  match e with
  | CardsSettle (Fulfilled _) _ => false
  | _ => true
  end.

(** A whole game on [catDogDeal], and the same game followed by a replay
    whose fetch fails. *)
Definition catDogWonRun : list Event :=
  [catDogDeal; ClickCard 0; ClickCard 1; ClickCard 3; ClickCard 2].

Definition failedReplayRun : list Event :=
  catDogWonRun ++ [ClickPlayAgain; CardsSettle (Rejected (js "offline")) (λ _, 0)].

(** Two different cards that lie face down on a board in play where
    nothing is selected. *)
Record faceDownPair (s : State) (a b : GameCard) : Prop := mkFaceDownPair {
  fd_playing : gameState s = playing;
  fd_none : flippedCards s = [];
  fd_first : a ∈ cards s;
  fd_second : b ∈ cards s;
  fd_distinct : id a ≠ id b;
  fd_first_down : isFlipped a = false;
  fd_second_down : isFlipped b = false
}.

(** What [handleCardClick] does to a card when [cardId] is clicked. *)
Definition turnedUp (cardId : nat) (c : GameCard) : GameCard :=
  if id c =? cardId then withFlipped true c else c.

(** The state after the card with id [i] was clicked on a board without a
    selection, and after the card with id [j] was clicked next. *)
Definition oneShown (i : nat) (s : State) : State :=
  mkState (turnedUp i <$> cards s) [i] playing false.

Definition twoShown (i j : nat) (s : State) : State :=
  mkState (turnedUp j <$> (turnedUp i <$> cards s)) [i; j] playing false.

(** The cat word card and the dog image card of [catDogDeal], and its two
    cat cards, as dealt. *)
Definition catWord : GameCard := mkGameCard 0 word (js "cat") (js "cat") false false.
Definition catImage : GameCard := mkGameCard 1 image (js "cat.png") (js "cat") false false.
Definition dogImage : GameCard := mkGameCard 3 image (js "dog.png") (js "dog") false false.

(** Clicking the pairs of a deal one after the other, word card first:
    the cards with ids 0 and 1, then 2 and 3, and so on for [n] pairs. *)
Fixpoint winningClicks (n : nat) : list Event :=
  match n with
  | 0 => []
  | S k => winningClicks k ++ [ClickCard (k * 2); ClickCard (k * 2 + 1)]
  end.

(** A card of a board on which the first [k] pairs have been found. *)
Definition found (k : nat) (c : GameCard) : GameCard :=
  if id c <? k * 2 then withMatched (withFlipped true c) else c.

End MemoryBoard.

(** ** Server actions ([actions.ts]) *)

Module Actions.

(** An [async] function with at most one [await] of an external
    collaborator: it returns without calling it, or calls it with [input]
    and goes on from the outcome.  The actions catch whatever the call
    throws, so what they go on to is their result. *)
Inductive Async (I O A : Type) : Type :=
  | Returns (a : A)
  | Awaits (input : I) (resume : Promise O → A).
Arguments Returns {I O A} a.
Arguments Awaits {I O A} input resume.

(** The result once the awaited call, if any, has settled as [outcome]. *)
Definition settle {I O A : Type} (outcome : Promise O) (f : Async I O A) : A :=
  match f with
  | Returns a => a
  | Awaits _ resume => resume outcome
  end.

(** The calls made to the collaborator. *)
Definition calls {I O A : Type} (f : Async I O A) : list I :=
  match f with
  | Returns _ => []
  | Awaits input _ => [input]
  end.

(** What a caller finds in a field of the object an AI flow resolved to:
    [None] stands for [undefined] and [null].  [missing v] is [!v] for a
    string field, [absent v] is [!v] for an array field (an array is truthy,
    also when empty). *)
Definition missing (v : option jsstring) : bool :=
  match v with
  | Some s => falsy s
  | None => true
  end.

Definition absent {A : Type} (v : option A) : bool :=
  match v with
  | Some _ => false
  | None => true
  end.

(** *** [translateText] *)

Record TranslateInput : Type := mkTranslateInput {
  ti_text : jsstring;
  ti_context : jsstring
}.

Record RawTranslateOutput : Type := mkRawTranslateOutput {
  raw_translation : option jsstring;
  raw_explanation : option jsstring;
  raw_synonyms : option (list jsstring)
}.

Record TranslateState : Type := mkTranslateState {
  translation : jsstring;
  explanation : jsstring;
  synonyms : list jsstring;
  translate_error : option string
}.

Definition translateFailed : TranslateState :=
  mkTranslateState [] [] []
    (Some "Não foi possível traduzir a palavra. Por favor, tente novamente mais tarde.").

(** The flow resolves to [result], itself [None] when it resolved to
    nothing. *)
Definition translateText (textToTranslate context : jsstring)
    : Async TranslateInput (option RawTranslateOutput) TranslateState :=
  if falsy textToTranslate || falsy context
  then Returns (mkTranslateState [] [] [] (Some "Texto ou contexto inválido."))
  else
    Awaits (mkTranslateInput textToTranslate context) (λ outcome,
      match outcome with
      | Fulfilled (Some result) =>
          if missing (raw_translation result) || missing (raw_explanation result)
             || absent (raw_synonyms result)
          then translateFailed
          else mkTranslateState (default [] (raw_translation result))
                                (default [] (raw_explanation result))
                                (default [] (raw_synonyms result)) None
      | Fulfilled None => translateFailed
      | Rejected _ => translateFailed
      end).

(** *** [speakText] *)

Record TextToSpeechInput : Type := mkTextToSpeechInput { tts_text : jsstring }.

Record RawSpeech : Type := mkRawSpeech { raw_audioData : option jsstring }.

Record SpeakState : Type := mkSpeakState {
  audioData : option jsstring;
  speak_error : option string
}.

Definition speakFailed : SpeakState :=
  mkSpeakState None (Some "Não foi possível gerar o áudio. Por favor, tente novamente.").

(** [z.string().min(1)] accepts a string of at least one code unit.  Reading
    [result.audioData] of a flow that resolved to nothing throws inside the
    [try]. *)
Definition speakText (textToSpeak : jsstring)
    : Async TextToSpeechInput (option RawSpeech) SpeakState :=
  if bool_decide (1 ≤ length textToSpeak)
  then
    Awaits (mkTextToSpeechInput textToSpeak) (λ outcome,
      match outcome with
      | Fulfilled (Some result) => mkSpeakState (raw_audioData result) None
      | Fulfilled None => speakFailed
      | Rejected _ => speakFailed
      end)
  else Returns (mkSpeakState None (Some "O texto não pode estar vazio.")).

(** *** [fetchDailyWord], [fetchDailySentence], [fetchNewStory] *)

(** The object the daily-word flow resolved to; the action hands it on as
    it is when it is complete. *)
Record DailyWordOutput : Type := mkDailyWordOutput {
  word : option jsstring;
  hint : option jsstring
}.

Definition pandaWord : DailyWordOutput :=
  mkDailyWordOutput (Some (js "PANDA")) (Some (js "Um urso preto e branco da China.")).

(** [cacheBuster] is [new Date().toISOString() + Math.random()], as the
    caller's clock and randomness make it. *)
Definition fetchDailyWord (cacheBuster : jsstring)
    : Async jsstring (option DailyWordOutput) DailyWordOutput :=
  Awaits cacheBuster (λ outcome,
    match outcome with
    | Fulfilled (Some result) =>
        if missing (word result) || missing (hint result) then pandaWord else result
    | Fulfilled None => pandaWord
    | Rejected _ => pandaWord
    end).

Record DailySentenceInput : Type := mkDailySentenceInput {
  ds_level : jsstring;
  ds_cacheBuster : jsstring
}.

Record DailySentenceOutput : Type := mkDailySentenceOutput {
  sentence : option jsstring
}.

Definition catSentence : DailySentenceOutput :=
  mkDailySentenceOutput (Some (js "The cat is on the table.")).

Definition fetchDailySentence (level cacheBuster : jsstring)
    : Async DailySentenceInput (option DailySentenceOutput) DailySentenceOutput :=
  Awaits (mkDailySentenceInput level cacheBuster) (λ outcome,
    match outcome with
    | Fulfilled (Some result) => if missing (sentence result) then catSentence else result
    | Fulfilled None => catSentence
    | Rejected _ => catSentence
    end).

Record StoryGeneratorOutput : Type := mkStoryGeneratorOutput {
  story_title : option jsstring;
  story_content : option jsstring;
  story_level : option jsstring;
  story_translation : option jsstring
}.

(** The fallback story; 227, 225 and 231 are the code units of the letters
    a with tilde, a with acute and c with cedilla. *)
Definition dragonStory : StoryGeneratorOutput :=
  mkStoryGeneratorOutput
    (Some (js "O Drag" ++ [227%N] ++ js "o Amig" ++ [225%N] ++ js "vel"))
    (Some (js "Once upon a time, there was a friendly dragon. He did not breathe fire. He breathed bubbles! All the children in the village loved to play in his bubbles."))
    (Some (js "A1"))
    (Some (js "Era uma vez um drag" ++ [227%N] ++ js "o amig" ++ [225%N]
           ++ js "vel. Ele n" ++ [227%N]
           ++ js "o cuspia fogo. Ele soprava bolhas! Todas as crian" ++ [231%N]
           ++ js "as da aldeia adoravam brincar em suas bolhas.")).

(** [{ ...input, cacheBuster }] is what the flow is called with, whatever
    fields [input] has. *)
Definition fetchNewStory {StoryGeneratorInput : Type} (input : StoryGeneratorInput)
    (cacheBuster : jsstring)
    : Async (StoryGeneratorInput * jsstring) (option StoryGeneratorOutput)
            StoryGeneratorOutput :=
  Awaits (input, cacheBuster) (λ outcome,
    match outcome with
    | Fulfilled (Some result) =>
        if missing (story_title result) || missing (story_content result)
           || missing (story_level result)
        then dragonStory else result
    | Fulfilled None => dragonStory
    | Rejected _ => dragonStory
    end).

(** *** [submitPlacementTest] *)

Record Answer : Type := mkAnswer {
  questionId : jsstring;
  question : jsstring;
  level : jsstring;
  isCorrect : bool;
  selectedOption : jsstring
}.

Record RawEvaluation : Type := mkRawEvaluation {
  raw_finalLevel : option jsstring;
  raw_analysis : option jsstring
}.

(** [{ success: false, error }] or [{ success: true, finalLevel, analysis }] *)
Inductive PlacementResult : Type :=
  | Failure (error : string)
  | Success (finalLevel analysis : jsstring).

Definition placementFailed : PlacementResult :=
  Failure "Não foi possível processar os resultados do seu teste.".

(** Of a submission of the declared type the schema checks that [answers]
    has at least one entry. *)
Definition submitPlacementTest (answers : list Answer)
    : Async (list Answer) (option RawEvaluation) PlacementResult :=
  if bool_decide (1 ≤ length answers)
  then
    Awaits answers (λ outcome,
      match outcome with
      | Fulfilled (Some evaluationResult) =>
          if missing (raw_finalLevel evaluationResult)
             || missing (raw_analysis evaluationResult)
          then placementFailed
          else Success (default [] (raw_finalLevel evaluationResult))
                       (default [] (raw_analysis evaluationResult))
      | Fulfilled None => placementFailed
      | Rejected _ => placementFailed
      end)
  else Returns (Failure "Dados de envio inválidos.").

End Actions.

(** ** [handlePlaySound] of the two pages *)

Module Sound.
Import Actions.

(** What playing a sound shows or does: the "Erro de Áudio" toast with its
    description, or the audio element started on [src]. *)
Inductive SoundEffect : Type :=
  | AudioErrorToast (description : string)
  | PlayAudio (src : jsstring).

(** [error] as the condition of an [if]: a string that is there and not
    empty. *)
Definition shown (error : option string) : option string :=
  match error with
  | Some EmptyString => None
  | Some e => Some e
  | None => None
  end.

(** [if (error) toast(...) else if (audioData && audioRef.current) play];
    [audioRef] tells whether the audio element is mounted. *)
Definition present (audioRef : bool) (spoken : SpeakState) : list SoundEffect :=
  match shown (speak_error spoken) with
  | Some e => [AudioErrorToast e]
  | None =>
      match audioData spoken with
      | Some src => if negb (falsy src) && audioRef then [PlayAudio src] else []
      | None => []
      end
  end.

(** [handlePlaySound] of [blurry-image/page.tsx] *)
Module BlurryImage.

(** Up to the [await]: [None] when it returns at once, else
    [isSoundPending] as it is set and the text [speakText] is called
    with. *)
Definition handlePlaySound_request (text : jsstring) (isSoundPending : bool)
    : option (bool * jsstring) :=
  if falsy text || isSoundPending then None else Some (true, text).

(** From the [await] on: [spoken] is how the call of the server action
    settled.  There is a [finally] and no [catch]: [isSoundPending] is reset
    and a rejection escapes. *)
Definition handlePlaySound_settle (audioRef : bool) (spoken : Promise SpeakState)
    : Completion (bool * list SoundEffect) :=
  match spoken with
  | Fulfilled r => Completes (false, present audioRef r)
  | Rejected _ => Throws (false, [])
  end.

(** A sound from the call of [handlePlaySound] to its end, with [speakText]
    reached and [tts] the outcome of the text-to-speech flow: [None] when
    nothing was started. *)
Definition playSound (text : jsstring) (isSoundPending audioRef : bool)
    (tts : Promise (option RawSpeech)) : option (Completion (bool * list SoundEffect)) :=
  match handlePlaySound_request text isSoundPending with
  | Some (_, t) =>
      Some (handlePlaySound_settle audioRef (Fulfilled (settle tts (speakText t))))
  | None => None
  end.

End BlurryImage.

(** [handlePlaySound] of [memory-game/page.tsx]: no [isSoundPending], and
    a rejection is caught. *)
Module MemoryGame.

Definition handlePlaySound_request (text : jsstring) : option jsstring :=
  if falsy text then None else Some text.

Definition handlePlaySound_settle (audioRef : bool) (spoken : Promise SpeakState)
    : Completion (list SoundEffect) :=
  match spoken with
  | Fulfilled r => Completes (present audioRef r)
  | Rejected _ => Completes []
  end.

Definition playSound (text : jsstring) (audioRef : bool)
    (tts : Promise (option RawSpeech)) : option (Completion (list SoundEffect)) :=
  match handlePlaySound_request text with
  | Some t =>
      Some (handlePlaySound_settle audioRef (Fulfilled (settle tts (speakText t))))
  | None => None
  end.

End MemoryGame.

End Sound.

(** * Properties of the blurry-image game *)

Module BlurryFacts.
Import Blurry.

(** ** Strings *)

Lemma trim_nil : trim [] = [].
Proof. reflexivity. Qed.

Lemma falsy_true (x : jsstring) : falsy x = true ↔ x = [].
Proof. destruct x; simpl; split; congruence. Qed.

Lemma falsy_false (x : jsstring) : falsy x = false ↔ x ≠ [].
Proof. destruct x; simpl; split; congruence. Qed.

Lemma strictEq_true (a b : jsstring) : strictEq a b = true ↔ a = b.
Proof. unfold strictEq. apply bool_decide_eq_true. Qed.

Lemma asciiToLowerCase_nil (x : jsstring) : asciiToLowerCase x = [] ↔ x = [].
Proof. destruct x; simpl; split; congruence. Qed.

(** ** White space around a string *)

Lemma trimStart_space_before (before x : jsstring) :
  Forall (λ c, isWhiteSpace c = true) before → trimStart (before ++ x) = trimStart x.
Proof. induction 1 as [|c l Hc _ IH]; [done|]. simpl. by rewrite Hc. Qed.

Lemma trimEnd_space_after (x after : jsstring) :
  Forall (λ c, isWhiteSpace c = true) after → trimEnd (x ++ after) = trimEnd x.
Proof.
  intros Hafter. unfold trimEnd. rewrite rev_app_distr.
  rewrite trimStart_space_before; [done|]. by apply List.Forall_rev.
Qed.

Lemma trim_space_after (x after : jsstring) :
  Forall (λ c, isWhiteSpace c = true) after → trim (x ++ after) = trim x.
Proof.
  intros Hafter. unfold trim. induction x as [|c x IH]; simpl.
  - rewrite <- (app_nil_r after). by rewrite trimStart_space_before.
  - destruct (isWhiteSpace c); [done|].
    rewrite app_comm_cons. by apply trimEnd_space_after.
Qed.

(** White space around a string is what [trim] takes away. *)
Lemma trim_space_around (before g after : jsstring) :
  Forall (λ c, isWhiteSpace c = true) before →
  Forall (λ c, isWhiteSpace c = true) after →
  trim (before ++ g ++ after) = trim g.
Proof.
  intros Hbefore Hafter. rewrite <- (trim_space_after g after Hafter).
  unfold trim. by rewrite trimStart_space_before.
Qed.

Lemma isWhiteSpace_letter (c : N) : (65 ≤ c ≤ 122)%N → isWhiteSpace c = false.
Proof.
  intros Hc. unfold isWhiteSpace. apply orb_false_intro.
  - apply bool_decide_eq_false_2. intros Hin.
    repeat (apply elem_of_cons in Hin as [Hin|Hin]; [lia|]).
    by apply elem_of_nil in Hin.
  - apply andb_false_intro1, N.leb_gt. lia.
Qed.

Lemma isWhiteSpace_asciiLowerUnit (c : N) :
  isWhiteSpace (asciiLowerUnit c) = isWhiteSpace c.
Proof.
  unfold asciiLowerUnit.
  destruct ((65 <=? c)%N && (c <=? 90)%N) eqn:Hupper; [|done].
  apply andb_true_iff in Hupper as [Hlo%N.leb_le Hhi%N.leb_le].
  rewrite !isWhiteSpace_letter; [done|lia|lia].
Qed.

Lemma trimStart_asciiToLowerCase (x : jsstring) :
  trimStart (asciiToLowerCase x) = asciiToLowerCase (trimStart x).
Proof.
  induction x as [|c x IH]; [done|]. simpl.
  rewrite isWhiteSpace_asciiLowerUnit. by destruct (isWhiteSpace c).
Qed.

Lemma asciiToLowerCase_rev (x : jsstring) :
  asciiToLowerCase (rev x) = rev (asciiToLowerCase x).
Proof. unfold asciiToLowerCase. by rewrite map_rev. Qed.

(** ASCII lower-casing leaves white space alone, so it can be done before
    or after trimming. *)
Lemma asciiToLowerCase_trim (x : jsstring) :
  asciiToLowerCase (trim x) = trim (asciiToLowerCase x).
Proof.
  unfold trim, trimEnd.
  by rewrite trimStart_asciiToLowerCase, <- asciiToLowerCase_rev,
    trimStart_asciiToLowerCase, <- asciiToLowerCase_rev.
Qed.

(** ** Hints *)

Lemma unrevealedPositions_spec (s : State) (i : nat) :
  i ∈ unrevealedPositions s ↔
  i < length (correctWord s) ∧ (i ∉ revealedIndices s)
  ∧ (correctWord s !! i ≠ Some SPACE).
Proof.
  unfold unrevealedPositions. rewrite list_elem_of_filter, elem_of_seq.
  split; [intros ((? & ?) & ? & ?)|intros (? & ? & ?)]; repeat split; auto; lia.
Qed.

Lemma unrevealedPositions_NoDup (s : State) : NoDup (unrevealedPositions s).
Proof. apply NoDup_filter, NoDup_seq. Qed.

(** The loop adds [min count (length unrevealed)] entries of [unrevealed],
    each once, to the set it starts from. *)
Lemma revealLoop_spec (count : nat) :
  ∀ (random : nat → nat) (unrevealed : list nat) (R : gset nat),
    NoDup unrevealed → (∀ i, i ∈ unrevealed → i ∉ R) →
    R ⊆ revealLoop count random unrevealed R
    ∧ (∀ i, i ∈ revealLoop count random unrevealed R → i ∈ R ∨ i ∈ unrevealed)
    ∧ size (revealLoop count random unrevealed R)
      = size R + count `min` length unrevealed.
Proof.
  induction count as [|count IH]; intros random unrevealed R Hnd Hfresh.
  { simpl. split; [done|]. split; [auto|lia]. }
  destruct unrevealed as [|u us].
  { simpl. split; [done|]. split; [auto|lia]. }
  cbn [revealLoop].
  set (k := random 0 `mod` length (u :: us)).
  assert (k < length (u :: us)) as Hk.
  { apply Nat.mod_upper_bound. simpl. lia. }
  destruct (lookup_lt_is_Some_2 _ _ Hk) as [x Hx]. rewrite Hx.
  pose proof (delete_Permutation _ _ _ Hx) as Hperm.
  assert (NoDup (x :: delete k (u :: us))) as [Hxd Hnd']%NoDup_cons
    by by rewrite <- Hperm.
  assert (x ∉ R) as HxR by (by apply Hfresh, list_elem_of_lookup_2 with k).
  assert (∀ i, i ∈ delete k (u :: us) → i ∈ u :: us) as Hsub.
  { intros i Hi. rewrite Hperm. by right. }
  destruct (IH (λ i, random (S i)) (delete k (u :: us)) ({[x]} ∪ R) Hnd')
    as (Hinc & Hfrom & Hsize).
  { intros i Hi. apply not_elem_of_union. split; [|by apply Hfresh, Hsub].
    intros ->%elem_of_singleton. done. }
  split; [|split].
  - intros i Hi. apply Hinc, elem_of_union. by right.
  - intros i Hi. destruct (Hfrom i Hi) as [[->%elem_of_singleton|?]%elem_of_union|?];
      [right; by apply list_elem_of_lookup_2 with k|by left|right; by apply Hsub].
  - rewrite Hsize, size_union, size_singleton.
    + rewrite length_delete by done. simpl. lia.
    + intros i ->%elem_of_singleton. done.
Qed.

Lemma revealCount_bounds (n : nat) : 1 ≤ n → 1 ≤ revealCount n ≤ n.
Proof.
  intros Hn. unfold revealCount. split; [lia|].
  assert (n / 4 ≤ n) by (apply Nat.Div0.div_le_upper_bound; lia). lia.
Qed.

(** When nothing is left to reveal, [handleHint] returns at once. *)
Lemma handleHint_nothing_left (random : nat → nat) (s : State) :
  unrevealedPositions s = [] → handleHint random s = (s, []).
Proof. intros H. unfold handleHint. by rewrite H. Qed.

(** Otherwise it counts a hint and reveals [revealCount] of the unrevealed
    positions. *)
Lemma handleHint_reveals (random : nat → nat) (s : State) :
  unrevealedPositions s ≠ [] →
  let s' := (handleHint random s).1 in
  let n := length (unrevealedPositions s) in
  hintsUsed s' = hintsUsed s + 1
  ∧ revealedIndices s ⊆ revealedIndices s'
  ∧ (∀ i, i ∈ revealedIndices s' → i ∈ revealedIndices s ∨ i ∈ unrevealedPositions s)
  ∧ size (revealedIndices s') = size (revealedIndices s) + revealCount n.
Proof.
  intros Hne s' n. subst s'. unfold handleHint.
  case_bool_decide as Hlen.
  { by apply length_zero_iff_nil in Hlen. }
  simpl. split; [done|].
  destruct (revealLoop_spec (revealCount n) random (unrevealedPositions s)
              (revealedIndices s) (unrevealedPositions_NoDup s))
    as (Hinc & Hfrom & Hsize).
  { intros i Hi. by apply unrevealedPositions_spec in Hi as (_ & ? & _). }
  split; [done|]. split; [done|].
  pose proof (revealCount_bounds n). subst n. rewrite Hsize. lia.
Qed.

(** A hint never takes anything back, whatever the state. *)
Lemma handleHint_grows (random : nat → nat) (s : State) :
  revealedIndices s ⊆ revealedIndices (handleHint random s).1.
Proof.
  destruct (decide (unrevealedPositions s = [])) as [H|H].
  - by rewrite handleHint_nothing_left.
  - by apply handleHint_reveals.
Qed.

(** What a hint adds was an unrevealed position of the word that holds no
    space. *)
Lemma handleHint_new_positions (random : nat → nat) (s : State) (i : nat) :
  i ∈ revealedIndices (handleHint random s).1 → i ∉ revealedIndices s →
  i ∈ unrevealedPositions s.
Proof.
  intros Hi Hni. destruct (decide (unrevealedPositions s = [])) as [H|H].
  - by rewrite handleHint_nothing_left in Hi.
  - apply (handleHint_reveals random) in H as (_ & _ & Hfrom & _).
    by destruct (Hfrom i Hi).
Qed.

Lemma hints_grow (randoms : list (nat → nat)) (s : State) :
  revealedIndices s ⊆ revealedIndices (hints randoms s).
Proof.
  revert s. induction randoms as [|random randoms IH]; intros s; [done|].
  simpl. etrans; [apply (handleHint_grows random)|apply IH].
Qed.

Lemma allRevealed_unrevealedPositions (s : State) :
  allRevealed s ↔ unrevealedPositions s = [].
Proof.
  split.
  - intros Hall. apply elem_of_nil_inv. intros i Hi.
    apply unrevealedPositions_spec in Hi as (Hlt & Hni & Hsp). by apply Hni, Hall.
  - intros Hnil i Hlt Hsp. destruct (decide (i ∈ revealedIndices s)) as [|Hni]; [done|].
    assert (i ∈ unrevealedPositions s) as Hi by by apply unrevealedPositions_spec.
    rewrite Hnil in Hi. by apply elem_of_nil in Hi.
Qed.

(** A hint leaves the status, the attempts and the word alone. *)
Lemma handleHint_gameState (random : nat → nat) (s : State) :
  gameState (handleHint random s).1 = gameState s
  ∧ attempts (handleHint random s).1 = attempts s
  ∧ correctWord (handleHint random s).1 = correctWord s.
Proof. unfold handleHint. by case_bool_decide. Qed.

(** ** The hint button *)

Lemma nonSpacePositions_length_aux (l : jsstring) :
  ∀ pre : jsstring,
    length (filter (λ i, (pre ++ l) !! i ≠ Some SPACE) (seq (length pre) (length l)))
    = length (filter (λ c, c ≠ SPACE) l).
Proof.
  induction l as [|c l IH]; intros pre; [done|].
  simpl. rewrite !filter_cons, list_lookup_middle by done.
  specialize (IH (pre ++ [c])).
  rewrite <- app_assoc, length_app in IH. simpl in IH.
  rewrite Nat.add_1_r in IH.
  destruct (decide (Some c ≠ Some SPACE)) as [H1|H1];
    destruct (decide (c ≠ SPACE)) as [H2|H2]; simpl; rewrite ?IH; try done.
  - exfalso. apply H1. f_equal. by destruct (decide (c = SPACE)).
  - exfalso. apply H1. intros [= ->]. done.
Qed.

(** As many as [correctWord.replace(/ /g, '').length]. *)
Lemma nonSpacePositions_length (w : jsstring) :
  length (nonSpacePositions w) = length (filter (λ c, c ≠ SPACE) w).
Proof. apply (nonSpacePositions_length_aux w []). Qed.

Lemma handleHint_revealedInv (random : nat → nat) (s : State) :
  gameState s ≠ loading → revealedInv s → revealedInv (handleHint random s).1.
Proof.
  intros Hg [Hinv _].
  destruct (handleHint_gameState random s) as (Hgs & _ & Hw).
  split; [|by rewrite Hgs].
  intros i Hi. rewrite Hw.
  destruct (decide (i ∈ revealedIndices s)) as [Hold|Hnew]; [by apply Hinv|].
  apply (handleHint_new_positions random) in Hi; [|done].
  apply unrevealedPositions_spec in Hi as (Hlt & _ & Hsp).
  apply list_elem_of_filter. split; [done|]. apply elem_of_seq. lia.
Qed.

(** With the invariant, the hint button is disabled exactly when
    [handleHint] has nothing left to reveal. *)
Lemma hintButton_enabled (s : State) :
  revealedInv s → unrevealedPositions s ≠ [] → hintButtonDisabled s = false.
Proof.
  intros [Hinv _] Hne. unfold hintButtonDisabled.
  apply bool_decide_eq_false_2, Nat.lt_nge.
  rewrite <- nonSpacePositions_length.
  rewrite <- (size_list_to_set (C:=gset nat))
    by apply NoDup_filter, NoDup_seq.
  apply subset_size, elem_of_subset. split.
  - intros i Hi. by apply elem_of_list_to_set, Hinv.
  - intros Hall. destruct (unrevealedPositions s) as [|i l] eqn:Hu; [done|].
    assert (i ∈ unrevealedPositions s) as Hi by (rewrite Hu; by left).
    apply unrevealedPositions_spec in Hi as (Hlt & Hni & Hsp).
    apply Hni, Hall, elem_of_list_to_set, list_elem_of_filter.
    split; [done|]. apply elem_of_seq. lia.
Qed.

(** C4 as stated fails on a word of five letters: the code reveals
    [max(1, floor(1.25)) = 1] position where the claim has [ceil(1.25) = 2]. *)
Lemma C4_counterexample :
  let s := mkState playing None (js "abcde") [] (Some Easy) 0 ∅ 0 in
  let s' := (handleHint (λ _, 0) s).1 in
  length (unrevealedPositions s) = 5
  ∧ size (revealedIndices s' ∖ revealedIndices s) = 1
  ∧ ceilQuarter (length (unrevealedPositions s)) = 2.
Proof. vm_compute. auto. Qed.

Section Rounds.

Variable toLowerCase : jsstring → jsstring.

Local Abbreviation handleGuessSubmit := (Blurry.handleGuessSubmit toLowerCase).
Local Abbreviation dispatch := (Blurry.dispatch toLowerCase).
Local Abbreviation run := (Blurry.run toLowerCase).
Local Abbreviation start := (Blurry.start toLowerCase).
Local Abbreviation submitGuess := (Blurry.submitGuess toLowerCase).
Local Abbreviation submitGuesses := (Blurry.submitGuesses toLowerCase).
Local Abbreviation requestHint := (Blurry.requestHint toLowerCase).
Local Abbreviation isCorrectGuess := (Blurry.isCorrectGuess toLowerCase).
Local Abbreviation isIncorrectGuess := (Blurry.isIncorrectGuess toLowerCase).

(** ** Guesses *)

(** The handler returns at once on a guess that is blank once trimmed. *)
Lemma handleGuessSubmit_blank (s : State) :
  trim (userGuess s) = [] → handleGuessSubmit s = (s, []).
Proof. intros H. unfold Blurry.handleGuessSubmit. by rewrite H. Qed.

(** Outside ['playing'] neither the input nor the form is on the screen. *)
Lemma submitGuess_not_playing (s : State) (guess : jsstring) :
  gameState s ≠ playing → submitGuess guess s = (s, []).
Proof.
  intros H. unfold Blurry.submitGuess, Blurry.dispatch, renderContent.
  destruct s as [[] ? ? ? ? ? ? ?]; simpl in *; congruence.
Qed.

(** In ['playing'] the typed guess reaches [handleGuessSubmit], unless it is
    the empty string, for which the submit button is disabled. *)
Lemma submitGuess_playing (s : State) (guess : jsstring) :
  gameState s = playing →
  submitGuess guess s =
    if falsy guess then (setUserGuess guess s, [])
    else handleGuessSubmit (setUserGuess guess s).
Proof.
  intros H. unfold Blurry.submitGuess, Blurry.dispatch, renderContent,
    guessInputDisabled, submitButtonDisabled.
  rewrite H. simpl. rewrite H. simpl. reflexivity.
Qed.

Lemma trim_not_nil (guess : jsstring) : trim guess ≠ [] → guess ≠ [].
Proof. intros H ->. by apply H. Qed.

Lemma submitGuess_correct (s : State) (guess : jsstring) :
  gameState s = playing → isCorrectGuess (correctWord s) guess = true →
  submitGuess guess s =
    (setGameState correct (setUserGuess guess s),
     [CompleteActivity; PlaySound "Correct, great job!"]).
Proof.
  intros Hp [Hne Heq]%andb_true_iff. apply negb_true_iff in Hne.
  rewrite submitGuess_playing by done.
  assert (falsy guess = false) as ->.
  { apply falsy_false, trim_not_nil. by apply falsy_false. }
  unfold Blurry.handleGuessSubmit. simpl. by rewrite Hne, Heq.
Qed.

Lemma submitGuess_incorrect (s : State) (guess : jsstring) :
  gameState s = playing → isIncorrectGuess (correctWord s) guess = true →
  submitGuess guess s =
    let s1 := setAttempts (λ prev, prev + 1) (setUserGuess guess s) in
    if 2 <=? attempts s
    then (setGameState lost s1,
          [Toast "Não foi dessa vez!"; PlaySound "Not quite, try another one!";
           Toast "Essa foi difícil!"])
    else (s1, [Toast "Não foi dessa vez!"]).
Proof.
  intros Hp [Hne Heq]%andb_true_iff.
  apply negb_true_iff in Hne. apply negb_true_iff in Heq.
  rewrite submitGuess_playing by done.
  assert (falsy guess = false) as ->.
  { apply falsy_false, trim_not_nil. by apply falsy_false. }
  unfold Blurry.handleGuessSubmit. simpl. by rewrite Hne, Heq.
Qed.

(** ** The invariant of the attempt counter *)

Lemma handleGuessSubmit_cases (s : State) :
  (handleGuessSubmit s).1 = s
  ∨ (handleGuessSubmit s).1 = setGameState correct s
  ∨ (isIncorrectGuess (correctWord s) (userGuess s) = true
     ∧ (handleGuessSubmit s).1 =
         if 2 <=? attempts s
         then setGameState lost (setAttempts (λ prev, prev + 1) s)
         else setAttempts (λ prev, prev + 1) s).
Proof.
  unfold Blurry.handleGuessSubmit, Blurry.isIncorrectGuess.
  destruct (falsy (trim (userGuess s))); [by left|].
  destruct (strictEq _ _); [by right; left|].
  right; right. split; [done|]. by destruct (2 <=? attempts s).
Qed.

Lemma attemptsInv_dispatch (s : State) (e : Event) :
  attemptsInv s → attemptsInv (dispatch s e).1.
Proof.
  unfold attemptsInv, Blurry.dispatch, renderContent, maxAttempts.
  destruct e as [d|[c|m]|v| |random| ]; destruct (gameState s) eqn:Hg;
    simpl; rewrite ?Hg; try done.
  all: intros Ha.
  - lia.
  - unfold guessInputDisabled. rewrite Hg. simpl. by rewrite Hg.
  - destruct (submitButtonDisabled s); simpl; rewrite ?Hg; [done|].
    destruct (handleGuessSubmit_cases s) as [->|[->|[_ ->]]];
      [by rewrite Hg|by simpl|].
    destruct (2 <=? attempts s) eqn:Hle; simpl; rewrite ?Hg.
    + apply Nat.leb_le in Hle. lia.
    + apply Nat.leb_gt in Hle. lia.
  - destruct (hintButtonDisabled s); simpl; rewrite ?Hg; [done|].
    destruct (handleHint_gameState random s) as (-> & -> & _). by rewrite Hg.
  - destruct (difficulty s); simpl; by rewrite ?Hg.
  - destruct (difficulty s); simpl; by rewrite ?Hg.
Qed.

Lemma attemptsInv_run (es : list Event) (s : State) :
  attemptsInv s → attemptsInv (run s es).
Proof.
  revert s. induction es as [|e es IH]; intros s Hs; [done|].
  simpl. apply IH. by apply attemptsInv_dispatch.
Qed.

(** ** Hints through the button *)

Lemma requestHint_cases (random : nat → nat) (s : State) :
  requestHint random s = (s, []) ∨ requestHint random s = handleHint random s.
Proof.
  unfold Blurry.requestHint, Blurry.dispatch.
  destruct (renderContent s); auto.
  destruct (hintButtonDisabled s); auto.
Qed.

Lemma requestHint_playing (random : nat → nat) (s : State) :
  gameState s = playing → revealedInv s → unrevealedPositions s ≠ [] →
  requestHint random s = handleHint random s.
Proof.
  intros Hp Hinv Hne. unfold Blurry.requestHint, Blurry.dispatch, renderContent.
  by rewrite Hp, hintButton_enabled.
Qed.

Lemma revealedInv_dispatch (s : State) (e : Event) :
  revealedInv s → revealedInv (dispatch s e).1.
Proof.
  intros Hinv. pose proof Hinv as [Hin Hload].
  assert (∀ s' : State, revealedIndices s' = ∅ → revealedInv s') as Hempty.
  { intros s' He. split; [|done]. intros i. rewrite He.
    intros Hi. by apply (not_elem_of_empty (C:=gset nat)) in Hi. }
  unfold Blurry.dispatch, renderContent.
  destruct e as [d|[c|m]|v| |random| ]; destruct (gameState s) eqn:Hg;
    simpl; try done.
  - apply Hempty. simpl. by apply Hload.
  - unfold guessInputDisabled. rewrite Hg. simpl. split; simpl; [done|]. by rewrite Hg.
  - destruct (submitButtonDisabled s); [done|].
    destruct (handleGuessSubmit_cases s) as [->|[->|[_ ->]]]; [done| |].
    + split; simpl; [done|done].
    + destruct (2 <=? attempts s); split; simpl; rewrite ?Hg; done.
  - destruct (hintButtonDisabled s); [done|].
    apply handleHint_revealedInv; [congruence|done].
  - destruct (difficulty s); [|done]. by apply Hempty.
  - destruct (difficulty s); [|done]. by apply Hempty.
Qed.

Lemma revealedInv_run (es : list Event) (s : State) :
  revealedInv s → revealedInv (run s es).
Proof.
  revert s. induction es as [|e es IH]; intros s Hs; [done|].
  simpl. apply IH. by apply revealedInv_dispatch.
Qed.

(** C4, as the code has it.  When at least one position of the word that
    holds no space is unrevealed, [handleHint] adds exactly
    [max(1, floor(n * 0.25))] positions to [revealedIndices], [n] being the
    number of such positions before the call; each of them was unrevealed and
    holds no space; and [hintsUsed] grows by one.  In a round that is being
    played the hint button then is enabled, so that [requestHint] is that
    call. *)
Theorem C4_hint_reveals_floor_quarter :
  (∀ (random : nat → nat) (s : State),
     let n := length (unrevealedPositions s) in
     let s' := (handleHint random s).1 in
     1 ≤ n →
     size (revealedIndices s' ∖ revealedIndices s) = 1 `max` (n / 4)
     ∧ revealedIndices s ⊆ revealedIndices s'
     ∧ (∀ i, i ∈ revealedIndices s' ∖ revealedIndices s →
             i < length (correctWord s) ∧ (i ∉ revealedIndices s)
             ∧ (correctWord s !! i ≠ Some SPACE))
     ∧ hintsUsed s' = hintsUsed s + 1)
  ∧ (∀ (es : list Event) (random : nat → nat),
       let s := run initialState es in
       gameState s = playing → 1 ≤ length (unrevealedPositions s) →
       requestHint random s = handleHint random s).
Proof.
  split.
  - intros random s n s' Hn.
    assert (unrevealedPositions s ≠ []) as Hne.
    { intros H. subst n. rewrite H in Hn. simpl in Hn. lia. }
    destruct (handleHint_reveals random s Hne) as (Hh & Hinc & Hfrom & Hsize).
    fold s' in Hh, Hinc, Hfrom, Hsize. fold n in Hsize.
    split; [|split; [done|split; [|done]]].
    + rewrite size_difference by done. rewrite Hsize. unfold revealCount. lia.
    + intros i [Hi Hni]%elem_of_difference. apply unrevealedPositions_spec.
      by destruct (Hfrom i Hi).
  - intros es random s Hp Hn. apply requestHint_playing; [done| |].
    + apply revealedInv_run. split; [|done].
      intros i Hi. by apply (not_elem_of_empty (C:=gset nat)) in Hi.
    + intros H. rewrite H in Hn. simpl in Hn. lia.
Qed.

(** C6.  What [handleHint] adds to [revealedIndices] is a position of the
    word that holds no space; over any sequence of calls [revealedIndices]
    only grows; and once every position that holds no space is revealed, a
    call changes nothing, [hintsUsed] included.  A click on the hint button
    ([requestHint]) is such a call or, when the button is disabled or not on
    the screen, nothing at all. *)
Theorem C6_hints_grow_and_skip_spaces :
  (∀ (random : nat → nat) (s : State) (i : nat),
     i ∈ revealedIndices (handleHint random s).1 → i ∉ revealedIndices s →
     i < length (correctWord s) ∧ correctWord s !! i ≠ Some SPACE)
  ∧ (∀ (randoms : list (nat → nat)) (s : State),
       revealedIndices s ⊆ revealedIndices (hints randoms s))
  ∧ (∀ (random : nat → nat) (s : State),
       allRevealed s → handleHint random s = (s, []))
  ∧ (∀ (random : nat → nat) (s : State),
       requestHint random s = (s, [])
       ∨ requestHint random s = handleHint random s).
Proof.
  split; [|split; [|split]].
  - intros random s i Hi Hni.
    apply (handleHint_new_positions random) in Hi; [|done].
    by apply unrevealedPositions_spec in Hi as (? & _ & ?).
  - apply hints_grow.
  - intros random s Hall. by apply handleHint_nothing_left, allRevealed_unrevealedPositions.
  - apply requestHint_cases.
Qed.

(** A challenge that arrives puts a round in its fresh state. *)
Lemma start_fresh (d : Difficulty) (c : Challenge) (s : State) :
  renderContent s = InitialState →
  start d (Fulfilled c) s =
    mkState playing (Some (challenge_imageUrl c)) (challenge_word c) [] (Some d) 0 ∅ 0.
Proof.
  unfold Blurry.start, Blurry.run, Blurry.dispatch. simpl. by intros ->.
Qed.

(** An event that takes a state reached from the first render to ['lost'] is
    a submitted wrong guess in ['playing']; it uses up the last attempt. *)
Lemma lost_only_by_last_wrong_guess (s : State) (e : Event) :
  attemptsInv s → gameState s ≠ lost → gameState (dispatch s e).1 = lost →
  gameState s = playing ∧ e = SubmitForm
  ∧ isIncorrectGuess (correctWord s) (userGuess s) = true
  ∧ attempts (dispatch s e).1 = maxAttempts.
Proof.
  intros Hinv Hnl Hl.
  pose proof (attemptsInv_dispatch s e Hinv) as Hinv'.
  unfold attemptsInv in Hinv'. rewrite Hl in Hinv'.
  revert Hl. unfold Blurry.dispatch, renderContent.
  destruct e as [d|[c|m]|v| |random| ]; destruct (gameState s) eqn:Hg;
    simpl; rewrite ?Hg; try done.
  - unfold guessInputDisabled. rewrite Hg. simpl. by rewrite Hg.
  - destruct (submitButtonDisabled s) eqn:Hd; simpl; rewrite ?Hg; [done|].
    revert Hinv'. unfold Blurry.dispatch, renderContent. rewrite Hg, Hd.
    destruct (handleGuessSubmit_cases s) as [->|[->|[Hi ->]]];
      [by rewrite Hg|by simpl|done].
  - destruct (hintButtonDisabled s); simpl; rewrite ?Hg; [done|].
    destruct (handleHint_gameState random s) as (-> & _). by rewrite Hg.
  - destruct (difficulty s); simpl; by rewrite ?Hg.
Qed.

(** No event takes a won round to ['lost'] or back to ['playing']: the only
    way on is a new round. *)
Lemma won_round_is_over (s : State) (e : Event) :
  gameState s = correct →
  gameState (dispatch s e).1 = correct ∨ gameState (dispatch s e).1 = loading.
Proof.
  intros Hg. unfold Blurry.dispatch, renderContent. rewrite Hg.
  destruct e as [d|[c|m]|v| |random| ]; simpl; rewrite ?Hg; auto.
  destruct (difficulty s); simpl; rewrite ?Hg; auto.
Qed.

(** C1.  Any [maxAttempts] wrong guesses submitted one after the other to
    a fresh round in ['playing'] leave it ['lost'] with [attempts] equal to
    [maxAttempts].  And from the first render on, a step into ['lost'] is
    always a wrong guess submitted in ['playing'] that brings [attempts] to
    [maxAttempts]; a round that was guessed correctly never gets there. *)
Theorem C1_three_wrong_guesses_lose :
  (∀ (s : State) (guesses : list jsstring),
     gameState s = playing → attempts s = 0 →
     length guesses = maxAttempts →
     forallb (isIncorrectGuess (correctWord s)) guesses = true →
     gameState (submitGuesses guesses s) = lost
     ∧ attempts (submitGuesses guesses s) = maxAttempts)
  ∧ (∀ (es : list Event) (e : Event),
       let s := run initialState es in
       gameState s ≠ lost → gameState (dispatch s e).1 = lost →
       gameState s = playing ∧ e = SubmitForm
       ∧ isIncorrectGuess (correctWord s) (userGuess s) = true
       ∧ attempts (dispatch s e).1 = maxAttempts)
  ∧ (∀ (s : State) (e : Event),
       gameState s = correct →
       gameState (dispatch s e).1 = correct ∨ gameState (dispatch s e).1 = loading).
Proof.
  split; [|split].
  - intros s guesses Hp Ha Hlen Hall.
    destruct guesses as [|g1 [|g2 [|g3 [|]]]]; try done.
    simpl in Hall.
    apply andb_true_iff in Hall as [H1 Hall].
    apply andb_true_iff in Hall as [H2 Hall].
    apply andb_true_iff in Hall as [H3 _].
    unfold Blurry.submitGuesses. cbn [foldl].
    rewrite (submitGuess_incorrect s g1 Hp H1).
    rewrite Ha. simpl.
    set (s1 := setAttempts (λ prev, prev + 1) (setUserGuess g1 s)).
    assert (attempts s1 = 1) as Ha1 by (unfold s1; simpl; lia).
    rewrite (submitGuess_incorrect s1 g2 Hp H2), Ha1. simpl.
    set (s2 := setAttempts (λ prev, prev + 1) (setUserGuess g2 s1)).
    assert (attempts s2 = 2) as Ha2 by (unfold s2; simpl; lia).
    rewrite (submitGuess_incorrect s2 g3 Hp H3), Ha2. simpl.
    split; [done|]. rewrite Ha. reflexivity.
  - intros es e s. apply lost_only_by_last_wrong_guess.
    by apply attemptsInv_run.
  - apply won_round_is_over.
Qed.

(** C5.  A guess submitted while the round is not ['playing'], or a guess
    that is blank once trimmed, changes nothing of the round and fires no
    effect.  Outside ['playing'] the state is left as it is altogether: the
    form is not on the screen.  On a blank guess it is [handleGuessSubmit]
    that returns at once, whatever the status. *)
Theorem C5_submitGuess_silent_noop (s : State) (guess : jsstring) :
  gameState s ≠ playing ∨ trim guess = [] →
  let r := submitGuess guess s in
  gameState r.1 = gameState s ∧ attempts r.1 = attempts s
  ∧ revealedIndices r.1 = revealedIndices s ∧ hintsUsed r.1 = hintsUsed s
  ∧ correctWord r.1 = correctWord s ∧ r.2 = []
  ∧ (gameState s ≠ playing → r.1 = s)
  ∧ (trim guess = [] →
     handleGuessSubmit (setUserGuess guess s) = (setUserGuess guess s, [])).
Proof.
  intros H r. subst r.
  assert (trim guess = [] →
          handleGuessSubmit (setUserGuess guess s) = (setUserGuess guess s, []))
    as Hblank by (intros Ht; by apply handleGuessSubmit_blank).
  destruct (decide (gameState s = playing)) as [Hp|Hp].
  - destruct H as [H|H]; [done|].
    rewrite submitGuess_playing by done.
    destruct (falsy guess); [done|].
    by rewrite handleGuessSubmit_blank.
  - by rewrite submitGuess_not_playing.
Qed.


End Rounds.

(** ** Instances on concrete rounds *)

Lemma C1_three_wrong_guesses_lose_witness :
  (let s' := Blurry.submitGuesses asciiToLowerCase
               [js "bird"; js "snake"; js " Lizard"] dragonRound in
   gameState s' = lost ∧ attempts s' = maxAttempts)
  ∧ (let s := Blurry.run asciiToLowerCase initialState
                [ClickDifficulty Easy;
                 ChallengeSettles (Fulfilled (mkChallenge (js "u") (js "dragon")));
                 ChangeGuess (js "bird"); SubmitForm; SubmitForm] in
     gameState s = playing ∧ SubmitForm = SubmitForm
     ∧ Blurry.isIncorrectGuess asciiToLowerCase (correctWord s) (userGuess s) = true
     ∧ attempts (Blurry.dispatch asciiToLowerCase s SubmitForm).1 = maxAttempts).
Proof.
  split.
  - apply (proj1 (C1_three_wrong_guesses_lose asciiToLowerCase)); reflexivity.
  - apply (proj1 (proj2 (C1_three_wrong_guesses_lose asciiToLowerCase))
             [ClickDifficulty Easy;
              ChallengeSettles (Fulfilled (mkChallenge (js "u") (js "dragon")));
              ChangeGuess (js "bird"); SubmitForm; SubmitForm] SubmitForm).
    + vm_compute. discriminate.
    + reflexivity.
Defined.

Lemma C4_hint_reveals_floor_quarter_witness :
  (let s' := (handleHint (λ k, 3 * k + 5) iceCreamRound).1 in
   size (revealedIndices s' ∖ revealedIndices iceCreamRound) = 1 `max` (8 / 4)
   ∧ hintsUsed s' = 1)
  ∧ (let s := Blurry.run asciiToLowerCase initialState
                [ClickDifficulty Medium;
                 ChallengeSettles (Fulfilled (mkChallenge (js "u") (js "ice cream")))] in
     Blurry.requestHint asciiToLowerCase (λ k, 3 * k + 5) s
     = handleHint (λ k, 3 * k + 5) s).
Proof.
  split.
  - destruct (proj1 (C4_hint_reveals_floor_quarter asciiToLowerCase)
                (λ k, 3 * k + 5) iceCreamRound)
      as (Hsize & _ & _ & Hhints).
    + vm_compute. lia.
    + split; [exact Hsize|exact Hhints].
  - apply (proj2 (C4_hint_reveals_floor_quarter asciiToLowerCase)
             [ClickDifficulty Medium;
              ChallengeSettles (Fulfilled (mkChallenge (js "u") (js "ice cream")))]).
    + reflexivity.
    + vm_compute. lia.
Defined.

Lemma C6_hints_grow_and_skip_spaces_witness :
  (6 < length (correctWord iceCreamRound)
   ∧ correctWord iceCreamRound !! 6 ≠ Some SPACE)
  ∧ handleHint (λ _, 0) (setRevealedIndices {[0; 1; 2; 4; 5; 6; 7; 8]} iceCreamRound)
    = (setRevealedIndices {[0; 1; 2; 4; 5; 6; 7; 8]} iceCreamRound, []).
Proof.
  split.
  - apply (proj1 (C6_hints_grow_and_skip_spaces asciiToLowerCase)
             (λ k, 3 * k + 5) iceCreamRound 6).
    + compute_done.
    + compute_done.
  - apply (proj1 (proj2 (proj2 (C6_hints_grow_and_skip_spaces asciiToLowerCase)))).
    apply allRevealed_unrevealedPositions. reflexivity.
Defined.

Lemma C5_submitGuess_silent_noop_witness :
  (Blurry.submitGuess asciiToLowerCase (js "  ") dragonRound).2 = []
  ∧ (Blurry.submitGuess asciiToLowerCase (js "dragon")
       (setGameState lost dragonRound)).1 = setGameState lost dragonRound.
Proof.
  split.
  - apply (C5_submitGuess_silent_noop asciiToLowerCase dragonRound (js "  ")).
    right. reflexivity.
  - apply (C5_submitGuess_silent_noop asciiToLowerCase
             (setGameState lost dragonRound) (js "dragon")).
    + left. vm_compute. discriminate.
    + vm_compute. discriminate.
Defined.



(** [handleGuessSubmit] itself does not look at [gameState]: applied to a
    lost round it would still accept the word.  What keeps a guess from a
    round that is over is [renderContent], which shows the form in
    ['playing'] only. *)
Example handleGuessSubmit_does_not_test_gameState :
  let s := setUserGuess (js "dragon") (setGameState lost dragonRound) in
  gameState (Blurry.handleGuessSubmit asciiToLowerCase s).1 = correct
  ∧ Blurry.dispatch asciiToLowerCase s SubmitForm = (s, []).
Proof. split; reflexivity. Qed.

End BlurryFacts.

(** * Properties of the memory game *)

Module MemoryFacts.
Import Memory.

(** ** Shuffling and dealing *)

Lemma arrange_Permutation {T : Type} (n : nat) :
  ∀ (random : nat → nat) (array : list T),
    length array = n → arrange n random array ≡ₚ array.
Proof.
  induction n as [|n IH]; intros random array Hlen.
  { by apply nil_length_inv in Hlen as ->. }
  cbn [arrange].
  assert (random 0 `mod` length array < length array) as Hk.
  { apply Nat.mod_upper_bound. lia. }
  destruct (lookup_lt_is_Some_2 _ _ Hk) as [x Hx]. rewrite Hx.
  etrans; [|symmetry; apply (delete_Permutation array _ x Hx)].
  constructor. apply IH. rewrite length_delete by done. lia.
Qed.

(** [shuffleArray] rearranges: nothing is added, dropped or altered. *)
Lemma shuffleArray_Permutation {T : Type} (random : nat → nat) (array : list T) :
  shuffleArray random array ≡ₚ array.
Proof. by apply arrange_Permutation. Qed.

Lemma pushCards_length (fetchedCards : list FetchedCard) :
  ∀ index, length (pushCards index fetchedCards) = 2 * length fetchedCards.
Proof.
  induction fetchedCards as [|card rest IH]; intros index; [done|].
  simpl. rewrite IH. lia.
Qed.

(** The ids dealt are consecutive, starting at twice the index. *)
Lemma pushCards_ids (fetchedCards : list FetchedCard) :
  ∀ index, id <$> pushCards index fetchedCards
           = seq (index * 2) (2 * length fetchedCards).
Proof.
  induction fetchedCards as [|card rest IH]; intros index; [done|].
  simpl. rewrite IH. f_equal.
  replace (length rest + S (length rest + 0)) with (S (2 * length rest)) by lia.
  replace (S index * 2) with (S (S (index * 2))) by lia.
  replace (index * 2 + 1) with (S (index * 2)) by lia.
  reflexivity.
Qed.

Lemma pushCards_fresh (fetchedCards : list FetchedCard) :
  ∀ index c, c ∈ pushCards index fetchedCards →
             isFlipped c = false ∧ isMatched c = false.
Proof.
  induction fetchedCards as [|card rest IH]; intros index c Hc; simpl in Hc.
  { by apply elem_of_nil in Hc. }
  apply elem_of_cons in Hc as [->|Hc]; [done|].
  apply elem_of_cons in Hc as [->|Hc]; [done|].
  by apply (IH (S index)).
Qed.

(** Per fetched pair with word [w], one card of each type carries the pair
    key [w]. *)
Lemma pushCards_count (ty : CardType) (w : jsstring) (fetchedCards : list FetchedCard) :
  ∀ index,
    length (filter (λ c, pairId c = w ∧ type c = ty) (pushCards index fetchedCards))
    = length (filter (λ f, fetched_word f = w) fetchedCards).
Proof.
  induction fetchedCards as [|card rest IH]; intros index; [done|].
  cbn [pushCards]. rewrite !filter_cons. simpl.
  specialize (IH (S index)).
  destruct ty; repeat case_decide; simpl; rewrite ?IH; try done;
    exfalso; intuition congruence.
Qed.

Lemma pushCards_count_key (w : jsstring) (fetchedCards : list FetchedCard) :
  ∀ index,
    length (filter (λ c, pairId c = w) (pushCards index fetchedCards))
    = 2 * length (filter (λ f, fetched_word f = w) fetchedCards).
Proof.
  induction fetchedCards as [|card rest IH]; intros index; [done|].
  cbn [pushCards]. rewrite !filter_cons. simpl.
  specialize (IH (S index)).
  repeat case_decide; simpl; rewrite ?IH; try done; lia.
Qed.

(** In a list without repeated words, a word names one pair. *)
Lemma count_word_NoDup (fetchedCards : list FetchedCard) (f : FetchedCard) :
  NoDup (fetched_word <$> fetchedCards) → f ∈ fetchedCards →
  length (filter (λ f', fetched_word f' = fetched_word f) fetchedCards) = 1.
Proof.
  induction fetchedCards as [|card rest IH]; intros Hnd Hf.
  { by apply elem_of_nil in Hf. }
  rewrite fmap_cons in Hnd. apply NoDup_cons in Hnd as [Hni Hnd].
  rewrite filter_cons. apply elem_of_cons in Hf as [->|Hf].
  - rewrite decide_True by done. simpl. f_equal.
    apply length_zero_iff_nil, elem_of_nil_inv. intros f' Hf'.
    apply list_elem_of_filter in Hf' as [Heq Hf'].
    apply Hni. rewrite <- Heq. by apply list_elem_of_fmap_2.
  - rewrite decide_False; [by apply IH|].
    intros Heq. apply Hni. rewrite Heq. by apply list_elem_of_fmap_2.
Qed.

Lemma startNewGame_cards (fetchedCards : list FetchedCard) (random : nat → nat)
    (s : State) :
  startNewGame (Fulfilled fetchedCards) random s
  = Completes (mkState (shuffleArray random (pushCards 0 fetchedCards)) []
                       playing (isChecking s), []).
Proof. reflexivity. Qed.

(** C9, as the code has it.  From [N] fetched pairs [startNewGame] deals
    [2 * N] cards, all face down and unmatched; for every key, the cards
    carrying it are one word card and one image card per fetched pair with
    that word.  When no word occurs in two pairs, each pair key is therefore
    shared by exactly two cards, a word card and an image card. *)
Theorem C9_start_deals_two_cards_per_pair (fetchedCards : list FetchedCard)
    (random : nat → nat) (s : State) :
  let cs := cards (result (startNewGame (Fulfilled fetchedCards) random s)).1 in
  length cs = 2 * length fetchedCards
  ∧ (∀ c, c ∈ cs → isFlipped c = false ∧ isMatched c = false)
  ∧ (∀ (ty : CardType) (w : jsstring),
       length (filter (λ c, pairId c = w ∧ type c = ty) cs)
       = length (filter (λ f, fetched_word f = w) fetchedCards))
  ∧ (NoDup (fetched_word <$> fetchedCards) →
     ∀ f, f ∈ fetchedCards →
       length (filter (λ c, pairId c = fetched_word f) cs) = 2
       ∧ length (filter (λ c, pairId c = fetched_word f ∧ type c = word) cs) = 1
       ∧ length (filter (λ c, pairId c = fetched_word f ∧ type c = image) cs) = 1).
Proof.
  rewrite startNewGame_cards. simpl.
  pose proof (shuffleArray_Permutation random (pushCards 0 fetchedCards)) as Hperm.
  split; [|split; [|split]].
  - by rewrite Hperm, pushCards_length.
  - intros c Hc. rewrite Hperm in Hc. by apply pushCards_fresh in Hc.
  - intros ty w. by rewrite Hperm, pushCards_count.
  - intros Hnd f Hf. rewrite !Hperm.
    by rewrite pushCards_count_key, !pushCards_count, count_word_NoDup.
Qed.

(** C9 as stated fails when two fetched pairs have the same word: all four
    of their cards share the pair key. *)
Lemma C9_counterexample :
  let fetchedCards := [mkFetchedCard (js "cat") (js "cat-1.png");
                       mkFetchedCard (js "cat") (js "cat-2.png")] in
  let cs := cards (result (startNewGame (Fulfilled fetchedCards) (λ _, 0)
                                        initialState)).1 in
  length (filter (λ c, pairId c = js "cat") cs) = 4.
Proof. vm_compute. reflexivity. Qed.

Lemma C9_start_deals_two_cards_per_pair_witness :
  let fetchedCards := [mkFetchedCard (js "cat") (js "cat.png");
                       mkFetchedCard (js "dog") (js "dog.png")] in
  let cs := cards (result (startNewGame (Fulfilled fetchedCards) (λ k, 7 * k + 3)
                                        initialState)).1 in
  length (filter (λ c, pairId c = js "dog") cs) = 2
  ∧ length (filter (λ c, pairId c = js "dog" ∧ type c = word) cs) = 1
  ∧ length (filter (λ c, pairId c = js "dog" ∧ type c = image) cs) = 1.
Proof.
  intros fetchedCards cs.
  apply (proj2 (proj2 (proj2
           (C9_start_deals_two_cards_per_pair fetchedCards (λ k, 7 * k + 3)
                                              initialState)))
           ltac:(compute_done) (mkFetchedCard (js "dog") (js "dog.png"))).
  compute_done.
Defined.

(** ** The invariant of the board *)

Lemma card_unique (l : list GameCard) (c1 c2 : GameCard) :
  NoDup (id <$> l) → c1 ∈ l → c2 ∈ l → id c1 = id c2 → c1 = c2.
Proof.
  induction l as [|c l IH]; intros Hnd H1 H2 Heq.
  { by apply elem_of_nil in H1. }
  rewrite fmap_cons in Hnd. apply NoDup_cons in Hnd as [Hni Hnd].
  apply elem_of_cons in H1 as [->|H1]; apply elem_of_cons in H2 as [->|H2].
  - done.
  - exfalso. apply Hni. rewrite Heq. by apply list_elem_of_fmap_2.
  - exfalso. apply Hni. rewrite <- Heq. by apply list_elem_of_fmap_2.
  - by apply IH.
Qed.

Lemma selected_card (s : State) (c : GameCard) :
  wellFormed s → c ∈ cards s → id c ∈ flippedCards s →
  isFlipped c = true ∧ isMatched c = false.
Proof.
  intros Hwf Hc Hsel.
  destruct (wf_selected s Hwf _ Hsel) as (c' & Hc' & Hid & Hf & Hm).
  by rewrite (card_unique (cards s) c c' (wf_ids s Hwf) Hc Hc').
Qed.

(** The card [handleCardClick] looks up. *)
Lemma foundFlipped_false (cardId : nat) (s : State) :
  cardId ∈ id <$> cards s → foundFlipped cardId s = false →
  ∃ c, c ∈ cards s ∧ id c = cardId ∧ isFlipped c = false.
Proof.
  intros Hin. unfold foundFlipped.
  destruct (find _ _) as [c|] eqn:Hfind.
  - apply find_some in Hfind as [Hc Hid]. apply Nat.eqb_eq in Hid.
    intros Hf. exists c. by rewrite list_elem_of_In.
  - apply list_elem_of_fmap in Hin as (c & -> & Hc).
    apply list_elem_of_In in Hc.
    apply (find_none _ _ Hfind) in Hc. by rewrite Nat.eqb_refl in Hc.
Qed.

Lemma foundFlipped_true (cardId : nat) (s : State) (c : GameCard) :
  NoDup (id <$> cards s) → c ∈ cards s → id c = cardId →
  foundFlipped cardId s = isFlipped c.
Proof.
  intros Hnd Hc Hid. unfold foundFlipped.
  destruct (find _ _) as [c'|] eqn:Hfind.
  - apply find_some in Hfind as [Hc' Hid']. apply Nat.eqb_eq in Hid'.
    apply list_elem_of_In in Hc'.
    by rewrite (card_unique (cards s) c c' Hnd Hc Hc') by congruence.
  - apply list_elem_of_In in Hc. apply (find_none _ _ Hfind) in Hc.
    apply Nat.eqb_neq in Hc. done.
Qed.

(** Rewriting the flags of cards leaves their ids alone. *)
Lemma ids_fmap (f : GameCard → GameCard) (l : list GameCard) :
  (∀ c, id (f c) = id c) → id <$> (f <$> l) = id <$> l.
Proof.
  intros Hf. rewrite <- list_fmap_compose. apply list_fmap_ext. intros ? c _. apply Hf.
Qed.

(** The early returns of [handleCardClick]. *)
Lemma handleCardClick_rejected (cardId : nat) (s : State) :
  isChecking s = true ∨ length (flippedCards s) = 2 ∨ foundFlipped cardId s = true →
  handleCardClick cardId s = s.
Proof.
  intros H. unfold handleCardClick.
  destruct (isChecking s); [done|]. simpl.
  case_bool_decide; [done|]. simpl.
  destruct (foundFlipped cardId s); [done|].
  destruct H as [?|[?|?]]; done.
Qed.

(** What it does otherwise. *)
Lemma handleCardClick_accepted (cardId : nat) (s : State) :
  isChecking s = false → length (flippedCards s) ≠ 2 → foundFlipped cardId s = false →
  handleCardClick cardId s
  = mkState ((λ c, if id c =? cardId then withFlipped true c else c) <$> cards s)
            (flippedCards s ++ [cardId]) (gameState s) (isChecking s).
Proof.
  intros Hc Hl Hf. unfold handleCardClick.
  rewrite Hf, bool_decide_eq_false_2 by done.
  destruct (isChecking s) eqn:E; [done|].
  unfold setFlippedCards, setCards. simpl. by rewrite E.
Qed.

Lemma handleCardClick_cases (cardId : nat) (s : State) :
  handleCardClick cardId s = s
  ∨ (isChecking s = false ∧ length (flippedCards s) ≠ 2
     ∧ foundFlipped cardId s = false
     ∧ handleCardClick cardId s
       = mkState ((λ c, if id c =? cardId then withFlipped true c else c) <$> cards s)
                 (flippedCards s ++ [cardId]) (gameState s) (isChecking s)).
Proof.
  destruct (isChecking s) eqn:Hc; [left; apply handleCardClick_rejected; auto|].
  destruct (decide (length (flippedCards s) = 2)) as [Hl|Hl];
    [left; apply handleCardClick_rejected; auto|].
  destruct (foundFlipped cardId s) eqn:Hf;
    [left; apply handleCardClick_rejected; auto|].
  right. repeat split; try done.
  rewrite handleCardClick_accepted by done. by rewrite Hc.
Qed.

(** Turning a card face up keeps matched cards face up, in any state and
    for any id. *)
Lemma handleCardClick_matchedAreFlipped (cardId : nat) (s : State) :
  matchedAreFlipped s → matchedAreFlipped (handleCardClick cardId s).
Proof.
  intros Hmf. destruct (handleCardClick_cases cardId s) as [->|(_ & _ & _ & ->)]; [done|].
  intros c' Hc' Hm. simpl in Hc'.
  apply list_elem_of_fmap in Hc' as (c & -> & Hc).
  destruct (id c =? cardId); [done|]. by apply Hmf.
Qed.

(** [wellFormed] is about the cards and the selection only. *)
Lemma wellFormed_ext (s s' : State) :
  cards s' = cards s → flippedCards s' = flippedCards s →
  wellFormed s → wellFormed s'.
Proof.
  intros Hc Hf [H1 H2 H3 H4 H5].
  split; unfold matchedAreFlipped; rewrite ?Hc, ?Hf; done.
Qed.

(** A click on a card of the board keeps the board well formed. *)
Lemma handleCardClick_wellFormed (cardId : nat) (s : State) :
  wellFormed s → cardId ∈ id <$> cards s → wellFormed (handleCardClick cardId s).
Proof.
  intros Hwf Hin.
  destruct (handleCardClick_cases cardId s) as [->|(Hchk & Hlen & Hff & Heq)]; [done|].
  destruct (foundFlipped_false cardId s Hin Hff) as (c0 & Hc0 & Hid0 & Hfl0).
  assert (cardId ∉ flippedCards s) as Hfresh.
  { intros Hsel. destruct (wf_selected s Hwf _ Hsel) as (c & Hc & Hid & Hf & _).
    rewrite (foundFlipped_true cardId s c (wf_ids s Hwf) Hc Hid) in Hff. congruence. }
  split.
  - rewrite Heq. simpl. rewrite ids_fmap; [apply Hwf|].
    intros c. by destruct (id c =? cardId).
  - apply handleCardClick_matchedAreFlipped, Hwf.
  - rewrite Heq. simpl. apply NoDup_app. split; [apply Hwf|]. split.
    + intros x Hx ->%list_elem_of_singleton. done.
    + apply NoDup_singleton.
  - rewrite Heq. simpl. intros i [Hi| ->%list_elem_of_singleton]%elem_of_app.
    + destruct (wf_selected s Hwf _ Hi) as (c & Hc & Hid & Hf & Hm).
      exists (if id c =? cardId then withFlipped true c else c).
      split; [by apply (list_elem_of_fmap_2 (λ c, if id c =? cardId then withFlipped true c else c))|].
      by destruct (id c =? cardId).
    + exists (withFlipped true c0). split.
      * apply list_elem_of_fmap. exists c0. by rewrite Hid0, Nat.eqb_refl.
      * simpl. split; [done|]. split; [done|].
        destruct (isMatched c0) eqn:Hm; [|done].
        apply (wf_matched s Hwf) in Hm; [congruence|done].
  - rewrite Heq. simpl. rewrite length_app. simpl.
    pose proof (wf_at_most_two s Hwf). lia.
Qed.

(** ** Evaluating a pair *)

Lemma two_distinct_elements {A : Type} (l : list A) (x y : A) :
  x ∈ l → y ∈ l → x ≠ y → ∃ a b r, l = a :: b :: r.
Proof.
  intros Hx Hy Hne. destruct l as [|a [|b r]].
  - by apply elem_of_nil in Hx.
  - apply list_elem_of_singleton in Hx, Hy. congruence.
  - eauto.
Qed.

(** With two selected cards on a well-formed board, the filter of
    [checkMatch] finds two cards: neither [firstCard] nor [secondCard] is
    [undefined]. *)
Lemma checkMatch_finds_two (s : State) :
  wellFormed s → length (flippedCards s) = 2 →
  ∃ firstCard secondCard rest,
    filter (λ c, includes (flippedCards s) (id c) = true) (cards s)
    = firstCard :: secondCard :: rest.
Proof.
  intros Hwf Hlen.
  destruct (flippedCards s) as [|a [|b [|]]] eqn:Hsel; try done.
  pose proof (wf_selected_NoDup s Hwf) as Hnd. rewrite Hsel in Hnd.
  apply NoDup_cons in Hnd as [Hab _].
  destruct (wf_selected s Hwf a) as (ca & Hca & Hida & _); [rewrite Hsel; by left|].
  destruct (wf_selected s Hwf b) as (cb & Hcb & Hidb & _);
    [rewrite Hsel; right; by left|].
  apply (two_distinct_elements _ ca cb).
  - apply list_elem_of_filter. split; [|done].
    unfold includes. apply bool_decide_eq_true. rewrite Hida. by left.
  - apply list_elem_of_filter. split; [|done].
    unfold includes. apply bool_decide_eq_true. rewrite Hidb. right. by left.
  - intros ->. apply Hab. rewrite <- Hida, Hidb. by left.
Qed.

(** On a well-formed board with two selected cards, [checkMatch] either
    marks the pair matched and ends, or waits for the timer; it does not
    raise. *)
Lemma checkMatch_cases (s : State) :
  wellFormed s → length (flippedCards s) = 2 →
  checkMatch s = Finished (matchedBoard s) [PlaySound "Match!"]
  ∨ checkMatch s = Sleeps (setIsChecking true s) (flippedCards s).
Proof.
  intros Hwf Hlen. unfold checkMatch.
  rewrite bool_decide_eq_true_2 by done. simpl.
  destruct (checkMatch_finds_two s Hwf Hlen) as (c1 & c2 & rest & ->).
  destruct (strictEq (pairId c1) (pairId c2)); [by left|by right].
Qed.

Lemma matchedBoard_wellFormed (s : State) : wellFormed s → wellFormed (matchedBoard s).
Proof.
  intros Hwf. split; simpl.
  - rewrite ids_fmap; [apply Hwf|].
    intros c. by destruct (includes (flippedCards s) (id c)).
  - intros c' Hc' Hm. simpl in Hc'.
    apply list_elem_of_fmap in Hc' as (c & -> & Hc).
    destruct (includes (flippedCards s) (id c)) eqn:Hinc.
    + simpl. apply bool_decide_eq_true in Hinc.
      by destruct (selected_card s c Hwf Hc Hinc).
    + by apply (wf_matched s Hwf).
  - constructor.
  - intros i Hi. by apply elem_of_nil in Hi.
  - lia.
Qed.

Lemma checkMatch_afterDelay_wellFormed (s : State) :
  wellFormed s → wellFormed (checkMatch_afterDelay (flippedCards s) s).
Proof.
  intros Hwf. split; simpl.
  - rewrite ids_fmap; [apply Hwf|].
    intros c. by destruct (includes (flippedCards s) (id c)).
  - intros c' Hc' Hm. simpl in Hc'.
    apply list_elem_of_fmap in Hc' as (c & -> & Hc).
    destruct (includes (flippedCards s) (id c)) eqn:Hinc.
    + simpl in Hm. apply bool_decide_eq_true in Hinc.
      destruct (selected_card s c Hwf Hc Hinc). congruence.
    + by apply (wf_matched s Hwf).
  - constructor.
  - intros i Hi. by apply elem_of_nil in Hi.
  - lia.
Qed.

(** ** The mounted component *)

Lemma consistent_ext (w w' : World) :
  ui w' = ui w → timers w' = timers w → unhandledRejection w' = unhandledRejection w →
  consistent w → consistent w'.
Proof. intros Hu Ht Hr [H1 H2 H3 H4 H5 H6]. split; rewrite ?Hu, ?Ht, ?Hr; done. Qed.

Lemma initialWorld_consistent : consistent initialWorld.
Proof.
  split; simpl; try done; try lia.
  split; simpl; try done; try lia.
  - constructor.
  - intros c Hc. by apply elem_of_nil in Hc.
  - constructor.
  - intros i Hi. by apply elem_of_nil in Hi.
Qed.

Lemma allMatched_fmap (f : GameCard → GameCard) (s s' : State) :
  (∀ c, isMatched (f c) = isMatched c) → cards s' = f <$> cards s →
  allMatched s' = allMatched s.
Proof.
  intros Hf Hc. unfold allMatched. rewrite Hc, length_fmap. f_equal. clear Hc.
  induction (cards s) as [|c l IH]; [done|].
  rewrite fmap_cons. simpl. by rewrite Hf, IH.
Qed.

Lemma effect_completeGame_cases (prev s : State) :
  effect_completeGame prev s = (s, [])
  ∨ (allMatched prev ≠ allMatched s
     ∧ effect_completeGame prev s = (setGameState won s, [CompleteActivity])).
Proof.
  unfold effect_completeGame. case_bool_decide; [by left|].
  destruct (allMatched s); [by right|by left].
Qed.

(** A handler that returned early caused no render: no effect runs. *)
Lemma afterRender_same (w : World) :
  consistent w → consistent (afterRender (ui w) (ui w) w).
Proof.
  intros Hw. unfold afterRender, effect_checkMatch, effect_completeGame.
  rewrite !bool_decide_eq_true_2 by done. simpl.
  by apply (consistent_ext w).
Qed.

Lemma afterRender_consistent (prev next : State) (w : World) :
  wellFormed next → unhandledRejection w = false → timers w = [] →
  isChecking next = false →
  (length (flippedCards next) = 2 →
   gameState next = playing ∧ flippedCards prev ≠ flippedCards next) →
  (length (flippedCards next) ≠ 2 →
   flippedCards next = []
   ∨ (gameState next = playing ∧ allMatched prev = allMatched next)) →
  consistent (afterRender prev next w).
Proof.
  intros Hwf Hrej Htim Hchk Htwo Hother.
  unfold afterRender, effect_checkMatch.
  destruct (decide (length (flippedCards next) = 2)) as [Hlen|Hlen].
  - destruct (Htwo Hlen) as [Hplay Hdiff].
    rewrite bool_decide_eq_false_2 by (intros [? _]; done).
    rewrite bool_decide_eq_true_2 by done.
    destruct (checkMatch_cases next Hwf Hlen) as [-> | ->].
    + pose proof (matchedBoard_wellFormed next Hwf) as Hwf'.
      destruct (effect_completeGame_cases prev (matchedBoard next)) as [-> |[_ ->]];
        split; simpl; try done; try lia.
      by apply (wellFormed_ext (matchedBoard next)).
    + split; simpl; rewrite ?Htim; try done.
      by apply (wellFormed_ext next).
  - assert ((if bool_decide (flippedCards prev = flippedCards next
                             ∧ cards prev = cards next)
             then Finished next []
             else if bool_decide (length (flippedCards next) = 2)
                  then checkMatch next else Finished next [])
            = Finished next []) as ->.
    { case_bool_decide; [done|]. by rewrite bool_decide_eq_false_2. }
    pose proof (wf_at_most_two next Hwf) as Hle.
    destruct (effect_completeGame_cases prev next) as [-> |[Hne ->]].
    + split; simpl; rewrite ?Hchk, ?Htim; try done.
      * intros _. lia.
      * intros Hnp. by destruct (Hother Hlen) as [?|[? _]].
    + destruct (Hother Hlen) as [Hnil|[_ Heq]]; [|done].
      split; simpl; rewrite ?Hchk, ?Htim, ?Hnil; try done.
      * by apply (wellFormed_ext next).
      * intros _. simpl. lia.
Qed.

Lemma click_consistent (w : World) (cardId : nat) :
  consistent w → gameState (ui w) = playing → cardId ∈ id <$> cards (ui w) →
  consistent (afterRender (ui w) (handleCardClick cardId (ui w)) w).
Proof.
  intros Hw Hg Hin.
  pose proof (handleCardClick_wellFormed cardId (ui w) (c_wellFormed w Hw) Hin) as Hwf.
  destruct (handleCardClick_cases cardId (ui w)) as [->|(Hchk & Hlen & Hff & Heq)].
  { by apply afterRender_same. }
  rewrite Heq in Hwf |- *.
  apply afterRender_consistent; simpl; try done.
  - apply Hw.
  - by rewrite (c_timers w Hw), Hchk.
  - intros _. split; [done|]. intros H%(f_equal length).
    rewrite length_app in H. simpl in H. lia.
  - intros _. right. split; [done|]. symmetry.
    apply (allMatched_fmap (λ c, if id c =? cardId then withFlipped true c else c));
      [|done].
    intros c. by destruct (id c =? cardId).
Qed.

Lemma timeout_consistent (w : World) :
  consistent w →
  consistent
    match timers w with
    | closure :: rest =>
        afterRender (ui w) (checkMatch_afterDelay closure (ui w))
                    (mkWorld (ui w) rest (unhandledRejection w) (fired w))
    | [] => w
    end.
Proof.
  intros Hw. pose proof (c_timers w Hw) as Htim.
  destruct (isChecking (ui w)) eqn:Hchk; rewrite Htim; [|done].
  apply afterRender_consistent; simpl; try done.
  - apply checkMatch_afterDelay_wellFormed, Hw.
  - apply Hw.
  - intros _. by left.
Qed.

Lemma settle_consistent (w : World) (fetched : Promise (list FetchedCard))
    (random : nat → nat) :
  consistent w → gameState (ui w) = loading →
  consistent
    (let '(s', fx) := result (startNewGame_settle fetched random (ui w)) in
     afterRender (ui w) s'
       (mkWorld (ui w) (timers w) (unhandledRejection w) (fired w ++ fx))).
Proof.
  intros Hw Hg.
  assert (flippedCards (ui w) = []) as Hnil by (apply (c_cleared w Hw); congruence).
  assert (isChecking (ui w) = false) as Hchk.
  { destruct (isChecking (ui w)) eqn:E; [|done].
    destruct (c_checking w Hw E). congruence. }
  pose proof (c_timers w Hw) as Htim. rewrite Hchk in Htim.
  destruct fetched as [fetchedCards|message]; simpl.
  - apply afterRender_consistent; simpl; rewrite ?Hnil; try done.
    + split; simpl; rewrite ?Hnil.
      * rewrite (shuffleArray_Permutation random (pushCards 0 fetchedCards)).
        rewrite pushCards_ids. apply NoDup_seq.
      * intros c Hc Hm. simpl in Hc.
        rewrite (shuffleArray_Permutation random (pushCards 0 fetchedCards)) in Hc.
        apply pushCards_fresh in Hc as [_ Hc]. congruence.
      * constructor.
      * intros i Hi. by apply elem_of_nil in Hi.
      * simpl. lia.
    + apply Hw.
    + intros _. by left.
  - apply afterRender_consistent; simpl; rewrite ?Hnil; try done.
    + by apply (wellFormed_ext (ui w)); [..|apply Hw].
    + apply Hw.
    + intros _. by left.
Qed.

Lemma playAgain_consistent (w : World) :
  consistent w → gameState (ui w) = won →
  consistent (afterRender (ui w) (startNewGame_request (ui w)) w).
Proof.
  intros Hw Hg.
  assert (flippedCards (ui w) = []) as Hnil by (apply (c_cleared w Hw); congruence).
  assert (isChecking (ui w) = false) as Hchk.
  { destruct (isChecking (ui w)) eqn:E; [|done].
    destruct (c_checking w Hw E). congruence. }
  apply afterRender_consistent; simpl; try done.
  - by apply (wellFormed_ext (ui w)); [..|apply Hw].
  - apply Hw.
  - by rewrite (c_timers w Hw), Hchk.
  - intros _. by left.
Qed.

(** Every event keeps the component consistent. *)
Lemma dispatch_consistent (w : World) (e : Event) :
  consistent w → consistent (dispatch w e).
Proof.
  intros Hw. unfold dispatch.
  destruct e as [cardId| |fetched random| ].
  - destruct (gameState (ui w)) eqn:Hg; try done.
    case_bool_decide; [|done]. by apply click_consistent.
  - pose proof (timeout_consistent w Hw). by destruct (gameState (ui w)).
  - destruct (gameState (ui w)) eqn:Hg; try done. by apply settle_consistent.
  - destruct (gameState (ui w)) eqn:Hg; try done. by apply playAgain_consistent.
Qed.

Lemma run_consistent (es : list Event) (w : World) :
  consistent w → consistent (run w es).
Proof.
  revert w. induction es as [|e es IH]; intros w Hw; [done|].
  simpl. apply IH. by apply dispatch_consistent.
Qed.

Lemma reachable_consistent (es : list Event) : consistent (run initialWorld es).
Proof. apply run_consistent, initialWorld_consistent. Qed.

(** A click that the handler turns down leaves the whole component as it
    was. *)
Lemma dispatch_rejected_click (w : World) (cardId : nat) :
  handleCardClick cardId (ui w) = ui w → dispatch w (ClickCard cardId) = w.
Proof.
  intros Heq. unfold dispatch. destruct (gameState (ui w)); try done.
  case_bool_decide; [|done]. rewrite Heq.
  unfold afterRender, effect_checkMatch, effect_completeGame.
  rewrite !bool_decide_eq_true_2 by done.
  destruct w. simpl. by rewrite app_nil_r.
Qed.

Lemma afterRender_cleared (prev next : State) (w : World) :
  flippedCards next = [] → flippedCards (ui (afterRender prev next w)) = [].
Proof.
  intros Hnil. unfold afterRender, effect_checkMatch.
  assert ((if bool_decide (flippedCards prev = flippedCards next
                           ∧ cards prev = cards next)
           then Finished next []
           else if bool_decide (length (flippedCards next) = 2)
                then checkMatch next else Finished next [])
          = Finished next []) as ->.
  { case_bool_decide; [done|]. by rewrite Hnil. }
  by destruct (effect_completeGame_cases prev next) as [-> |[_ ->]].
Qed.

(** What evaluating the selected pair does to a well-formed board: the pair
    is marked and the selection emptied at once, or the call waits and
    empties the selection when its timer fires. *)
Lemma checkMatch_clears (s : State) :
  wellFormed s → length (flippedCards s) = 2 →
  (checkMatch s = Finished (matchedBoard s) [PlaySound "Match!"]
   ∧ flippedCards (matchedBoard s) = [])
  ∨ (checkMatch s = Sleeps (setIsChecking true s) (flippedCards s)
     ∧ flippedCards (checkMatch_afterDelay (flippedCards s) (setIsChecking true s)) = []).
Proof.
  intros Hwf Hlen. destruct (checkMatch_cases s Hwf Hlen) as [H|H]; [left|right]; done.
Qed.

(** C8.  In every state reached from mounting the component at most two
    cards are selected.  With two selected, a click on a card changes
    nothing, neither in the handler nor in the component.  Evaluating a
    selected pair empties the selection: at once when the pair matches, when
    the timer fires otherwise; and two cards are only ever selected while
    that timer is pending. *)
Theorem C8_at_most_two_selected :
  (∀ es : list Event, length (flippedCards (ui (run initialWorld es))) ≤ 2)
  ∧ (∀ (s : State) (cardId : nat),
       length (flippedCards s) = 2 → handleCardClick cardId s = s)
  ∧ (∀ (w : World) (cardId : nat),
       length (flippedCards (ui w)) = 2 → dispatch w (ClickCard cardId) = w)
  ∧ (∀ (es : list Event) (cardId : nat),
       let w := run initialWorld es in
       let s := handleCardClick cardId (ui w) in
       cardId ∈ id <$> cards (ui w) → length (flippedCards s) = 2 →
       (checkMatch s = Finished (matchedBoard s) [PlaySound "Match!"]
        ∧ flippedCards (matchedBoard s) = [])
       ∨ (checkMatch s = Sleeps (setIsChecking true s) (flippedCards s)
          ∧ flippedCards (checkMatch_afterDelay (flippedCards s)
                                                (setIsChecking true s)) = []))
  ∧ (∀ es : list Event,
       let w := run initialWorld es in
       length (flippedCards (ui w)) = 2 →
       isChecking (ui w) = true ∧ timers w = [flippedCards (ui w)]
       ∧ flippedCards (ui (dispatch w TimeoutElapses)) = []).
Proof.
  split; [|split; [|split; [|split]]].
  - intros es. apply wf_at_most_two, reachable_consistent.
  - intros s cardId Hlen. apply handleCardClick_rejected. auto.
  - intros w cardId Hlen. apply dispatch_rejected_click, handleCardClick_rejected. auto.
  - intros es cardId w s Hin Hlen. apply checkMatch_clears; [|done].
    apply handleCardClick_wellFormed; [|done]. apply reachable_consistent.
  - intros es w Hlen. pose proof (reachable_consistent es) as Hw. fold w in Hw.
    assert (isChecking (ui w) = true) as Hchk.
    { destruct (isChecking (ui w)) eqn:E; [done|].
      pose proof (c_settled w Hw E). lia. }
    pose proof (c_timers w Hw) as Htim. rewrite Hchk in Htim.
    split; [done|]. split; [done|].
    unfold dispatch. rewrite Htim.
    assert (∀ w', flippedCards (ui (afterRender (ui w)
                     (checkMatch_afterDelay (flippedCards (ui w)) (ui w)) w')) = [])
      as Hclr by (intros w'; by apply afterRender_cleared).
    destruct (gameState (ui w)); apply Hclr.
Qed.

(** On a well-formed board [checkMatch] does not raise, and matched cards
    are face up wherever it leaves the board. *)
Lemma checkMatch_matchedAreFlipped (s : State) :
  wellFormed s →
  match checkMatch s with
  | Finished s' _ => matchedAreFlipped s'
  | Sleeps s' closure =>
      matchedAreFlipped s' ∧ matchedAreFlipped (checkMatch_afterDelay closure s')
  | Raises _ => False
  end.
Proof.
  intros Hwf. destruct (decide (length (flippedCards s) = 2)) as [Hlen|Hlen].
  - destruct (checkMatch_cases s Hwf Hlen) as [-> | ->].
    + apply matchedBoard_wellFormed, Hwf.
    + split; [apply Hwf|].
      apply (checkMatch_afterDelay_wellFormed (setIsChecking true s)).
      by apply (wellFormed_ext s).
  - unfold checkMatch. rewrite bool_decide_eq_false_2 by done. apply Hwf.
Qed.

(** C10.  Every matched card is face up: after [startNewGame] has dealt
    (no card is matched then); after [handleCardClick], whenever it held
    before; after either branch of the evaluation a click triggers; and so in
    every state reached from mounting the component. *)
Theorem C10_matched_cards_stay_face_up :
  (∀ (fetchedCards : list FetchedCard) (random : nat → nat) (s : State),
     matchedAreFlipped (result (startNewGame (Fulfilled fetchedCards) random s)).1)
  ∧ (∀ (s : State) (cardId : nat),
       matchedAreFlipped s → matchedAreFlipped (handleCardClick cardId s))
  ∧ (∀ (es : list Event) (cardId : nat),
       let w := run initialWorld es in
       cardId ∈ id <$> cards (ui w) →
       match checkMatch (handleCardClick cardId (ui w)) with
       | Finished s' _ => matchedAreFlipped s'
       | Sleeps s' closure =>
           matchedAreFlipped s'
           ∧ matchedAreFlipped (checkMatch_afterDelay closure s')
       | Raises _ => False
       end)
  ∧ (∀ es : list Event, matchedAreFlipped (ui (run initialWorld es))).
Proof.
  split; [|split; [|split]].
  - intros fetchedCards random s c Hc Hm. rewrite startNewGame_cards in Hc.
    simpl in Hc. rewrite shuffleArray_Permutation in Hc.
    apply pushCards_fresh in Hc as [_ Hc]. congruence.
  - intros s cardId. apply handleCardClick_matchedAreFlipped.
  - intros es cardId w Hin. apply checkMatch_matchedAreFlipped.
    apply handleCardClick_wellFormed; [|done]. apply reachable_consistent.
  - intros es. apply wf_matched, reachable_consistent.
Qed.

(** C2, as the code has it.  [handleCardClick] changes nothing when the
    card is already face up (a repeated click), when two cards are selected,
    or while a pair is being checked; such a click causes no render, so no
    evaluation follows and the component stays as it is.  For the id of a
    card of the board, in any state reached from mounting the component, the
    evaluation the click may trigger does not raise; and no run of the
    component ends a call of [checkMatch] with an exception. *)
Theorem C2_rejected_clicks_are_noops_and_evaluation_does_not_raise :
  (∀ (s : State) (cardId : nat),
     isChecking s = true ∨ length (flippedCards s) = 2 ∨ foundFlipped cardId s = true →
     handleCardClick cardId s = s)
  ∧ (∀ (s : State) (c : GameCard),
       NoDup (id <$> cards s) → c ∈ cards s → isFlipped c = true →
       handleCardClick (id c) s = s)
  ∧ (∀ (w : World) (cardId : nat),
       isChecking (ui w) = true ∨ length (flippedCards (ui w)) = 2
       ∨ foundFlipped cardId (ui w) = true →
       dispatch w (ClickCard cardId) = w)
  ∧ (∀ (es : list Event) (cardId : nat) (s' : State),
       let w := run initialWorld es in
       cardId ∈ id <$> cards (ui w) →
       checkMatch (handleCardClick cardId (ui w)) ≠ Raises s')
  ∧ (∀ es : list Event, unhandledRejection (run initialWorld es) = false).
Proof.
  split; [|split; [|split; [|split]]].
  - intros s cardId. apply handleCardClick_rejected.
  - intros s c Hnd Hc Hf. apply handleCardClick_rejected. right; right.
    by rewrite (foundFlipped_true (id c) s c).
  - intros w cardId H. by apply dispatch_rejected_click, handleCardClick_rejected.
  - intros es cardId s' w Hin Hr.
    assert (wellFormed (handleCardClick cardId (ui w))) as Hwf.
    { apply handleCardClick_wellFormed; [|done]. apply reachable_consistent. }
    apply checkMatch_matchedAreFlipped in Hwf. by rewrite Hr in Hwf.
  - intros es. apply c_no_rejection, reachable_consistent.
Qed.

(** ** Instances on a concrete game *)

(** C2 as stated fails for an id that matches no card: [handleCardClick]
    takes it for a card that is face down and selects it, and the evaluation
    of a pair with such an id reads [.pairId] of [undefined]. *)
Lemma C2_counterexample :
  let s := ui (run initialWorld [catDogDeal]) in
  (7 ∉ id <$> cards s)
  ∧ flippedCards (handleCardClick 7 s) = [7]
  ∧ handleCardClick 7 s ≠ s
  ∧ checkMatch (handleCardClick 0 (handleCardClick 7 s))
    = Raises (setIsChecking true (handleCardClick 0 (handleCardClick 7 s))).
Proof.
  repeat split.
  - compute_done.
  - intros H. apply (f_equal flippedCards) in H. vm_compute in H. discriminate.
Qed.

Lemma C2_rejected_clicks_are_noops_and_evaluation_does_not_raise_witness :
  let w := run initialWorld [catDogDeal; ClickCard 0] in
  handleCardClick 0 (ui w) = ui w
  ∧ dispatch w (ClickCard 0) = w
  ∧ checkMatch (handleCardClick 2 (ui w)) ≠ Raises (ui w).
Proof.
  split; [|split].
  - apply (proj1 C2_rejected_clicks_are_noops_and_evaluation_does_not_raise).
    right; right. reflexivity.
  - apply (proj1 (proj2 (proj2
             C2_rejected_clicks_are_noops_and_evaluation_does_not_raise))).
    right; right. reflexivity.
  - apply (proj1 (proj2 (proj2 (proj2
             C2_rejected_clicks_are_noops_and_evaluation_does_not_raise)))
             [catDogDeal; ClickCard 0] 2).
    compute_done.
Defined.

Lemma C8_at_most_two_selected_witness :
  let w := run initialWorld [catDogDeal; ClickCard 0; ClickCard 2] in
  dispatch w (ClickCard 1) = w
  ∧ (isChecking (ui w) = true ∧ timers w = [flippedCards (ui w)]
     ∧ flippedCards (ui (dispatch w TimeoutElapses)) = []).
Proof.
  split.
  - apply (proj1 (proj2 (proj2 C8_at_most_two_selected))). reflexivity.
  - apply (proj2 (proj2 (proj2 (proj2 C8_at_most_two_selected)))
             [catDogDeal; ClickCard 0; ClickCard 2]).
    reflexivity.
Defined.

Lemma C10_matched_cards_stay_face_up_witness :
  let w := run initialWorld [catDogDeal; ClickCard 0; ClickCard 1; ClickCard 3] in
  matchedAreFlipped (handleCardClick 2 (ui w))
  ∧ match checkMatch (handleCardClick 2 (ui w)) with
    | Finished s' _ => matchedAreFlipped s'
    | Sleeps s' closure =>
        matchedAreFlipped s' ∧ matchedAreFlipped (checkMatch_afterDelay closure s')
    | Raises _ => False
    end.
Proof.
  split.
  - apply (proj1 (proj2 C10_matched_cards_stay_face_up)).
    apply (proj2 (proj2 (proj2 C10_matched_cards_stay_face_up))
             [catDogDeal; ClickCard 0; ClickCard 1; ClickCard 3]).
  - apply (proj1 (proj2 (proj2 C10_matched_cards_stay_face_up))
             [catDogDeal; ClickCard 0; ClickCard 1; ClickCard 3] 2).
    compute_done.
Defined.

(** The run behind these instances: the "cat" pair is found, the "dog"
    pair completes the game. *)
Example catDog_game_is_won :
  let w := run initialWorld
             [catDogDeal; ClickCard 0; ClickCard 1; ClickCard 3; ClickCard 2] in
  gameState (ui w) = won ∧ forallb isMatched (cards (ui w)) = true
  ∧ fired w = [PlaySound "Match!"; PlaySound "Match!"; CompleteActivity].
Proof. vm_compute. auto. Qed.

End MemoryFacts.

(** * Failure of the content source during start *)

Module StartFacts.

(** C3, as the code has it.  When the content source fails, both pages
    catch the failure: the call of the start handler completes, with an
    error toast.  The blurry-image page is left in ['idle'].  The memory-game
    page is left in ['playing'], its fallback, with the cards it had and no
    card selected. *)
Theorem C3_failed_start_is_caught :
  (∀ (d : Blurry.Difficulty) (message : jsstring) (s : Blurry.State),
     ∃ s', Blurry.startNewChallenge d (Rejected message) s
           = Completes (s', [Toast "Falha ao carregar desafio"])
           ∧ Blurry.gameState s' = Blurry.idle
           ∧ Blurry.gameState s' ≠ Blurry.playing)
  ∧ (∀ (message : jsstring) (random : nat → nat) (s : Memory.State),
       ∃ s', Memory.startNewGame (Rejected message) random s
             = Completes (s', [Toast "Erro"])
             ∧ Memory.gameState s' = Memory.playing
             ∧ Memory.cards s' = Memory.cards s
             ∧ Memory.flippedCards s' = [])
  ∧ (∀ (es : list Memory.Event) (message : jsstring) (random : nat → nat),
       Memory.unhandledRejection
         (Memory.dispatch (Memory.run Memory.initialWorld es)
                          (Memory.CardsSettle (Rejected message) random)) = false).
Proof.
  split; [|split].
  - intros d message s. eexists. split; [reflexivity|]. by simpl.
  - intros message random s. eexists. split; [reflexivity|]. by simpl.
  - intros es message random.
    apply Memory.c_no_rejection, MemoryFacts.dispatch_consistent,
      MemoryFacts.reachable_consistent.
Qed.

(** C3 as stated fails for the memory game: after the content source has
    failed, the page is in ['playing']. *)
Lemma C3_counterexample :
  Memory.gameState
    (Memory.ui (Memory.dispatch Memory.initialWorld
                  (Memory.CardsSettle (Rejected (js "fetch failed")) (λ _, 0))))
  = Memory.playing.
Proof. reflexivity. Qed.

End StartFacts.

(** * More properties of the blurry-image page *)

Module BlurryRoundFacts.
Import Blurry BlurryRound.

Section Rounds.

Variable toLowerCase : jsstring → jsstring.

Local Abbreviation handleGuessSubmit := (Blurry.handleGuessSubmit toLowerCase).
Local Abbreviation dispatch := (Blurry.dispatch toLowerCase).
Local Abbreviation run := (Blurry.run toLowerCase).
Local Abbreviation submitGuess := (Blurry.submitGuess toLowerCase).
Local Abbreviation requestHint := (Blurry.requestHint toLowerCase).
Local Abbreviation isIncorrectGuess := (Blurry.isIncorrectGuess toLowerCase).

(** What a guess leaves alone. *)
Lemma handleGuessSubmit_frame (s : State) :
  let s' := (handleGuessSubmit s).1 in
  difficulty s' = difficulty s ∧ hintsUsed s' = hintsUsed s
  ∧ revealedIndices s' = revealedIndices s ∧ correctWord s' = correctWord s
  ∧ (gameState s ≠ idle → gameState s' ≠ idle).
Proof.
  destruct (BlurryFacts.handleGuessSubmit_cases toLowerCase s) as [->|[->|[_ ->]]];
    [done|done|].
  by destruct (2 <=? attempts s).
Qed.

(** What a hint leaves alone, and what it counts. *)
Lemma handleHint_frame (random : nat → nat) (s : State) :
  let s' := (handleHint random s).1 in
  difficulty s' = difficulty s ∧ gameState s' = gameState s
  ∧ (hintsUsed s ≤ size (revealedIndices s) → hintsUsed s' ≤ size (revealedIndices s')).
Proof.
  destruct (decide (unrevealedPositions s = [])) as [H|H].
  - by rewrite BlurryFacts.handleHint_nothing_left.
  - destruct (BlurryFacts.handleHint_reveals random s H) as (Hh & _ & _ & Hsize).
    split; [|split].
    + unfold handleHint. by case_bool_decide.
    + apply BlurryFacts.handleHint_gameState.
    + intros Hle. rewrite Hh, Hsize. unfold revealCount. lia.
Qed.

Lemma roundInv_initial : roundInv initialState.
Proof.
  split; simpl; done.
Qed.

Lemma roundInv_dispatch (s : State) (e : Event) :
  roundInv s → roundInv (dispatch s e).1.
Proof.
  intros [Ha Hd Hh Hr].
  pose proof (BlurryFacts.revealedInv_dispatch toLowerCase s e Hr) as Hr'.
  revert Hr'. unfold Blurry.dispatch, renderContent.
  destruct e as [d|[c|m]|v| |random| ]; destruct (gameState s) eqn:Hg;
    simpl; intros Hr';
    try (split; simpl; rewrite ?Hg; try done;
         try (intros _; by apply Hd); unfold maxAttempts in *; lia).
  - unfold guessInputDisabled in *. rewrite Hg in *. simpl in *.
    split; simpl; rewrite ?Hg; done.
  - destruct (submitButtonDisabled s).
    { split; simpl; rewrite ?Hg; done. }
    destruct (handleGuessSubmit_frame s) as (Hd' & Hh' & Hri' & _ & Hidle).
    split; [|intros _; rewrite Hd'; by apply Hd|by rewrite Hh', Hri'|done].
    destruct (BlurryFacts.handleGuessSubmit_cases toLowerCase s) as [->|[->|[_ ->]]];
      [by rewrite Hg|by simpl|].
    unfold maxAttempts in *.
    destruct (2 <=? attempts s) eqn:Hle; simpl; rewrite ?Hg.
    + apply Nat.leb_le in Hle. lia.
    + apply Nat.leb_gt in Hle. lia.
  - destruct (hintButtonDisabled s).
    { split; simpl; rewrite ?Hg; done. }
    destruct (handleHint_frame random s) as (Hd' & Hg' & Hh').
    split; [|intros _; rewrite Hd'; by apply Hd|by apply Hh'|done].
    rewrite Hg'.
    destruct (BlurryFacts.handleHint_gameState random s) as (_ & -> & _).
    by rewrite Hg.
  - destruct (difficulty s) as [d|] eqn:Hdiff.
    + split; simpl; rewrite ?Hg; done.
    + by destruct Hd as [x Hx].
  - destruct (difficulty s) as [d|] eqn:Hdiff.
    + split; simpl; rewrite ?Hg; done.
    + by destruct Hd as [x Hx].
Qed.

Lemma roundInv_run (es : list Event) : roundInv (run initialState es).
Proof.
  assert (∀ s, roundInv s → roundInv (run s es)) as H.
  { induction es as [|e es IH]; intros s Hs; [done|].
    simpl. apply IH. by apply roundInv_dispatch. }
  apply H, roundInv_initial.
Qed.

(** ** Attempts and blur *)

(** X1.  In every state reached from the first render at most
    [maxAttempts] attempts are counted, and the round is ['lost'] exactly
    when [maxAttempts] are. *)
Theorem X1_lost_iff_attempts_used_up (es : list Event) :
  let s := run initialState es in
  attempts s ≤ maxAttempts ∧ (gameState s = lost ↔ attempts s = maxAttempts).
Proof.
  intros s. pose proof (ri_attempts s (roundInv_run es)) as Ha.
  unfold maxAttempts in *.
  destruct (gameState s); (split; [lia|]); split; intros H;
    first [done | lia | exfalso; lia].
Qed.

(** X2.  While a round is being played the image is blurred by
    [24 - 8 * attempts] pixels, which is at least 8: it is never sharp before
    the round is over.  A wrong guess takes exactly 8 pixels off, and in a
    lost round the blur is 0. *)
Theorem X2_blurLevel_steps (es : list Event) :
  let s := run initialState es in
  (gameState s = playing →
   blurLevel s = 24 - 8 * attempts s ∧ 8 ≤ blurLevel s
   ∧ ∀ guess, isIncorrectGuess (correctWord s) guess = true →
              blurLevel (submitGuess guess s).1 = blurLevel s - 8)
  ∧ (gameState s = lost → blurLevel s = 0).
Proof.
  intros s. pose proof (ri_attempts s (roundInv_run es)) as Ha.
  unfold blurLevel, maxAttempts in *. split.
  - intros Hp. rewrite Hp in Ha. split; [lia|]. split; [lia|].
    intros guess Hw.
    rewrite (BlurryFacts.submitGuess_incorrect toLowerCase s guess Hp Hw).
    cbv zeta. destruct (2 <=? attempts s); simpl; lia.
  - intros Hl. rewrite Hl in Ha. lia.
Qed.

(** ** Hints *)

(** With nothing left to reveal the hint button is disabled, in any
    state. *)
Lemma hintButton_disabled (s : State) :
  unrevealedPositions s = [] → hintButtonDisabled s = true.
Proof.
  intros Hnil. unfold hintButtonDisabled. apply bool_decide_eq_true_2.
  rewrite <- BlurryFacts.nonSpacePositions_length.
  rewrite <- (size_list_to_set (C:=gset nat))
    by apply NoDup_filter, NoDup_seq.
  apply subseteq_size. intros i Hi.
  apply elem_of_list_to_set, list_elem_of_filter in Hi as [Hsp Hi].
  apply elem_of_seq in Hi.
  apply (proj2 (BlurryFacts.allRevealed_unrevealedPositions s) Hnil); [lia|done].
Qed.

(** X3.  In every state reached from the first render the hint button is
    disabled exactly when [handleHint] would find nothing to reveal: a click
    on the enabled button always reveals a letter. *)
Theorem X3_hint_button_disabled_iff_nothing_left (es : list Event) :
  let s := run initialState es in
  hintButtonDisabled s = true ↔ unrevealedPositions s = [].
Proof.
  intros s. split.
  - intros Hd. destruct (decide (unrevealedPositions s = [])) as [|Hne]; [done|].
    rewrite (BlurryFacts.hintButton_enabled s) in Hd; [done| |done].
    apply ri_revealed, roundInv_run.
  - apply hintButton_disabled.
Qed.

(** X4.  In every state reached from the first render, no more hints are
    counted than letters are revealed, and no more letters are revealed than
    the word has positions that hold no space. *)
Theorem X4_hints_counted_reveal_letters (es : list Event) :
  let s := run initialState es in
  hintsUsed s ≤ size (revealedIndices s)
  ∧ size (revealedIndices s) ≤ length (nonSpacePositions (correctWord s)).
Proof.
  intros s. pose proof (roundInv_run es) as Hinv. fold s in Hinv. split.
  - apply Hinv.
  - rewrite <- (size_list_to_set (C:=gset nat))
      by apply NoDup_filter, NoDup_seq.
    apply subseteq_size. intros i Hi.
    apply elem_of_list_to_set. by apply (ri_revealed s Hinv).
Qed.

(** After a hint, the positions still unrevealed are the former ones
    without those the hint revealed. *)
Lemma unrevealedPositions_after_hint (random : nat → nat) (s : State) :
  unrevealedPositions (handleHint random s).1
  = filter (λ i, i ∉ revealedIndices (handleHint random s).1) (unrevealedPositions s).
Proof.
  pose proof (BlurryFacts.handleHint_grows random s) as Hinc.
  destruct (BlurryFacts.handleHint_gameState random s) as (_ & _ & Hw).
  unfold unrevealedPositions. rewrite Hw, list_filter_filter.
  apply list_filter_iff. intros i. split.
  - intros [Hni Hsp]. split; [done|]. split; [|done].
    intros Hi. by apply Hni, Hinc.
  - intros [Hni [_ Hsp]]. done.
Qed.

(** A hint that finds something to reveal leaves [revealCount] fewer
    positions to reveal. *)
Lemma remaining_after_hint (random : nat → nat) (s : State) :
  unrevealedPositions s ≠ [] →
  remaining (handleHint random s).1 = remaining s - revealCount (remaining s).
Proof.
  intros Hne. unfold remaining at 1. rewrite unrevealedPositions_after_hint.
  destruct (BlurryFacts.handleHint_reveals random s Hne) as (_ & Hinc & Hfrom & Hsize).
  set (R' := revealedIndices (handleHint random s).1) in *.
  set (U := unrevealedPositions s) in *.
  pose proof (BlurryFacts.unrevealedPositions_NoDup s) as Hnd. fold U in Hnd.
  assert (length (filter (λ i, i ∈ R') U) = revealCount (remaining s)) as Hin.
  { rewrite <- (size_list_to_set (C:=gset nat)) by by apply NoDup_filter.
    assert (list_to_set (filter (λ i, i ∈ R') U) = R' ∖ revealedIndices s) as ->.
    { apply set_eq. intros i.
      rewrite elem_of_list_to_set, list_elem_of_filter, elem_of_difference.
      split.
      - intros [Hi HU]. split; [done|].
        by apply BlurryFacts.unrevealedPositions_spec in HU as (_ & ? & _).
      - intros [Hi Hni]. split; [done|]. by destruct (Hfrom i Hi). }
    rewrite size_difference by done. unfold remaining. fold U. lia. }
  pose proof (filter_app_complement (λ i, i ∈ R') U) as Hperm.
  apply Permutation_length in Hperm. rewrite length_app, Hin in Hperm.
  unfold remaining in *. subst U R'. lia.
Qed.

Lemma remaining_hints (randoms : list (nat → nat)) :
  ∀ s, remaining (hints randoms s) ≤ remaining s - length randoms.
Proof.
  induction randoms as [|random randoms IH]; intros s; [simpl; lia|].
  simpl. etrans; [apply IH|].
  destruct (decide (unrevealedPositions s = [])) as [Hnil|Hne].
  - rewrite BlurryFacts.handleHint_nothing_left by done. simpl.
    unfold remaining. rewrite Hnil. simpl. lia.
  - rewrite remaining_after_hint by done.
    assert (1 ≤ remaining s).
    { unfold remaining. destruct (unrevealedPositions s); [done|simpl; lia]. }
    pose proof (BlurryFacts.revealCount_bounds (remaining s)). lia.
Qed.

(** X5.  A hint that finds [n ≥ 1] positions to reveal leaves
    [n - max(1, floor(n / 4))] of them; so after as many calls as there were
    positions to reveal, whatever the draws, every letter is revealed and the
    hint button is disabled. *)
Theorem X5_hints_run_out :
  (∀ (random : nat → nat) (s : State),
     1 ≤ remaining s →
     remaining (handleHint random s).1 = remaining s - 1 `max` (remaining s / 4))
  ∧ (∀ (randoms : list (nat → nat)) (s : State),
       remaining s ≤ length randoms →
       allRevealed (hints randoms s) ∧ hintButtonDisabled (hints randoms s) = true).
Proof.
  split.
  - intros random s Hn. apply remaining_after_hint.
    intros H. unfold remaining in Hn. rewrite H in Hn. simpl in Hn. lia.
  - intros randoms s Hlen.
    assert (unrevealedPositions (hints randoms s) = []) as Hnil.
    { apply length_zero_iff_nil. pose proof (remaining_hints randoms s).
      unfold remaining in *. lia. }
    split; [by apply BlurryFacts.allRevealed_unrevealedPositions|].
    by apply hintButton_disabled.
Qed.

(** ** Playing again *)

(** X6.  In every state reached from the first render in which a round is
    over, a difficulty is set, so that "Jogar Novamente" does start a
    challenge; when the challenge arrives, the round is fresh at that
    difficulty: no attempt, no hint, nothing revealed, an empty guess. *)
Theorem X6_play_again_starts_fresh_round (es : list Event) (c : Challenge) :
  let s := run initialState es in
  gameState s = correct ∨ gameState s = lost →
  ∃ d, difficulty s = Some d
       ∧ gameState (dispatch s ClickPlayAgain).1 = loading
       ∧ run s [ClickPlayAgain; ChallengeSettles (Fulfilled c)] = freshRound d c.
Proof.
  intros s Hover.
  destruct (ri_difficulty s (roundInv_run es)) as [d Hd].
  { destruct Hover as [H|H]; rewrite H; done. }
  exists d. split; [done|].
  unfold Blurry.run, Blurry.dispatch, renderContent. simpl.
  destruct Hover as [H|H]; rewrite H, Hd; simpl; done.
Qed.

End Rounds.

(** ** Instances on concrete rounds *)

Lemma X2_blurLevel_steps_witness :
  let s := Blurry.run asciiToLowerCase initialState
             [ClickDifficulty Easy;
              ChallengeSettles (Fulfilled (mkChallenge (js "u") (js "dragon")));
              ChangeGuess (js "bird"); SubmitForm] in
  blurLevel s = 16
  ∧ blurLevel (Blurry.submitGuess asciiToLowerCase (js "snake") s).1 = blurLevel s - 8.
Proof.
  destruct (proj1 (X2_blurLevel_steps asciiToLowerCase
                     [ClickDifficulty Easy;
                      ChallengeSettles (Fulfilled (mkChallenge (js "u") (js "dragon")));
                      ChangeGuess (js "bird"); SubmitForm]) eq_refl)
    as (Hb & _ & Hstep).
  split; [exact Hb|]. apply Hstep. reflexivity.
Defined.

Lemma X5_hints_run_out_witness :
  remaining (handleHint (λ k, 3 * k + 5) iceCreamRound).1 = 8 - 1 `max` (8 / 4)
  ∧ allRevealed (hints (replicate 8 (λ k, 3 * k + 5)) iceCreamRound).
Proof.
  split.
  - apply (proj1 X5_hints_run_out (λ k, 3 * k + 5) iceCreamRound).
    vm_compute. lia.
  - apply (proj2 X5_hints_run_out (replicate 8 (λ k, 3 * k + 5)) iceCreamRound).
    vm_compute. lia.
Defined.

Lemma X6_play_again_starts_fresh_round_witness :
  ∃ d, difficulty dragonLost = Some d
       ∧ gameState (Blurry.dispatch asciiToLowerCase dragonLost ClickPlayAgain).1 = loading
       ∧ Blurry.run asciiToLowerCase dragonLost
           [ClickPlayAgain;
            ChallengeSettles (Fulfilled (mkChallenge (js "v") (js "castle")))]
         = freshRound d (mkChallenge (js "v") (js "castle")).
Proof.
  apply (X6_play_again_starts_fresh_round asciiToLowerCase dragonLostRun
           (mkChallenge (js "v") (js "castle"))).
  right. reflexivity.
Defined.

End BlurryRoundFacts.


(** * More properties of the memory game *)

Module MemoryBoardFacts.
Import Memory MemoryBoard.

(** ** The deal *)

Lemma pushCards_entry (fetchedCards : list FetchedCard) :
  ∀ index c, c ∈ pushCards index fetchedCards →
    ∃ k f, fetchedCards !! k = Some f
      ∧ (c = mkGameCard ((index + k) * 2) word (fetched_word f) (fetched_word f)
                        false false
         ∨ c = mkGameCard ((index + k) * 2 + 1) image (fetched_imageUrl f)
                          (fetched_word f) false false).
Proof.
  induction fetchedCards as [|f l IH]; intros index c Hc; simpl in Hc.
  - by apply elem_of_nil in Hc.
  - apply elem_of_cons in Hc as [-> |Hc]; [|apply elem_of_cons in Hc as [-> |Hc]].
    + exists 0, f. split; [done|]. left. by rewrite Nat.add_0_r.
    + exists 0, f. split; [done|]. right. by rewrite Nat.add_0_r.
    + destruct (IH _ _ Hc) as (k & f' & Hk & Hcase).
      exists (S k), f'. split; [done|].
      by replace (index + S k) with (S index + k) by lia.
Qed.

Lemma even_double (k : nat) : Nat.even (k * 2) = true.
Proof. replace (k * 2) with (0 + 2 * k) by lia. by rewrite Nat.even_add_mul_2. Qed.

Lemma even_double_succ (k : nat) : Nat.even (k * 2 + 1) = false.
Proof. replace (k * 2 + 1) with (1 + 2 * k) by lia. by rewrite Nat.even_add_mul_2. Qed.

Lemma half_double_succ (k : nat) : (k * 2 + 1) / 2 = k.
Proof. rewrite Nat.div_add_l by lia. simpl. lia. Qed.

(** X7 ([startNewGame], [shuffleArray]): the cards of a deal carry the ids
    0, 1, ..., 2n-1, each once, for the n pairs fetched; the card with id i
    is built from entry i/2 of what was fetched, as its word when i is even
    and as its image when i is odd, whatever the shuffle did. *)
Theorem X7_dealt_card_is_told_by_its_id (fetchedCards : list FetchedCard)
    (random : nat → nat) (s : State) :
  let cs := cards (result (startNewGame (Fulfilled fetchedCards) random s)).1 in
  NoDup (id <$> cs)
  ∧ (∀ i, i ∈ id <$> cs ↔ i < 2 * length fetchedCards)
  ∧ (∀ c, c ∈ cs →
       ∃ f, fetchedCards !! (id c / 2) = Some f
         ∧ pairId c = fetched_word f
         ∧ type c = (if Nat.even (id c) then word else image)
         ∧ content c = (if Nat.even (id c) then fetched_word f
                        else fetched_imageUrl f)).
Proof.
  rewrite MemoryFacts.startNewGame_cards. cbv zeta. cbn [result fst cards].
  pose proof (MemoryFacts.shuffleArray_Permutation random (pushCards 0 fetchedCards))
    as Hperm.
  assert (id <$> shuffleArray random (pushCards 0 fetchedCards)
          ≡ₚ seq 0 (2 * length fetchedCards)) as Hids.
  { pose proof (MemoryFacts.pushCards_ids fetchedCards 0) as Hp.
    change (0 * 2) with 0 in Hp. rewrite <- Hp. by apply fmap_Permutation. }
  split; [|split].
  - rewrite Hids. apply NoDup_seq.
  - intros i. rewrite Hids, elem_of_seq. lia.
  - intros c Hc. rewrite Hperm in Hc.
    destruct (pushCards_entry _ _ _ Hc) as (k & f & Hk & [-> | ->]);
      cbn [id pairId type content]; change (0 + k) with k; exists f.
    + by rewrite Nat.div_mul, even_double.
    + by rewrite half_double_succ, even_double_succ.
Qed.

(** ** The shape of a step *)

Lemma checkMatch_shape (s : State) :
  checkMatch s = Finished s []
  ∨ checkMatch s = Finished (matchedBoard s) [PlaySound "Match!"]
  ∨ checkMatch s = Sleeps (setIsChecking true s) (flippedCards s)
  ∨ checkMatch s = Raises (setIsChecking true s).
Proof.
  unfold checkMatch. case_bool_decide; simpl; [|by left].
  destruct (filter _ (cards s)) as [|c1 [|c2 rest]]; [by do 3 right..|].
  destruct (strictEq _ _); [right; by left|do 2 right; by left].
Qed.

Lemma completeGame_shape (prev s : State) :
  effect_completeGame prev s = (s, [])
  ∨ (allMatched s = true ∧ allMatched prev ≠ allMatched s
     ∧ effect_completeGame prev s = (setGameState won s, [CompleteActivity])).
Proof.
  unfold effect_completeGame. case_bool_decide; [by left|].
  destruct (allMatched s) eqn:Hall; [by right|by left].
Qed.

(** After a render the component shows what the handler left, or the board
    with the selected pair marked, or the board locked for the delay; and on
    top of the first two, the trophy when the cards have just become all
    matched. *)
Lemma afterRender_shape (prev next : State) (w : World) :
  ∃ s fx,
    (s = next ∧ fx = []
     ∨ s = matchedBoard next ∧ fx = [PlaySound "Match!"]
     ∨ s = setIsChecking true next ∧ fx = [])
    ∧ (ui (afterRender prev next w) = s
       ∧ fired (afterRender prev next w) = fired w ++ fx
       ∨ allMatched s = true ∧ allMatched prev ≠ allMatched s
         ∧ ui (afterRender prev next w) = setGameState won s
         ∧ fired (afterRender prev next w) = fired w ++ fx ++ [CompleteActivity]).
Proof.
  unfold afterRender.
  assert (effect_checkMatch prev next = Finished next []
          ∨ effect_checkMatch prev next = checkMatch next) as [-> | ->].
  { unfold effect_checkMatch. repeat case_bool_decide; auto. }
  2: destruct (checkMatch_shape next) as [-> |[-> |[-> | ->]]].
  1, 2: destruct (completeGame_shape prev next) as [-> |(? & ? & ->)];
    exists next, []; simpl; rewrite ?app_nil_r; auto 10.
  - destruct (completeGame_shape prev (matchedBoard next)) as [-> |(? & ? & ->)];
      exists (matchedBoard next), [PlaySound "Match!"]; simpl;
      rewrite ?app_nil_r; auto 10.
  - exists (setIsChecking true next), []. simpl. rewrite app_nil_r. auto 10.
  - exists (setIsChecking true next), []. simpl. rewrite app_nil_r. auto 10.
Qed.

(** Without a selection to evaluate and with [allMatched] as it was, no
    effect does anything. *)
Lemma afterRender_quiet (prev next : State) (w : World) :
  length (flippedCards next) ≠ 2 → allMatched prev = allMatched next →
  afterRender prev next w
  = mkWorld next (timers w) (unhandledRejection w) (fired w).
Proof.
  intros Hlen Hall. unfold afterRender, effect_checkMatch, effect_completeGame.
  rewrite (bool_decide_eq_false_2 (length (flippedCards next) = 2)) by done.
  assert ((if bool_decide (flippedCards prev = flippedCards next
                           ∧ cards prev = cards next)
           then Finished next [] else Finished next []) = Finished next []) as ->.
  { by case_bool_decide. }
  rewrite bool_decide_eq_true_2 by done. by rewrite !app_nil_r.
Qed.

Lemma faceUp_matchedBoard (s : State) :
  faceUpAccounted s → faceUpAccounted (matchedBoard s).
Proof.
  intros HF c' Hc' Hup. simpl in Hc'.
  apply list_elem_of_fmap in Hc' as (c & -> & Hc). left.
  destruct (includes (flippedCards s) (id c)) eqn:Hinc; [done|].
  destruct (HF c Hc Hup) as [Hm|Hsel]; [done|].
  apply bool_decide_eq_false in Hinc. done.
Qed.

Lemma afterRender_faceUp (prev next : State) (w : World) :
  faceUpAccounted next → faceUpAccounted (ui (afterRender prev next w)).
Proof.
  intros HF. destruct (afterRender_shape prev next w) as (s & fx & Hs & Hui).
  assert (faceUpAccounted s) as HFs.
  { destruct Hs as [[-> _]|[[-> _]|[-> _]]];
      [done|by apply faceUp_matchedBoard|exact HF]. }
  destruct Hui as [[-> _]|(_ & _ & -> & _)]; exact HFs.
Qed.

Lemma afterRender_gameState (prev next : State) (w : World) :
  gameState (ui (afterRender prev next w)) = gameState next
  ∨ gameState (ui (afterRender prev next w)) = won.
Proof.
  destruct (afterRender_shape prev next w) as (s & fx & Hs & Hui).
  destruct Hui as [[-> _]|(_ & _ & -> & _)]; [left|by right].
  by destruct Hs as [[-> _]|[[-> _]|[-> _]]].
Qed.

Lemma afterRender_won (prev next : State) (w : World) :
  gameState next ≠ won → wonWhenAllMatched (ui (afterRender prev next w)).
Proof.
  intros Hg. destruct (afterRender_shape prev next w) as (s & fx & Hs & Hui).
  destruct Hui as [[-> _]|(Hall & _ & -> & _)]; [|by intros _].
  intros Hwon. destruct Hs as [[-> _]|[[-> _]|[-> _]]]; done.
Qed.

Lemma afterRender_fired (prev next : State) (w : World) :
  gameState next ≠ won →
  ∃ fx, fired (afterRender prev next w) = fired w ++ fx
    ∧ (CompleteActivity ∈ fx ↔ gameState (ui (afterRender prev next w)) = won).
Proof.
  intros Hg. destruct (afterRender_shape prev next w) as (s & fx & Hs & Hui).
  assert (gameState s = gameState next ∧ CompleteActivity ∉ fx) as [Hgs Hfx].
  { destruct Hs as [[-> ->]|[[-> ->]|[-> ->]]]; (split; [done|]);
      rewrite ?elem_of_nil, ?list_elem_of_singleton; naive_solver. }
  destruct Hui as [[-> ->]|(_ & _ & -> & ->)].
  - exists fx. split; [done|]. split; [done|]. congruence.
  - exists (fx ++ [CompleteActivity]). split; [done|]. split; [done|].
    intros _. apply elem_of_app. right. by apply list_elem_of_singleton.
Qed.

Lemma flagsOnly_same : flagsOnly (λ c, c).
Proof. by intros c. Qed.

Lemma flagsOnly_compose (g h : GameCard → GameCard) :
  flagsOnly g → flagsOnly h → flagsOnly (λ c, h (g c)).
Proof.
  intros Hg Hh c. destruct (Hg c) as [Hf Hm], (Hh (g c)) as [Hf' Hm'].
  split; [congruence|auto].
Qed.

Lemma afterRender_flags (prev next : State) (w : World) :
  ∃ g, flagsOnly g ∧ cards (ui (afterRender prev next w)) = g <$> cards next.
Proof.
  destruct (afterRender_shape prev next w) as (s & fx & Hs & Hui).
  assert (∃ g, flagsOnly g ∧ cards s = g <$> cards next) as (g & Hg & Hc).
  { destruct Hs as [[-> _]|[[-> _]|[-> _]]].
    - exists (λ c, c). split; [apply flagsOnly_same|]. by rewrite list_fmap_id.
    - eexists. split; [|done].
      intros c. by destruct (includes (flippedCards next) (id c)).
    - exists (λ c, c). split; [apply flagsOnly_same|]. simpl. by rewrite list_fmap_id. }
  exists g. split; [done|].
  by destruct Hui as [[-> _]|(_ & _ & -> & _)].
Qed.

(** ** Steps of the mounted component *)

Lemma dispatch_timeout (w : World) :
  dispatch w TimeoutElapses
  = match timers w with
    | closure :: rest =>
        afterRender (ui w) (checkMatch_afterDelay closure (ui w))
                    (mkWorld (ui w) rest (unhandledRejection w) (fired w))
    | [] => w
    end.
Proof. unfold dispatch. by destruct (gameState (ui w)). Qed.

Lemma handleCardClick_gameState (cardId : nat) (s : State) :
  gameState (handleCardClick cardId s) = gameState s.
Proof.
  by destruct (MemoryFacts.handleCardClick_cases cardId s) as [-> |(_ & _ & _ & ->)].
Qed.

Lemma handleCardClick_faceUp (cardId : nat) (s : State) :
  faceUpAccounted s → faceUpAccounted (handleCardClick cardId s).
Proof.
  intros HF.
  destruct (MemoryFacts.handleCardClick_cases cardId s) as [-> |(_ & _ & _ & ->)];
    [done|].
  intros c' Hc' Hup. simpl in *.
  apply list_elem_of_fmap in Hc' as (c & -> & Hc).
  rewrite elem_of_app, list_elem_of_singleton.
  destruct (id c =? cardId) eqn:Hid.
  - right. right. simpl. by apply Nat.eqb_eq.
  - destruct (HF c Hc Hup); auto.
Qed.

Lemma handleCardClick_flags (cardId : nat) (s : State) :
  ∃ g, flagsOnly g ∧ cards (handleCardClick cardId s) = g <$> cards s.
Proof.
  destruct (MemoryFacts.handleCardClick_cases cardId s) as [-> |(_ & _ & _ & ->)].
  - exists (λ c, c). split; [apply flagsOnly_same|]. by rewrite list_fmap_id.
  - eexists. split; [|done]. intros c. by destruct (id c =? cardId).
Qed.

Lemma afterDelay_faceUp (s : State) :
  faceUpAccounted s → faceUpAccounted (checkMatch_afterDelay (flippedCards s) s).
Proof.
  intros HF c' Hc' Hup. simpl in *.
  apply list_elem_of_fmap in Hc' as (c & -> & Hc). left.
  destruct (includes (flippedCards s) (id c)) eqn:Hinc; [done|].
  destruct (HF c Hc Hup) as [Hm|Hsel]; [done|].
  by apply bool_decide_eq_false in Hinc.
Qed.

Lemma timers_closure (w : World) (closure : list nat) (rest : list (list nat)) :
  consistent w → timers w = closure :: rest →
  closure = flippedCards (ui w) ∧ rest = []
  ∧ isChecking (ui w) = true ∧ gameState (ui w) = playing.
Proof.
  intros Hw Ht. pose proof (c_timers w Hw) as Hc. rewrite Ht in Hc.
  destruct (isChecking (ui w)) eqn:Hchk; [|done].
  injection Hc as -> ->. by destruct (c_checking w Hw Hchk).
Qed.

Lemma fresh_faceUp (l : list GameCard) (sel : list nat) (g : GameState) (b : bool) :
  (∀ c, c ∈ l → isFlipped c = false) → faceUpAccounted (mkState l sel g b).
Proof. intros Hl c Hc Hup. simpl in Hc. rewrite (Hl c Hc) in Hup. done. Qed.

(** A step of the component is nothing at all, or a handler followed by the
    effects of the render it caused. *)
Lemma dispatch_cases (w : World) (e : Event) :
  dispatch w e = w
  ∨ ∃ next w0 fx0,
      dispatch w e = afterRender (ui w) next w0
      ∧ fired w0 = fired w ++ fx0
      ∧ (CompleteActivity ∉ fx0)
      ∧ (keepsDeal e = true → ∃ g, flagsOnly g ∧ cards next = g <$> cards (ui w))
      ∧ (consistent w →
         gameState next ≠ won
         ∧ (faceUpAccounted (ui w) → faceUpAccounted next)
         ∧ (gameState (ui w) = won →
            flippedCards next = [] ∧ cards next = cards (ui w))).
Proof.
  destruct e as [cardId| |fetched random| ].
  - unfold dispatch. destruct (gameState (ui w)) eqn:Hg; try by left.
    case_bool_decide; [|by left]. right.
    exists (handleCardClick cardId (ui w)), w, [].
    rewrite app_nil_r, handleCardClick_gameState, Hg.
    split_and!; try done.
    + apply not_elem_of_nil.
    + intros _. apply handleCardClick_flags.
    + intros _. split_and!; try done. apply handleCardClick_faceUp.
  - rewrite dispatch_timeout. destruct (timers w) as [|closure rest] eqn:Ht; [by left|].
    right. eexists _, _, []. split; [done|]. simpl. rewrite app_nil_r.
    split_and!; try done.
    + apply not_elem_of_nil.
    + intros _. eexists. split; [|done].
      intros c. by destruct (includes closure (id c)).
    + intros Hw. destruct (timers_closure w closure rest Hw Ht) as (-> & _ & _ & Hg).
      rewrite Hg. split_and!; try done. apply afterDelay_faceUp.
  - unfold dispatch. destruct (gameState (ui w)) eqn:Hg; try by left.
    right. destruct fetched as [fetchedCards|message]; simpl.
    + eexists _, _, []. split; [done|]. simpl. rewrite app_nil_r.
      split_and!; try done; [apply not_elem_of_nil|].
      intros _. split_and!; try done. intros _. apply fresh_faceUp.
      intros c Hc. simpl in Hc.
      rewrite (MemoryFacts.shuffleArray_Permutation random _) in Hc.
      by destruct (MemoryFacts.pushCards_fresh _ _ _ Hc).
    + eexists _, _, [Toast "Erro"]. split; [done|]. simpl.
      split_and!; try done.
      * rewrite list_elem_of_singleton. done.
      * intros _. exists (λ c, c). split; [apply flagsOnly_same|].
        by rewrite list_fmap_id.
  - unfold dispatch. destruct (gameState (ui w)) eqn:Hg; try by left.
    right. exists (startNewGame_request (ui w)), w, [].
    rewrite app_nil_r. split_and!; try done.
    + apply not_elem_of_nil.
    + intros _. exists (λ c, c). split; [apply flagsOnly_same|].
      simpl. by rewrite list_fmap_id.
    + intros Hw. split_and!; try done.
      intros HF c Hc Hup. destruct (HF c Hc Hup) as [Hm|Hsel]; [by left|].
      rewrite (c_cleared w Hw) in Hsel by congruence. by apply elem_of_nil in Hsel.
Qed.

Lemma initialWorld_settled : settled initialWorld.
Proof.
  split; [apply MemoryFacts.initialWorld_consistent| |done].
  intros c Hc. by apply elem_of_nil in Hc.
Qed.

Lemma dispatch_settled (w : World) (e : Event) : settled w → settled (dispatch w e).
Proof.
  intros [Hw HF HW].
  pose proof (MemoryFacts.dispatch_consistent w e Hw) as Hw'.
  destruct (dispatch_cases w e) as [-> |(next & w0 & fx0 & Heq & _ & _ & _ & Hnext)];
    [done|].
  rewrite Heq in *. destruct (Hnext Hw) as (Hg & HF' & _).
  split; [done| |].
  - by apply afterRender_faceUp, HF'.
  - by apply afterRender_won.
Qed.

Lemma run_settled (es : list Event) (w : World) : settled w → settled (run w es).
Proof.
  revert w. induction es as [|e es IH]; intros w Hw; [done|].
  simpl. apply IH. by apply dispatch_settled.
Qed.

Lemma reachable_settled (es : list Event) : settled (run initialWorld es).
Proof. apply run_settled, initialWorld_settled. Qed.

Lemma allMatched_cards (s : State) (c : GameCard) :
  allMatched s = true → c ∈ cards s → isMatched c = true.
Proof.
  unfold allMatched. intros Hall Hc. apply andb_prop in Hall as [_ Hall].
  rewrite forallb_forall in Hall. apply Hall. by apply list_elem_of_In.
Qed.

(** X8 (the component as a whole): in every state the game goes through, a
    card is face up exactly when it is matched or selected, and never both
    matched and selected. *)
Theorem X8_face_up_iff_matched_or_selected (es : list Event) (c : GameCard) :
  let s := ui (run initialWorld es) in
  c ∈ cards s →
  (isFlipped c = true ↔ isMatched c = true ∨ id c ∈ flippedCards s)
  ∧ ¬ (isMatched c = true ∧ id c ∈ flippedCards s).
Proof.
  intros s Hc. destruct (reachable_settled es) as [Hw HF _].
  pose proof (c_wellFormed _ Hw) as Hwf. fold s in HF, Hwf.
  split; [split|].
  - by apply HF.
  - intros [Hm|Hsel]; [by apply (wf_matched s Hwf)|].
    by destruct (MemoryFacts.selected_card s c Hwf Hc Hsel).
  - intros [Hm Hsel].
    destruct (MemoryFacts.selected_card s c Hwf Hc Hsel). congruence.
Qed.

(** X9 ([handleCardClick], [checkMatch], the fallback of [startNewGame],
    "Jogar Novamente"): apart from the arrival of a new deal, a step leaves
    every card in its place with its id, type, content and pair, and never
    takes [isMatched] back. *)
Theorem X9_cards_keep_place_and_face (w : World) (e : Event) :
  keepsDeal e = true →
  Forall2 (λ c c', face c' = face c ∧ (isMatched c = true → isMatched c' = true))
          (cards (ui w)) (cards (ui (dispatch w e))).
Proof.
  intros He.
  assert (∃ g, flagsOnly g ∧ cards (ui (dispatch w e)) = g <$> cards (ui w))
    as (g & Hg & ->).
  { destruct (dispatch_cases w e) as [-> |(next & w0 & fx0 & -> & _ & _ & Hflags & _)].
    - exists (λ c, c). split; [apply flagsOnly_same|]. by rewrite list_fmap_id.
    - destruct (Hflags He) as (g1 & Hg1 & Hc1).
      destruct (afterRender_flags (ui w) next w0) as (g2 & Hg2 & ->).
      exists (λ c, g2 (g1 c)). split; [by apply flagsOnly_compose|].
      by rewrite Hc1, <- list_fmap_compose. }
  apply Forall2_fmap_r, Forall_Forall2_diag, Forall_forall.
  intros c _. apply Hg.
Qed.

(** X10 ([completeGame], the component as a whole): whenever the trophy is
    shown, every card is matched and face up, nothing is selected and no
    evaluation is pending. *)
Theorem X10_trophy_means_all_matched (es : list Event) :
  let w := run initialWorld es in
  gameState (ui w) = won →
  allMatched (ui w) = true
  ∧ (∀ c, c ∈ cards (ui w) → isMatched c = true ∧ isFlipped c = true)
  ∧ flippedCards (ui w) = [] ∧ isChecking (ui w) = false ∧ timers w = [].
Proof.
  intros w Hg. destruct (reachable_settled es) as [Hw _ HW]. fold w in Hw, HW.
  pose proof (HW Hg) as Hall.
  assert (isChecking (ui w) = false) as Hchk.
  { destruct (isChecking (ui w)) eqn:Hchk; [|done].
    destruct (c_checking w Hw Hchk). congruence. }
  split_and!; try done.
  - intros c Hc. pose proof (allMatched_cards _ _ Hall Hc) as Hm.
    split; [done|]. by apply (wf_matched _ (c_wellFormed w Hw)).
  - apply (c_cleared w Hw). congruence.
  - by rewrite (c_timers w Hw), Hchk.
Qed.

(** X11 ([handleCardClick], the fallback of [startNewGame]): once every
    card is matched nothing is selected, and clicks on cards and timers
    change nothing; if such a board is shown in ['playing'], which is where
    a failed replay leaves the game, no event changes it any more. *)
Theorem X11_all_matched_board_is_dead (es : list Event) :
  let w := run initialWorld es in
  allMatched (ui w) = true →
  flippedCards (ui w) = []
  ∧ (∀ cardId, dispatch w (ClickCard cardId) = w)
  ∧ dispatch w TimeoutElapses = w
  ∧ (gameState (ui w) = playing → ∀ e, dispatch w e = w).
Proof.
  intros w Hall. pose proof (MemoryFacts.reachable_consistent es) as Hw. fold w in Hw.
  pose proof (c_wellFormed w Hw) as Hwf.
  assert (flippedCards (ui w) = []) as Hnil.
  { destruct (flippedCards (ui w)) as [|i sel] eqn:Hsel; [done|].
    destruct (wf_selected _ Hwf i) as (c & Hc & _ & _ & Hm).
    - rewrite Hsel. by left.
    - rewrite (allMatched_cards _ _ Hall Hc) in Hm. done. }
  assert (∀ cardId, dispatch w (ClickCard cardId) = w) as Hclick.
  { intros cardId. destruct (decide (cardId ∈ id <$> cards (ui w))) as [Hin|Hout].
    - apply MemoryFacts.dispatch_rejected_click, MemoryFacts.handleCardClick_rejected.
      right. right. apply list_elem_of_fmap in Hin as (c & -> & Hc).
      rewrite (MemoryFacts.foundFlipped_true (id c) (ui w) c (wf_ids _ Hwf) Hc eq_refl).
      apply (wf_matched _ Hwf c Hc). by apply (allMatched_cards (ui w)).
    - unfold dispatch. destruct (gameState (ui w)); try done.
      by rewrite bool_decide_eq_false_2. }
  assert (dispatch w TimeoutElapses = w) as Htime.
  { rewrite dispatch_timeout. destruct (timers w) as [|closure rest] eqn:Ht; [done|].
    destruct (timers_closure w closure rest Hw Ht) as (_ & _ & Hchk & _).
    destruct (c_checking w Hw Hchk) as [Hlen _]. by rewrite Hnil in Hlen. }
  split_and!; try done.
  intros Hg [cardId| |fetched random| ]; try done.
  - unfold dispatch. by rewrite Hg.
  - unfold dispatch. by rewrite Hg.
Qed.

(** X12 ([completeGame]): a step reports the activity as completed exactly
    when it takes the game into ['won'] from another state. *)
Theorem X12_completion_reported_on_entering_won (es : list Event) (e : Event) :
  let w := run initialWorld es in
  let w' := dispatch w e in
  ∃ fx, fired w' = fired w ++ fx
    ∧ (CompleteActivity ∈ fx ↔ gameState (ui w) ≠ won ∧ gameState (ui w') = won).
Proof.
  intros w w'. subst w'. destruct (reachable_settled es) as [Hw _ _]. fold w in Hw.
  destruct (dispatch_cases w e) as [-> |(next & w0 & fx0 & -> & Hf0 & Hno & _ & Hnext)].
  - exists []. rewrite app_nil_r. split; [done|].
    rewrite elem_of_nil. intuition.
  - destruct (Hnext Hw) as (Hg & _ & Hwon).
    destruct (afterRender_fired (ui w) next w0 Hg) as (fx & Hfx & Hiff).
    exists (fx0 ++ fx). rewrite Hfx, Hf0, app_assoc. split; [done|].
    rewrite elem_of_app, Hiff. split.
    + intros [?|Hres]; [done|]. split; [|done].
      intros Hgw. destruct (Hwon Hgw) as [Hnil Hcards].
      rewrite afterRender_quiet in Hres; [done|by rewrite Hnil|].
      unfold allMatched. by rewrite Hcards.
    + intros [_ Hres]. by right.
Qed.

(** ** Turning up two cards *)

Lemma fmap_ext_in {A B : Type} (f g : A → B) (l : list A) :
  (∀ x, x ∈ l → f x = g x) → f <$> l = g <$> l.
Proof. intros H. apply Forall_fmap_ext_1, Forall_forall. exact H. Qed.

Lemma includes_pair (i j x : nat) : includes [i; j] x = bool_decide (x = i ∨ x = j).
Proof.
  unfold includes. apply bool_decide_ext. rewrite !elem_of_cons, elem_of_nil. tauto.
Qed.

Lemma unmatched_card (s : State) (c : GameCard) :
  c ∈ cards s → isMatched c = false → allMatched s = false.
Proof.
  intros Hc Hm. destruct (allMatched s) eqn:Hall; [|done].
  rewrite (allMatched_cards s c Hall Hc) in Hm. done.
Qed.

Lemma turnedUp_hit (c : GameCard) : turnedUp (id c) c = withFlipped true c.
Proof. unfold turnedUp. by rewrite Nat.eqb_refl. Qed.

Lemma turnedUp_miss (i : nat) (c : GameCard) : id c ≠ i → turnedUp i c = c.
Proof. intros Hne. unfold turnedUp. by rewrite (proj2 (Nat.eqb_neq _ _) Hne). Qed.

Lemma turnedUp_isMatched (i : nat) (c : GameCard) :
  isMatched (turnedUp i c) = isMatched c.
Proof. unfold turnedUp. by destruct (id c =? i). Qed.

Lemma turnedUp_id (i : nat) (c : GameCard) : id (turnedUp i c) = id c.
Proof. unfold turnedUp. by destruct (id c =? i). Qed.

Lemma twoShown_cards (i j : nat) (s : State) :
  cards (twoShown i j s) = withShown i j (cards s).
Proof.
  unfold twoShown, withShown. simpl. rewrite <- list_fmap_compose.
  apply fmap_ext_in. intros c _. simpl. unfold turnedUp at 2.
  destruct (id c =? i) eqn:Hi.
  - apply Nat.eqb_eq in Hi. rewrite bool_decide_eq_true_2 by auto.
    unfold turnedUp. simpl. by destruct (id c =? j).
  - apply Nat.eqb_neq in Hi. unfold turnedUp.
    destruct (id c =? j) eqn:Hj.
    + apply Nat.eqb_eq in Hj. by rewrite bool_decide_eq_true_2 by auto.
    + apply Nat.eqb_neq in Hj. by rewrite bool_decide_eq_false_2 by tauto.
Qed.

Lemma matchedBoard_twoShown (i j : nat) (s : State) :
  cards (matchedBoard (twoShown i j s)) = withPair i j (cards s).
Proof.
  unfold matchedBoard. cbn [cards flippedCards]. rewrite twoShown_cards.
  unfold withShown, withPair. rewrite <- list_fmap_compose.
  apply fmap_ext_in. intros c _. simpl. rewrite includes_pair.
  destruct (bool_decide (id c = i ∨ id c = j)) eqn:Hc; simpl; by rewrite Hc.
Qed.

Lemma afterRender_evaluates (prev next : State) (w : World) :
  length (flippedCards next) = 2 → flippedCards prev ≠ flippedCards next →
  afterRender prev next w
  = match checkMatch next with
    | Finished s fx =>
        let '(s', fx') := effect_completeGame prev s in
        mkWorld s' (timers w) (unhandledRejection w) (fired w ++ fx ++ fx')
    | Sleeps s closure =>
        mkWorld s (timers w ++ [closure]) (unhandledRejection w) (fired w)
    | Raises s => mkWorld s (timers w) true (fired w)
    end.
Proof.
  intros Hlen Hne. unfold afterRender, effect_checkMatch.
  rewrite bool_decide_eq_false_2 by (intros [? _]; done).
  by rewrite bool_decide_eq_true_2.
Qed.

(** With two cards selected on a well-formed board, [checkMatch] compares
    the pairs of exactly those two. *)
Lemma checkMatch_decides (s : State) (a b : GameCard) :
  wellFormed s → flippedCards s = [id a; id b] → a ∈ cards s → b ∈ cards s →
  checkMatch s
  = if strictEq (pairId a) (pairId b)
    then Finished (matchedBoard s) [PlaySound "Match!"]
    else Sleeps (setIsChecking true s) (flippedCards s).
Proof.
  intros Hwf Hsel Ha Hb.
  assert (length (flippedCards s) = 2) as Hlen by (by rewrite Hsel).
  destruct (MemoryFacts.checkMatch_finds_two s Hwf Hlen) as (c1 & c2 & rest & Hfil).
  assert (strictEq (pairId c1) (pairId c2) = strictEq (pairId a) (pairId b)) as Heq.
  { assert (NoDup (c1 :: c2 :: rest)) as Hnd.
    { rewrite <- Hfil. apply NoDup_filter, (NoDup_fmap_1 id), Hwf. }
    assert (∀ c, c ∈ c1 :: c2 :: rest → c = a ∨ c = b) as Hab.
    { intros c Hc. rewrite <- Hfil in Hc. apply list_elem_of_filter in Hc as [Hinc Hc].
      apply bool_decide_eq_true in Hinc. rewrite Hsel in Hinc.
      apply elem_of_cons in Hinc as [Hi|Hinc]; [left|right].
      - by apply (MemoryFacts.card_unique (cards s)); [apply Hwf|..].
      - apply list_elem_of_singleton in Hinc.
        by apply (MemoryFacts.card_unique (cards s)); [apply Hwf|..]. }
    apply NoDup_cons in Hnd as [Hne _].
    assert (c1 ≠ c2) as Hne' by (intros ->; apply Hne; by left).
    destruct (Hab c1) as [-> | ->]; [by left| |];
      (destruct (Hab c2) as [-> | ->]; [right; by left|..]); try done.
    unfold strictEq. apply bool_decide_ext. split; congruence. }
  unfold checkMatch. rewrite bool_decide_eq_true_2 by done. simpl.
  rewrite Hfil, Heq. by destruct (strictEq (pairId a) (pairId b)).
Qed.

Lemma state_eta (s : State) :
  mkState (cards s) (flippedCards s) (gameState s) (isChecking s) = s.
Proof. by destruct s. Qed.

Lemma world_eta (w : World) :
  mkWorld (ui w) (timers w) (unhandledRejection w) (fired w) = w.
Proof. by destruct w. Qed.

Lemma faceDown_unmatched (s : State) (c : GameCard) :
  wellFormed s → c ∈ cards s → isFlipped c = false → isMatched c = false.
Proof.
  intros Hwf Hc Hdown. destruct (isMatched c) eqn:Hm; [|done].
  rewrite (wf_matched s Hwf c Hc Hm) in Hdown. done.
Qed.

Lemma first_click (w : World) (a b : GameCard) :
  consistent w → faceDownPair (ui w) a b →
  dispatch w (ClickCard (id a))
  = mkWorld (oneShown (id a) (ui w)) [] false (fired w).
Proof.
  intros Hw [Hg Hnil Ha Hb Hab Hda Hdb].
  pose proof (c_wellFormed w Hw) as Hwf.
  assert (isChecking (ui w) = false) as Hchk.
  { destruct (isChecking (ui w)) eqn:Hchk; [|done].
    destruct (c_checking w Hw Hchk) as [Hlen _]. by rewrite Hnil in Hlen. }
  unfold dispatch. rewrite Hg.
  rewrite bool_decide_eq_true_2 by (by apply list_elem_of_fmap_2).
  rewrite MemoryFacts.handleCardClick_accepted; [|done|by rewrite Hnil|].
  2: { by rewrite (MemoryFacts.foundFlipped_true (id a) (ui w) a (wf_ids _ Hwf) Ha
                     eq_refl). }
  rewrite afterRender_quiet.
  - by rewrite (c_timers w Hw), Hchk, (c_no_rejection w Hw), Hnil, Hg.
  - simpl. rewrite Hnil. simpl. lia.
  - symmetry. apply (MemoryFacts.allMatched_fmap (turnedUp (id a))); [|done].
    apply turnedUp_isMatched.
Qed.

(** The second click selects the second card and has the pair evaluated. *)
Lemma second_click (w : World) (a b : GameCard) :
  consistent w → faceDownPair (ui w) a b →
  let s1 := oneShown (id a) (ui w) in
  let s2 := twoShown (id a) (id b) (ui w) in
  run w [ClickCard (id a); ClickCard (id b)]
  = match (if strictEq (pairId a) (pairId b)
           then Finished (matchedBoard s2) [PlaySound "Match!"]
           else Sleeps (setIsChecking true s2) [id a; id b]) with
    | Finished s fx =>
        let '(s', fx') := effect_completeGame s1 s in
        mkWorld s' [] false (fired w ++ fx ++ fx')
    | Sleeps s closure => mkWorld s [closure] false (fired w)
    | Raises s => mkWorld s [] true (fired w)
    end
  ∧ allMatched s1 = false.
Proof.
  intros Hw Hfd s1 s2.
  pose proof (MemoryFacts.dispatch_consistent w (ClickCard (id a)) Hw) as Hw1.
  change (run w [ClickCard (id a); ClickCard (id b)])
    with (dispatch (dispatch w (ClickCard (id a))) (ClickCard (id b))).
  rewrite (first_click w a b Hw Hfd) in *. fold s1 in Hw1 |- *.
  destruct Hfd as [Hg Hnil Ha Hb Hab Hda Hdb].
  pose proof (c_wellFormed _ Hw1) as Hwf1. cbn [ui] in Hwf1.
  assert (withFlipped true a ∈ cards s1) as Ha1.
  { rewrite <- turnedUp_hit. by apply list_elem_of_fmap_2. }
  assert (b ∈ cards s1) as Hb1.
  { rewrite <- (turnedUp_miss (id a) b) by done. by apply list_elem_of_fmap_2. }
  assert (handleCardClick (id b) s1 = s2) as Hacc.
  { rewrite MemoryFacts.handleCardClick_accepted; [done|done|simpl; lia|].
    by rewrite (MemoryFacts.foundFlipped_true (id b) s1 b (wf_ids _ Hwf1) Hb1 eq_refl). }
  assert (id b ∈ id <$> cards s1) as Hin by (by apply list_elem_of_fmap_2).
  assert (wellFormed s2) as Hwf2.
  { rewrite <- Hacc. by apply MemoryFacts.handleCardClick_wellFormed. }
  assert (withFlipped true a ∈ cards s2) as Ha2.
  { rewrite <- (turnedUp_miss (id b) (withFlipped true a)) by done.
    by apply list_elem_of_fmap_2. }
  assert (withFlipped true b ∈ cards s2) as Hb2.
  { rewrite <- turnedUp_hit. by apply list_elem_of_fmap_2. }
  split.
  - unfold dispatch. cbn [ui]. change (gameState s1) with playing. cbv iota.
    rewrite bool_decide_eq_true_2 by done. rewrite Hacc.
    rewrite afterRender_evaluates; [|done|done].
    by rewrite (checkMatch_decides s2 (withFlipped true a) (withFlipped true b)).
  - apply (unmatched_card s1 (withFlipped true a) Ha1). simpl.
    by apply (faceDown_unmatched (ui w) a (c_wellFormed w Hw)).
Qed.

(** X13 ([handleCardClick], [checkMatch], [completeGame]): clicking two
    face-down cards of the same pair marks exactly those two as matched and
    leaves them face up, empties the selection at once, without a timer,
    asks for the sound "Match!", and shows the trophy and reports the
    activity exactly if no unmatched card is left. *)
Theorem X13_matching_pair_is_marked (es : list Event) (a b : GameCard) :
  let w := run initialWorld es in
  faceDownPair (ui w) a b → pairId a = pairId b →
  let w2 := run w [ClickCard (id a); ClickCard (id b)] in
  cards (ui w2) = withPair (id a) (id b) (cards (ui w))
  ∧ flippedCards (ui w2) = [] ∧ isChecking (ui w2) = false ∧ timers w2 = []
  ∧ gameState (ui w2) = (if allMatched (ui w2) then won else playing)
  ∧ fired w2 = fired w ++ PlaySound "Match!"
                          :: (if allMatched (ui w2) then [CompleteActivity] else []).
Proof.
  intros w Hfd Hpair w2.
  pose proof (MemoryFacts.reachable_consistent es) as Hw. fold w in Hw.
  destruct (second_click w a b Hw Hfd) as [Hrun Hs1]. fold w2 in Hrun.
  unfold strictEq in Hrun. rewrite bool_decide_eq_true_2 in Hrun by done.
  unfold effect_completeGame in Hrun. rewrite Hs1 in Hrun.
  pose proof (matchedBoard_twoShown (id a) (id b) (ui w)) as Hcards.
  destruct (allMatched (matchedBoard (twoShown (id a) (id b) (ui w)))) eqn:Hall;
    simpl in Hrun; rewrite Hrun; cbn [ui timers fired].
  - change (allMatched (setGameState won ?s)) with (allMatched s). rewrite Hall.
    by split_and!.
  - rewrite Hall. by split_and!.
Qed.

(** X14 ([handleCardClick], [checkMatch]): clicking two face-down cards of
    different pairs shows both, locks the board and asks for no sound; when
    the timer fires the component is back in the very state it was in
    before the two clicks. *)
Theorem X14_mismatch_is_turned_back (es : list Event) (a b : GameCard) :
  let w := run initialWorld es in
  faceDownPair (ui w) a b → pairId a ≠ pairId b →
  let w2 := run w [ClickCard (id a); ClickCard (id b)] in
  ui w2 = mkState (withShown (id a) (id b) (cards (ui w))) [id a; id b] playing true
  ∧ timers w2 = [[id a; id b]] ∧ fired w2 = fired w
  ∧ dispatch w2 TimeoutElapses = w.
Proof.
  intros w Hfd Hpair w2.
  pose proof (MemoryFacts.reachable_consistent es) as Hw. fold w in Hw.
  destruct (second_click w a b Hw Hfd) as [Hrun _]. fold w2 in Hrun.
  unfold strictEq in Hrun. rewrite bool_decide_eq_false_2 in Hrun by done.
  rewrite Hrun. cbn [ui timers fired].
  pose proof (twoShown_cards (id a) (id b) (ui w)) as Hcards.
  split_and!; try done.
  - unfold setIsChecking. by rewrite Hcards.
  - rewrite dispatch_timeout. cbn [ui timers fired unhandledRejection].
    destruct Hfd as [Hg Hnil Ha Hb Hab Hda Hdb].
    pose proof (c_wellFormed w Hw) as Hwf.
    assert (cards (checkMatch_afterDelay [id a; id b]
                     (setIsChecking true (twoShown (id a) (id b) (ui w))))
            = cards (ui w)) as Hback.
    { simpl. rewrite <- !list_fmap_compose.
      rewrite <- (list_fmap_id (cards (ui w))) at 2.
      apply fmap_ext_in. intros c Hc. simpl. rewrite includes_pair, !turnedUp_id.
      case_bool_decide as Hid.
      - destruct Hid as [Hid|Hid].
        + assert (c = a) as -> by (by apply (MemoryFacts.card_unique (cards (ui w)));
                                    [apply Hwf|..]).
          rewrite turnedUp_hit, turnedUp_miss by done.
          destruct a. simpl in *. by subst.
        + assert (c = b) as -> by (by apply (MemoryFacts.card_unique (cards (ui w)));
                                    [apply Hwf|..]).
          rewrite (turnedUp_miss (id a)), turnedUp_hit by done.
          destruct b. simpl in *. by subst.
      - rewrite !turnedUp_miss; [done|tauto|].
        rewrite turnedUp_miss; tauto. }
    rewrite afterRender_quiet.
    + assert (isChecking (ui w) = false) as Hchk.
      { destruct (isChecking (ui w)) eqn:Hchk; [|done].
        destruct (c_checking w Hw Hchk) as [Hlen _]. by rewrite Hnil in Hlen. }
      pose proof (c_timers _ Hw) as Htm. rewrite Hchk in Htm.
      pose proof (c_no_rejection _ Hw) as Hunh.
      assert (checkMatch_afterDelay [id a; id b]
                (setIsChecking true (twoShown (id a) (id b) (ui w))) = ui w) as ->.
      { etrans; [|apply state_eta]. rewrite Hnil, Hg, Hchk, <- Hback. done. }
      cbn [timers unhandledRejection fired].
      rewrite <- Htm, <- Hunh. apply world_eta.
    + simpl. lia.
    + symmetry.
      apply (MemoryFacts.allMatched_fmap
               (λ c, if includes [id a; id b] (id c) then withFlipped false c else c));
        [|done].
      intros c. by destruct (includes [id a; id b] (id c)).
Qed.

(** ** Winning a game *)

Lemma pushCards_pair (fetchedCards : list FetchedCard) :
  ∀ index k f, fetchedCards !! k = Some f →
    mkGameCard ((index + k) * 2) word (fetched_word f) (fetched_word f) false false
      ∈ pushCards index fetchedCards
    ∧ mkGameCard ((index + k) * 2 + 1) image (fetched_imageUrl f) (fetched_word f)
                 false false
      ∈ pushCards index fetchedCards.
Proof.
  induction fetchedCards as [|f' l IH]; intros index k f Hk; [done|].
  destruct k as [|k]; simpl in Hk.
  - injection Hk as ->. rewrite Nat.add_0_r. simpl.
    split; [by left|right; by left].
  - destruct (IH (S index) k f Hk) as [Hw Hi].
    replace (index + S k) with (S index + k) by lia.
    simpl. split; by do 2 right.
Qed.

Lemma fresh_not_allMatched (s : State) :
  (∀ c, c ∈ cards s → isMatched c = false) → allMatched s = false.
Proof.
  intros Hfresh. unfold allMatched. destruct (cards s) as [|c l] eqn:Hc; [done|].
  simpl. by rewrite (Hfresh c) by (by left).
Qed.

Section Deal.

Variable fetchedCards : list FetchedCard.
Variable random : nat → nat.

Local Abbreviation deal := (shuffleArray random (pushCards 0 fetchedCards)).
Local Abbreviation pairs := (length fetchedCards).
Local Abbreviation matchSound := (PlaySound "Match!").

Lemma deal_fresh (c : GameCard) :
  c ∈ deal → isFlipped c = false ∧ isMatched c = false.
Proof.
  rewrite (MemoryFacts.shuffleArray_Permutation random _).
  apply MemoryFacts.pushCards_fresh.
Qed.

Lemma deal_ids (c : GameCard) : c ∈ deal → id c < pairs * 2.
Proof.
  intros Hc. apply (list_elem_of_fmap_2 id) in Hc.
  rewrite (MemoryFacts.shuffleArray_Permutation random _) in Hc.
  rewrite MemoryFacts.pushCards_ids in Hc. apply elem_of_seq in Hc. lia.
Qed.

Lemma deal_pair (k : nat) :
  k < pairs →
  ∃ a b, a ∈ deal ∧ b ∈ deal ∧ id a = k * 2 ∧ id b = k * 2 + 1
         ∧ pairId a = pairId b.
Proof.
  intros Hk. destruct (lookup_lt_is_Some_2 fetchedCards k Hk) as [f Hf].
  destruct (pushCards_pair fetchedCards 0 k f Hf) as [Hw Hi].
  eexists _, _.
  rewrite !(MemoryFacts.shuffleArray_Permutation random _).
  split_and!; [exact Hw|exact Hi|done..].
Qed.

Lemma found_none : found 0 <$> deal = deal.
Proof. rewrite <- (list_fmap_id deal) at 2. by apply fmap_ext_in. Qed.

Lemma found_next (k : nat) :
  withPair (k * 2) (k * 2 + 1) (found k <$> deal) = found (S k) <$> deal.
Proof.
  unfold withPair. rewrite <- list_fmap_compose. apply fmap_ext_in.
  intros c _. simpl. unfold found.
  destruct (id c <? k * 2) eqn:Hlt.
  - apply Nat.ltb_lt in Hlt. simpl.
    rewrite bool_decide_eq_false_2 by lia.
    by rewrite (proj2 (Nat.ltb_lt _ _)) by lia.
  - apply Nat.ltb_ge in Hlt. case_bool_decide as Hid.
    + by rewrite (proj2 (Nat.ltb_lt _ _)) by lia.
    + by rewrite (proj2 (Nat.ltb_ge _ _)) by lia.
Qed.

Lemma found_allMatched (k : nat) (s : State) :
  cards s = found k <$> deal → 0 < pairs →
  allMatched s = bool_decide (pairs ≤ k).
Proof.
  intros Hc Hpos. case_bool_decide as Hk.
  - unfold allMatched. rewrite Hc, length_fmap.
    rewrite (Permutation_length (MemoryFacts.shuffleArray_Permutation random _)).
    rewrite MemoryFacts.pushCards_length.
    rewrite bool_decide_eq_true_2 by lia. simpl.
    apply forallb_forall. intros c' Hc'.
    apply list_elem_of_In, list_elem_of_fmap in Hc' as (c & -> & Hin).
    unfold found. pose proof (deal_ids c Hin).
    by rewrite (proj2 (Nat.ltb_lt _ _)) by lia.
  - destruct (deal_pair k) as (a & _ & Ha & _ & Hida & _); [lia|].
    apply (unmatched_card s (found k a)).
    + rewrite Hc. by apply list_elem_of_fmap_2.
    + unfold found. rewrite (proj2 (Nat.ltb_ge _ _)) by lia.
      by destruct (deal_fresh a Ha).
Qed.

Lemma after_deal :
  run initialWorld [CardsSettle (Fulfilled fetchedCards) random]
  = mkWorld (mkState deal [] playing false) [] false [].
Proof.
  unfold run. simpl. unfold dispatch. simpl.
  rewrite afterRender_quiet; [done|simpl; lia|].
  symmetry. apply fresh_not_allMatched. intros c Hc. by destruct (deal_fresh c Hc).
Qed.

(** Finding the next pair on a board where the first [k] are found. *)
Lemma next_pair (w : World) (k : nat) :
  consistent w → k < pairs →
  w = mkWorld (mkState (found k <$> deal) [] playing false) [] false
              (replicate k matchSound) →
  run w [ClickCard (k * 2); ClickCard (k * 2 + 1)]
  = if bool_decide (pairs ≤ S k)
    then mkWorld (mkState (found (S k) <$> deal) [] won false) [] false
                 (replicate (S k) matchSound ++ [CompleteActivity])
    else mkWorld (mkState (found (S k) <$> deal) [] playing false) [] false
                 (replicate (S k) matchSound).
Proof.
  intros Hw Hk Heq.
  destruct (deal_pair k Hk) as (a & b & Ha & Hb & Hida & Hidb & Hpair).
  destruct (deal_fresh a Ha) as [Hfa Hma], (deal_fresh b Hb) as [Hfb Hmb].
  assert (found k a = a) as Hka.
  { unfold found. by rewrite (proj2 (Nat.ltb_ge _ _)) by lia. }
  assert (found k b = b) as Hkb.
  { unfold found. by rewrite (proj2 (Nat.ltb_ge _ _)) by lia. }
  assert (faceDownPair (ui w) a b) as Hfd.
  { rewrite Heq. split; simpl; try done; try lia.
    - rewrite <- Hka. by apply list_elem_of_fmap_2.
    - rewrite <- Hkb. by apply list_elem_of_fmap_2. }
  destruct (second_click w a b Hw Hfd) as [Hrun Hs1].
  rewrite Hida, Hidb in Hrun. rewrite Hida in Hs1. rewrite Hrun.
  unfold strictEq. rewrite bool_decide_eq_true_2 by done.
  unfold effect_completeGame. rewrite Hs1.
  pose proof (matchedBoard_twoShown (k * 2) (k * 2 + 1) (ui w)) as Hcards.
  rewrite Heq in Hcards at 2. cbn [ui cards] in Hcards. rewrite found_next in Hcards.
  rewrite (found_allMatched (S k) _ Hcards) by lia.
  assert (matchedBoard (twoShown (k * 2) (k * 2 + 1) (ui w))
          = mkState (found (S k) <$> deal) [] playing false) as ->.
  { rewrite <- Hcards. done. }
  assert (fired w = replicate k matchSound) as -> by (by rewrite Heq).
  rewrite replicate_S_end.
  destruct (bool_decide (pairs ≤ S k)); simpl.
  - by rewrite <- app_assoc.
  - done.
Qed.

Lemma pairs_found (k : nat) :
  k < pairs →
  run initialWorld (CardsSettle (Fulfilled fetchedCards) random :: winningClicks k)
  = mkWorld (mkState (found k <$> deal) [] playing false) [] false
            (replicate k matchSound).
Proof.
  induction k as [|k IH]; intros Hk.
  - cbn [winningClicks]. rewrite after_deal, found_none. done.
  - change (CardsSettle (Fulfilled fetchedCards) random :: winningClicks (S k))
      with ((CardsSettle (Fulfilled fetchedCards) random :: winningClicks k)
            ++ [ClickCard (k * 2); ClickCard (k * 2 + 1)]).
    unfold run. rewrite foldl_app. fold (run initialWorld
      (CardsSettle (Fulfilled fetchedCards) random :: winningClicks k)).
    rewrite (next_pair _ k); [|apply MemoryFacts.reachable_consistent|lia|apply IH; lia].
    by rewrite bool_decide_eq_false_2 by lia.
Qed.

(** X24 (the component as a whole): a deal of one pair or more can be won.
    Clicking its pairs one after the other, ids 0 and 1, then 2 and 3, and
    so on, whatever the shuffle did, ends in ['won'] with every card matched
    and face up, after one "Match!" sound per pair and one report of the
    completed activity; and not before the last pair. *)
Theorem X24_pairs_in_order_win :
  0 < pairs →
  let play := λ k, run initialWorld
                (CardsSettle (Fulfilled fetchedCards) random :: winningClicks k) in
  gameState (ui (play pairs)) = won
  ∧ cards (ui (play pairs))
    = (λ c, withMatched (withFlipped true c)) <$> deal
  ∧ fired (play pairs) = replicate pairs matchSound ++ [CompleteActivity]
  ∧ (∀ k, k < pairs →
       gameState (ui (play k)) = playing
       ∧ fired (play k) = replicate k matchSound).
Proof.
  intros Hpos play.
  assert (play pairs
          = mkWorld (mkState (found pairs <$> deal) [] won false) [] false
                    (replicate pairs matchSound ++ [CompleteActivity])) as Hend.
  { unfold play. destruct pairs as [|k] eqn:Hn; [lia|].
    change (CardsSettle (Fulfilled fetchedCards) random :: winningClicks (S k))
      with ((CardsSettle (Fulfilled fetchedCards) random :: winningClicks k)
            ++ [ClickCard (k * 2); ClickCard (k * 2 + 1)]).
    unfold run. rewrite foldl_app. fold (run initialWorld
      (CardsSettle (Fulfilled fetchedCards) random :: winningClicks k)).
    rewrite (next_pair _ k);
      [|apply MemoryFacts.reachable_consistent|lia|apply pairs_found; lia].
    rewrite Hn. by rewrite bool_decide_eq_true_2 by lia. }
  split_and!.
  - by rewrite Hend.
  - rewrite Hend. simpl. apply fmap_ext_in. intros c Hc. unfold found.
    pose proof (deal_ids c Hc). by rewrite (proj2 (Nat.ltb_lt _ _)) by lia.
  - by rewrite Hend.
  - intros k Hk. unfold play. by rewrite pairs_found.
Qed.

End Deal.

Lemma X24_pairs_in_order_win_witness :
  let fetchedCards := [mkFetchedCard (js "cat") (js "cat.png");
                       mkFetchedCard (js "dog") (js "dog.png")] in
  let w := run initialWorld
             (CardsSettle (Fulfilled fetchedCards) (λ k, 7 * k + 3) :: winningClicks 2) in
  gameState (ui w) = won
  ∧ fired w = [PlaySound "Match!"; PlaySound "Match!"; CompleteActivity].
Proof.
  destruct (X24_pairs_in_order_win
              [mkFetchedCard (js "cat") (js "cat.png");
               mkFetchedCard (js "dog") (js "dog.png")] (λ k, 7 * k + 3))
    as (Hwon & _ & Hfired & _); [simpl; lia|].
  by split.
Defined.

(** ** The properties at work on [catDogDeal] *)

Lemma X8_face_up_iff_matched_or_selected_witness :
  let s := ui (run initialWorld [catDogDeal; ClickCard 0; ClickCard 1; ClickCard 3]) in
  let c := withFlipped true dogImage in
  (isFlipped c = true ↔ isMatched c = true ∨ id c ∈ flippedCards s)
  ∧ ¬ (isMatched c = true ∧ id c ∈ flippedCards s).
Proof.
  apply (X8_face_up_iff_matched_or_selected
           [catDogDeal; ClickCard 0; ClickCard 1; ClickCard 3] (withFlipped true dogImage)).
  compute_done.
Defined.

Lemma X9_cards_keep_place_and_face_witness :
  let w := run initialWorld [catDogDeal; ClickCard 0] in
  Forall2 (λ c c', face c' = face c ∧ (isMatched c = true → isMatched c' = true))
          (cards (ui w)) (cards (ui (dispatch w (ClickCard 1)))).
Proof.
  apply (X9_cards_keep_place_and_face
           (run initialWorld [catDogDeal; ClickCard 0]) (ClickCard 1)).
  reflexivity.
Defined.

Lemma X10_trophy_means_all_matched_witness :
  let w := run initialWorld catDogWonRun in
  allMatched (ui w) = true ∧ flippedCards (ui w) = [] ∧ timers w = [].
Proof.
  destruct (X10_trophy_means_all_matched catDogWonRun eq_refl) as (Hall & _ & Hsel & _ & Htm).
  by split_and!.
Defined.

Lemma X11_all_matched_board_is_dead_witness :
  let w := run initialWorld failedReplayRun in
  gameState (ui w) = playing
  ∧ dispatch w (ClickCard 0) = w
  ∧ dispatch w ClickPlayAgain = w
  ∧ dispatch w catDogDeal = w.
Proof.
  destruct (X11_all_matched_board_is_dead failedReplayRun eq_refl)
    as (_ & Hclick & _ & Hall).
  split; [reflexivity|]. split; [apply Hclick|].
  split; apply Hall; reflexivity.
Defined.

Lemma X13_matching_pair_is_marked_witness :
  let w := run initialWorld [catDogDeal] in
  let w2 := run w [ClickCard 0; ClickCard 1] in
  cards (ui w2) = withPair 0 1 (cards (ui w))
  ∧ flippedCards (ui w2) = [] ∧ isChecking (ui w2) = false ∧ timers w2 = []
  ∧ gameState (ui w2) = (if allMatched (ui w2) then won else playing)
  ∧ fired w2 = fired w ++ PlaySound "Match!"
                          :: (if allMatched (ui w2) then [CompleteActivity] else []).
Proof.
  apply (X13_matching_pair_is_marked [catDogDeal] catWord catImage);
    [|reflexivity].
  split; [reflexivity|reflexivity|compute_done|compute_done|simpl; lia|
          reflexivity|reflexivity].
Defined.

Lemma X14_mismatch_is_turned_back_witness :
  let w := run initialWorld [catDogDeal] in
  let w2 := run w [ClickCard 0; ClickCard 3] in
  ui w2 = mkState (withShown 0 3 (cards (ui w))) [0; 3] playing true
  ∧ timers w2 = [[0; 3]] ∧ fired w2 = fired w
  ∧ dispatch w2 TimeoutElapses = w.
Proof.
  apply (X14_mismatch_is_turned_back [catDogDeal] catWord dogImage).
  - split; [reflexivity|reflexivity|compute_done|compute_done|simpl; lia|
            reflexivity|reflexivity].
  - compute_done.
Defined.

Lemma X7_dealt_card_is_told_by_its_id_witness :
  let fetchedCards := [mkFetchedCard (js "cat") (js "cat.png");
                       mkFetchedCard (js "dog") (js "dog.png")] in
  ∃ f, fetchedCards !! (id dogImage / 2) = Some f
    ∧ pairId dogImage = fetched_word f
    ∧ type dogImage = (if Nat.even (id dogImage) then word else image)
    ∧ content dogImage = (if Nat.even (id dogImage) then fetched_word f
                          else fetched_imageUrl f).
Proof.
  apply (proj2 (proj2 (X7_dealt_card_is_told_by_its_id
                         [mkFetchedCard (js "cat") (js "cat.png");
                          mkFetchedCard (js "dog") (js "dog.png")]
                         (λ k, 7 * k + 3) initialState)) dogImage).
  compute_done.
Defined.

End MemoryBoardFacts.


(** * Properties of the server actions and of playing a sound *)

Module ActionsFacts.
Import Actions.

Lemma missing_false (v : option jsstring) :
  missing v = false ↔ ∃ s, v = Some s ∧ s ≠ [].
Proof.
  destruct v as [[|c s]|]; simpl; split; try done.
  - intros (s & [= <-] & Hs). done.
  - intros _. by eexists.
  - intros (s & [=] & _).
Qed.

Lemma not_falsy (s : jsstring) : falsy s = false ↔ s ≠ [].
Proof. by destruct s. Qed.

(** X15 ([translateText]): the flow is called exactly when text and
    context are both non-empty, with those two; the result carries no error
    exactly when it carries a translation, which then comes with its
    explanation and synonyms from a complete answer of the flow; a result
    with an error has all three fields empty. *)
Theorem X15_translateText_error_or_content (textToTranslate context : jsstring)
    (outcome : Promise (option RawTranslateOutput)) :
  let r := settle outcome (translateText textToTranslate context) in
  calls (translateText textToTranslate context)
  = (if falsy textToTranslate || falsy context then []
     else [mkTranslateInput textToTranslate context])
  ∧ (translate_error r = None ↔ translation r ≠ [])
  ∧ (translate_error r = None →
     explanation r ≠ [] ∧ textToTranslate ≠ [] ∧ context ≠ []
     ∧ ∃ result, outcome = Fulfilled (Some result)
         ∧ raw_translation result = Some (translation r)
         ∧ raw_explanation result = Some (explanation r)
         ∧ raw_synonyms result = Some (synonyms r))
  ∧ (translate_error r ≠ None →
     translation r = [] ∧ explanation r = [] ∧ synonyms r = []).
Proof.
  unfold translateText.
  destruct (falsy textToTranslate || falsy context) eqn:Hin; simpl.
  { split_and!; try done. }
  apply orb_false_elim in Hin as [Ht Hc].
  apply not_falsy in Ht, Hc.
  destruct outcome as [[[t e syn]|]|message]; simpl; try by split_and!.
  destruct (missing t || missing e || absent syn) eqn:Hmiss; simpl;
    [by split_and!|].
  apply orb_false_elim in Hmiss as [Hmiss Hsyn].
  apply orb_false_elim in Hmiss as [Hmt Hme].
  apply missing_false in Hmt as (t' & -> & Ht'), Hme as (e' & -> & He').
  destruct syn as [syn'|]; [|done]. simpl.
  split_and!; try done. intros _. split_and!; try done. by eexists.
Qed.

(** X16 ([speakText]): the flow is called exactly for a non-empty text;
    the result carries no error exactly when the text was non-empty and the
    flow resolved to an object, whose [audioData] it then hands on; a result
    with an error has no audio; and the "empty text" error is returned for
    the empty text only. *)
Theorem X16_speakText_error_or_audio (textToSpeak : jsstring)
    (outcome : Promise (option RawSpeech)) :
  let r := settle outcome (speakText textToSpeak) in
  calls (speakText textToSpeak)
  = (if falsy textToSpeak then [] else [mkTextToSpeechInput textToSpeak])
  ∧ (speak_error r = None ↔
     textToSpeak ≠ [] ∧ ∃ result, outcome = Fulfilled (Some result))
  ∧ (speak_error r ≠ None → audioData r = None)
  ∧ (∀ result, textToSpeak ≠ [] → outcome = Fulfilled (Some result) →
       audioData r = raw_audioData result)
  ∧ (speak_error r = Some "O texto não pode estar vazio." ↔ textToSpeak = []).
Proof.
  unfold speakText. destruct textToSpeak as [|c s]; simpl.
  - split_and!; try done; try (split; [done|]; by intros [? _]);
      try (by intros result ?).
  - rewrite ?bool_decide_eq_true_2 by (simpl; lia). simpl.
    destruct outcome as [[result|]|message]; simpl; split_and!; try done.
    + split; [intros _; split; [done|by eexists]|done].
    + by intros result' _ [= ->].
    + split; [done|]. by intros [_ (result & [=])].
    + split; [done|]. by intros [_ (result & [=])].
Qed.

(** X18 ([fetchDailyWord], [fetchDailySentence], [fetchNewStory]): whatever
    the flow did, the word and its hint, the sentence, and the title,
    content and level of the story that are returned are there and not
    empty; what is returned is the answer of the flow when that is complete
    in these fields, and the built-in fallback otherwise.  The translation
    of a story is not among the fields looked at. *)
Theorem X18_fetches_never_incomplete :
  (∀ (cacheBuster : jsstring) (outcome : Promise (option DailyWordOutput)),
     let r := settle outcome (fetchDailyWord cacheBuster) in
     missing (word r) = false ∧ missing (hint r) = false
     ∧ (outcome = Fulfilled (Some r) ∨ r = pandaWord)
     ∧ (∀ result, outcome = Fulfilled (Some result) →
          missing (word result) = false → missing (hint result) = false →
          r = result))
  ∧ (∀ (level cacheBuster : jsstring) (outcome : Promise (option DailySentenceOutput)),
       let r := settle outcome (fetchDailySentence level cacheBuster) in
       calls (fetchDailySentence level cacheBuster)
       = [mkDailySentenceInput level cacheBuster]
       ∧ missing (sentence r) = false
       ∧ (outcome = Fulfilled (Some r) ∨ r = catSentence)
       ∧ (∀ result, outcome = Fulfilled (Some result) →
            missing (sentence result) = false → r = result))
  ∧ (∀ (Input : Type) (input : Input) (cacheBuster : jsstring)
       (outcome : Promise (option StoryGeneratorOutput)),
       let r := settle outcome (fetchNewStory input cacheBuster) in
       calls (fetchNewStory input cacheBuster) = [(input, cacheBuster)]
       ∧ missing (story_title r) = false ∧ missing (story_content r) = false
       ∧ missing (story_level r) = false
       ∧ (outcome = Fulfilled (Some r) ∨ r = dragonStory)
       ∧ (∀ result, outcome = Fulfilled (Some result) →
            missing (story_title result) = false →
            missing (story_content result) = false →
            missing (story_level result) = false →
            r = result ∧ story_translation r = story_translation result)).
Proof.
  split_and!.
  - intros cacheBuster outcome. simpl.
    destruct outcome as [[result|]|message]; simpl; try by split_and!; auto.
    destruct (missing (word result) || missing (hint result)) eqn:Hmiss.
    + split_and!; auto. intros result' [= <-] Hw Hh. by rewrite Hw, Hh in Hmiss.
    + apply orb_false_elim in Hmiss as [Hw Hh].
      split_and!; auto. by intros result' [= <-].
  - intros level cacheBuster outcome. simpl.
    destruct outcome as [[result|]|message]; simpl; try by split_and!; auto.
    destruct (missing (sentence result)) eqn:Hmiss.
    + split_and!; auto. intros result' [= <-] Hs. congruence.
    + split_and!; auto. by intros result' [= <-].
  - intros Input input cacheBuster outcome. simpl.
    destruct outcome as [[result|]|message]; simpl; try by split_and!; auto.
    destruct (missing (story_title result) || missing (story_content result)
              || missing (story_level result)) eqn:Hmiss.
    + split_and!; auto. intros result' [= <-] Ht Hc Hl.
      by rewrite Ht, Hc, Hl in Hmiss.
    + apply orb_false_elim in Hmiss as [Hmiss Hl].
      apply orb_false_elim in Hmiss as [Ht Hc].
      split_and!; auto. by intros result' [= <-].
Qed.

(** X19 ([submitPlacementTest]): an empty list of answers is turned down
    without calling the evaluation flow; otherwise the flow is called once,
    with the answers as submitted; a success carries a final level and an
    analysis that are not empty and are those of the flow; and a complete
    answer of the flow to a non-empty submission is a success. *)
Theorem X19_submitPlacementTest_outcomes (answers : list Answer)
    (outcome : Promise (option RawEvaluation)) :
  let r := settle outcome (submitPlacementTest answers) in
  calls (submitPlacementTest answers) = (if bool_decide (answers = []) then []
                                         else [answers])
  ∧ (answers = [] → r = Failure "Dados de envio inválidos.")
  ∧ (∀ finalLevel analysis, r = Success finalLevel analysis →
       finalLevel ≠ [] ∧ analysis ≠ [] ∧ answers ≠ []
       ∧ ∃ evaluationResult, outcome = Fulfilled (Some evaluationResult)
           ∧ raw_finalLevel evaluationResult = Some finalLevel
           ∧ raw_analysis evaluationResult = Some analysis)
  ∧ (∀ evaluationResult finalLevel analysis,
       answers ≠ [] → outcome = Fulfilled (Some evaluationResult) →
       raw_finalLevel evaluationResult = Some finalLevel →
       raw_analysis evaluationResult = Some analysis →
       finalLevel ≠ [] → analysis ≠ [] →
       r = Success finalLevel analysis).
Proof.
  unfold submitPlacementTest. destruct answers as [|a l]; simpl.
  - split_and!; try done.
  - rewrite ?bool_decide_eq_true_2 by (simpl; lia). simpl.
    destruct outcome as [[[fl an]|]|message]; simpl; split_and!; try done.
    + intros finalLevel analysis.
      destruct (missing fl || missing an) eqn:Hmiss; [done|].
      apply orb_false_elim in Hmiss as [Hfl Han].
      apply missing_false in Hfl as (fl' & -> & Hfl'), Han as (an' & -> & Han').
      simpl. intros [= <- <-]. split_and!; try done. by eexists.
    + intros ev finalLevel analysis _ [= <-]. simpl. intros -> -> Hfl Han.
      destruct finalLevel, analysis; done.
Qed.

Lemma X15_translateText_error_or_content_witness :
  let result := mkRawTranslateOutput (Some (js "gato")) (Some (js "um animal"))
                                     (Some [js "felino"]) in
  let r := settle (Fulfilled (Some result)) (translateText (js "cat") (js "pets")) in
  explanation r ≠ [] ∧ js "cat" ≠ [] ∧ js "pets" ≠ []
  ∧ ∃ result', Fulfilled (Some result) = Fulfilled (Some result')
      ∧ raw_translation result' = Some (translation r)
      ∧ raw_explanation result' = Some (explanation r)
      ∧ raw_synonyms result' = Some (synonyms r).
Proof.
  apply (proj1 (proj2 (proj2 (X15_translateText_error_or_content
           (js "cat") (js "pets")
           (Fulfilled (Some (mkRawTranslateOutput (Some (js "gato"))
                               (Some (js "um animal")) (Some [js "felino"])))))))).
  reflexivity.
Defined.

Lemma X16_speakText_error_or_audio_witness :
  audioData (settle (Fulfilled (Some (mkRawSpeech (Some (js "data:audio/wav")))))
               (speakText (js "Match!")))
  = Some (js "data:audio/wav").
Proof.
  apply (proj1 (proj2 (proj2 (proj2 (X16_speakText_error_or_audio (js "Match!")
           (Fulfilled (Some (mkRawSpeech (Some (js "data:audio/wav")))))))))
           (mkRawSpeech (Some (js "data:audio/wav"))));
    [done|reflexivity].
Defined.

Lemma X18_fetches_never_incomplete_witness :
  let result := mkStoryGeneratorOutput (Some (js "The Fox")) (Some (js "A fox ran."))
                                       (Some (js "A1")) None in
  let r := settle (Fulfilled (Some result)) (fetchNewStory tt (js "2024-01-01T00:00:00.000Z0.5")) in
  r = result ∧ story_translation r = None.
Proof.
  destruct X18_fetches_never_incomplete as (_ & _ & Hstory).
  destruct (Hstory unit tt (js "2024-01-01T00:00:00.000Z0.5")
              (Fulfilled (Some (mkStoryGeneratorOutput (Some (js "The Fox"))
                                  (Some (js "A fox ran.")) (Some (js "A1")) None))))
    as (_ & _ & _ & _ & _ & Hreturned).
  apply Hreturned; reflexivity.
Defined.

Lemma X19_submitPlacementTest_outcomes_witness :
  let answers := [mkAnswer (js "q1") (js "What is this?") (js "A1") true (js "a cat")] in
  settle (Fulfilled (Some (mkRawEvaluation (Some (js "A2")) (Some (js "Good start.")))))
         (submitPlacementTest answers)
  = Success (js "A2") (js "Good start.").
Proof.
  apply (proj2 (proj2 (proj2 (X19_submitPlacementTest_outcomes
           [mkAnswer (js "q1") (js "What is this?") (js "A1") true (js "a cat")]
           (Fulfilled (Some (mkRawEvaluation (Some (js "A2"))
                               (Some (js "Good start."))))))))
           (mkRawEvaluation (Some (js "A2")) (Some (js "Good start."))));
    done.
Defined.

End ActionsFacts.


Module SoundFacts.
Import Actions Sound.

Lemma present_cases (audioRef : bool) (spoken : SpeakState) :
  match shown (speak_error spoken), audioData spoken with
  | Some e, _ => present audioRef spoken = [AudioErrorToast e]
  | None, Some src =>
      present audioRef spoken
      = if negb (falsy src) && audioRef then [PlayAudio src] else []
  | None, None => present audioRef spoken = []
  end.
Proof.
  unfold present. destruct (shown (speak_error spoken)); [done|].
  by destruct (audioData spoken).
Qed.

(** X17 ([handlePlaySound] of the blurry-image page with [speakText]): no
    sound is started exactly for the empty text or while one is pending; a
    sound that was started ends without an exception, with
    [isSoundPending] reset and at most one thing done: the error toast,
    which then says that the audio could not be generated (never that the
    text is empty) and is shown only if the flow gave no object; or the
    audio started, which happens exactly if the audio element is mounted
    and the flow gave that non-empty audio. *)
Theorem X17_blurry_sound_ends_reset (text : jsstring) (isSoundPending audioRef : bool)
    (tts : Promise (option RawSpeech)) :
  (BlurryImage.playSound text isSoundPending audioRef tts = None
   ↔ text = [] ∨ isSoundPending = true)
  ∧ (∀ c, BlurryImage.playSound text isSoundPending audioRef tts = Some c →
       ∃ fx, c = Completes (false, fx) ∧ length fx ≤ 1
         ∧ (∀ e, AudioErrorToast e ∈ fx →
              e = "Não foi possível gerar o áudio. Por favor, tente novamente."%string
              ∧ ¬ ∃ result, tts = Fulfilled (Some result))
         ∧ (∀ src, PlayAudio src ∈ fx ↔
              audioRef = true ∧ src ≠ []
              ∧ ∃ result, tts = Fulfilled (Some result)
                  ∧ raw_audioData result = Some src)).
Proof.
  unfold BlurryImage.playSound, BlurryImage.handlePlaySound_request.
  destruct text as [|u text]; simpl.
  { split; [split; [by left|done]|]. by intros c. }
  destruct isSoundPending; simpl.
  { split; [split; [by right|done]|]. by intros c. }
  split; [split; [done|by intros [|]]|].
  intros c [= <-]. unfold speakText, present. simpl.
  eexists. split; [done|].
  destruct tts as [[[[[|v src]|]]|]|message]; simpl.
  - split_and!; [lia|by intros e ?%elem_of_nil|].
    intros src. rewrite elem_of_nil. split; [done|].
    by intros (_ & Hsrc & result & [= <-] & [= <-]).
  - destruct audioRef; simpl.
    + split_and!; [lia| |].
      * intros e He%list_elem_of_singleton. done.
      * intros src'. rewrite list_elem_of_singleton. split.
        -- intros [= ->]. split_and!; try done. by eexists.
        -- by intros (_ & _ & result & [= <-] & [= <-]).
    + split_and!; [lia|by intros e ?%elem_of_nil|].
      intros src'. rewrite elem_of_nil. split; [done|]. by intros (? & _).
  - split_and!; [lia|by intros e ?%elem_of_nil|].
    intros src. rewrite elem_of_nil. split; [done|].
    by intros (_ & _ & result & [= <-] & ?).
  - split_and!; [lia| |].
    + intros e He%list_elem_of_singleton. injection He as <-.
      split; [done|]. by intros (result & ?).
    + intros src. rewrite list_elem_of_singleton. split; [done|].
      by intros (_ & _ & result & ? & _).
  - split_and!; [lia| |].
    + intros e He%list_elem_of_singleton. injection He as <-.
      split; [done|]. by intros (result & ?).
    + intros src. rewrite list_elem_of_singleton. split; [done|].
      by intros (_ & _ & result & ? & _).
Qed.

(** X20 ([handlePlaySound] of both pages): however the call of the server
    action settles, the blurry-image page ends with [isSoundPending] reset,
    and lets an exception escape exactly when the call was rejected, while
    the memory-game page never does; and for a text spoken while nothing is
    pending the two pages do the same. *)
Theorem X20_sound_handlers_of_both_pages :
  (∀ (audioRef : bool) (spoken : Promise SpeakState),
     (result (BlurryImage.handlePlaySound_settle audioRef spoken)).1 = false
     ∧ ((∃ r, BlurryImage.handlePlaySound_settle audioRef spoken = Throws r)
        ↔ ∃ message, spoken = Rejected message)
     ∧ (∃ fx, MemoryGame.handlePlaySound_settle audioRef spoken = Completes fx)
     ∧ result (MemoryGame.handlePlaySound_settle audioRef spoken)
       = (result (BlurryImage.handlePlaySound_settle audioRef spoken)).2)
  ∧ (∀ (text : jsstring) (audioRef : bool) (tts : Promise (option RawSpeech)),
       MemoryGame.playSound text audioRef tts
       = (λ c, Completes (result c).2)
           <$> BlurryImage.playSound text false audioRef tts).
Proof.
  split.
  - intros audioRef [r|message]; simpl; split_and!; try done; try by eexists.
    + split; [by intros (r' & ?)|by intros (message & ?)].
    + split; intros _; by eexists.
  - intros text audioRef tts.
    unfold MemoryGame.playSound, BlurryImage.playSound,
      MemoryGame.handlePlaySound_request, BlurryImage.handlePlaySound_request.
    by destruct text.
Qed.

Lemma X17_blurry_sound_ends_reset_witness :
  ∃ fx, Completes (false, [PlayAudio (js "data:audio/wav")]) = Completes (false, fx)
    ∧ length fx ≤ 1
    ∧ (∀ e, AudioErrorToast e ∈ fx →
         e = "Não foi possível gerar o áudio. Por favor, tente novamente."%string
         ∧ ¬ ∃ result, Fulfilled (Some (mkRawSpeech (Some (js "data:audio/wav"))))
                       = Fulfilled (Some result))
    ∧ (∀ src, PlayAudio src ∈ fx ↔
         true = true ∧ src ≠ []
         ∧ ∃ result, Fulfilled (Some (mkRawSpeech (Some (js "data:audio/wav"))))
                     = Fulfilled (Some result)
             ∧ raw_audioData result = Some src).
Proof.
  apply (proj2 (X17_blurry_sound_ends_reset (js "Match!") false true
                  (Fulfilled (Some (mkRawSpeech (Some (js "data:audio/wav"))))))).
  reflexivity.
Defined.

End SoundFacts.


(** * Steps of the blurry-image page *)

Module BlurryStepFacts.
Import Blurry BlurryRound.

Section Steps.

Variable toLowerCase : jsstring → jsstring.

Local Abbreviation dispatch := (Blurry.dispatch toLowerCase).
Local Abbreviation handleGuessSubmit := (Blurry.handleGuessSubmit toLowerCase).

Local Ltac members :=
  rewrite ?elem_of_cons, ?elem_of_nil; solve [firstorder congruence].

(** X21 ([handleGuessSubmit] on the rendered page): a step reports the
    activity as completed exactly when it takes a round being played to
    ['correct']; it asks for a sound exactly when it ends the round, the
    praise for ['correct'] and the consolation for ['lost']; and it shows
    the toast that tells the word exactly when the round is lost. *)
Theorem X21_round_end_effects (s : State) (e : Event) :
  let s' := (dispatch s e).1 in
  let fx := (dispatch s e).2 in
  (CompleteActivity ∈ fx ↔ gameState s = playing ∧ gameState s' = correct)
  ∧ (∀ text, PlaySound text ∈ fx ↔
       gameState s = playing
       ∧ (gameState s' = correct ∧ text = "Correct, great job!"%string
          ∨ gameState s' = lost ∧ text = "Not quite, try another one!"%string))
  ∧ (Toast "Essa foi difícil!" ∈ fx ↔ gameState s = playing ∧ gameState s' = lost).
Proof.
  unfold Blurry.dispatch, renderContent.
  destruct e as [d|[c|m]|v| |random| ]; destruct (gameState s) eqn:Hg;
    cbn [fst snd]; try (simpl; split_and!; [members|intros text; members|members]).
  - destruct (guessInputDisabled s); cbn [fst snd]; simpl; rewrite ?Hg;
      (split_and!; [members|intros text; members|members]).
  - destruct (submitButtonDisabled s); cbn [fst snd]; rewrite ?Hg;
      [split_and!; [members|intros text; members|members]|].
    unfold Blurry.handleGuessSubmit.
    destruct (falsy (trim (userGuess s))); cbn [fst snd]; rewrite ?Hg;
      [split_and!; [members|intros text; members|members]|].
    destruct (strictEq _ _); cbn [fst snd gameState setGameState];
      [split_and!; [members|intros text; members|members]|].
    destruct (2 <=? attempts s); cbn [fst snd gameState setGameState setAttempts];
      rewrite ?Hg; (split_and!; [members|intros text; members|members]).
  - destruct (hintButtonDisabled s); cbn [fst snd]; rewrite ?Hg;
      [split_and!; [members|intros text; members|members]|].
    destruct (BlurryFacts.handleHint_gameState random s) as (Hgs & _ & _).
    rewrite Hgs, Hg. unfold handleHint. case_bool_decide; cbn [snd];
      (split_and!; [members|intros text; members|members]).
  - destruct (difficulty s); cbn [fst snd]; rewrite ?Hg;
      (split_and!; [members|intros text; members|members]).
  - destruct (difficulty s); cbn [fst snd]; rewrite ?Hg;
      (split_and!; [members|intros text; members|members]).
Qed.

(** X22 ([renderContent] over the handlers): a step leaves the screen as
    it is or makes one of five changes: picker to spinner, spinner to round,
    spinner to picker, round to end of round, end of round to spinner. *)
Theorem X22_screens_follow_the_round (s : State) (e : Event) :
  let s' := (dispatch s e).1 in
  renderContent s' = renderContent s
  ∨ screenStep (renderContent s) (renderContent s') = true.
Proof.
  unfold Blurry.dispatch, renderContent.
  destruct e as [d|[c|m]|v| |random| ]; destruct (gameState s) eqn:Hg;
    cbn [fst snd]; rewrite ?Hg; try (by left); try (by right).
  - destruct (guessInputDisabled s); cbn [fst]; simpl; rewrite Hg; by left.
  - destruct (submitButtonDisabled s); cbn [fst]; [rewrite Hg; by left|].
    destruct (BlurryFacts.handleGuessSubmit_cases toLowerCase s) as [-> |[-> |[_ ->]]].
    + rewrite Hg. by left.
    + by right.
    + destruct (2 <=? attempts s); simpl; rewrite ?Hg; [by right|by left].
  - destruct (hintButtonDisabled s); cbn [fst]; [rewrite Hg; by left|].
    destruct (BlurryFacts.handleHint_gameState random s) as (-> & _ & _).
    rewrite Hg. by left.
  - destruct (difficulty s); cbn [fst]; simpl; rewrite ?Hg; [by right|by left].
  - destruct (difficulty s); cbn [fst]; simpl; rewrite ?Hg; [by right|by left].
Qed.

(** [String.prototype.toUpperCase], the Unicode case mapping of the host. *)
Variable toUpperCase : jsstring → jsstring.

Lemma hintLetters_cell (s : State) (i : nat) :
  hintLetters toUpperCase s !! i
  = (λ char, if bool_decide (char = SPACE) then NBSP
             else if bool_decide (i ∈ revealedIndices s) then toUpperCase [char]
             else UNDERSCORE) <$> correctWord s !! i.
Proof. unfold hintLetters. by rewrite list_lookup_imap. Qed.

Lemma hintLetters_unrevealed (s : State) (i : nat) :
  i ∈ unrevealedPositions s
  ↔ hintLetters toUpperCase s !! i = Some UNDERSCORE ∧ (i ∉ revealedIndices s).
Proof.
  rewrite hintLetters_cell, BlurryFacts.unrevealedPositions_spec.
  destruct (correctWord s !! i) as [char|] eqn:Hl; simpl.
  - apply lookup_lt_Some in Hl as Hlt.
    destruct (decide (char = SPACE)) as [-> |Hsp].
    + rewrite bool_decide_eq_true_2 by done. split.
      * by intros (_ & _ & ?).
      * intros [Hcell _]. inversion Hcell.
    + rewrite bool_decide_eq_false_2 by done.
      destruct (decide (i ∈ revealedIndices s)) as [Hrev|Hrev].
      * rewrite bool_decide_eq_true_2 by done.
        split; [by intros (_ & ? & _)|by intros [_ ?]].
      * rewrite bool_decide_eq_false_2 by done. split; [done|].
        intros _. split_and!; [done|done|congruence].
  - apply lookup_ge_None in Hl. split; [|by intros [? _]]. intros (? & _). lia.
Qed.

Lemma underscore_cell (s : State) :
  UNDERSCORE ∈ hintLetters toUpperCase s →
  unrevealedPositions s ≠ []
  ∨ ∃ c, c ∈ correctWord s ∧ toUpperCase [c] = UNDERSCORE.
Proof.
  intros Hin. apply list_elem_of_lookup_1 in Hin as [i Hi].
  destruct (decide (i ∈ revealedIndices s)) as [Hrev|Hrev].
  - right. rewrite hintLetters_cell in Hi.
    destruct (correctWord s !! i) as [char|] eqn:Hl; [|done]. simpl in Hi.
    exists char. split; [by apply (list_elem_of_lookup_2 _ i)|].
    case_bool_decide; [done|]. rewrite bool_decide_eq_true_2 in Hi by done. congruence.
  - left. intros Hnil.
    assert (i ∈ unrevealedPositions s) as Hu by (by apply hintLetters_unrevealed).
    rewrite Hnil in Hu. by apply elem_of_nil in Hu.
Qed.


End Steps.


(** A word with an underscore in it: with all of "a_b" revealed the hint
    button is disabled while the row still shows a ['_'], the revealed
    letter itself. *)
Example revealed_underscore_is_shown :
  let s := Blurry.run asciiToLowerCase initialState underscoreRun in
  unrevealedPositions s = [] ∧ hintButtonDisabled s = true
  ∧ hintLetters asciiToUpperCase s = [js "A"; UNDERSCORE; js "B"].
Proof. by vm_compute. Qed.

End BlurryStepFacts.
